(** * Adaptive hybrid quantum hash search: a shallow embedding

    The Python package [adaptive_hash/qsearch] is embedded function by
    function.  Python [int] is [Z], [str] is [string] (a sequence of code
    points below 256), [float] is the kernel's binary64 [float], a [dict]
    of measurement counts is an association list in insertion order, and
    a raised exception is the [Err] branch of [result]. *)

From Stdlib Require Import ZArith List String Ascii Bool Lia Floats.
From stdpp Require Import base list gmap.
Import ListNotations.

Local Open Scope string_scope.
Local Open Scope list_scope.
Local Open Scope Z_scope.

(** ** The Python runtime used by the package *)

Module Py.

(** The exceptions the modelled code can raise.  [MathDomainError] is the
    [ValueError("math domain error")] of the [math] module, kept apart
    from the other [ValueError]s so that statements can tell them apart;
    [CircuitError] is Qiskit's error for a qubit index out of range. *)
Inductive exn : Set :=
| IndexError
| ValueError
| MathDomainError
| ZeroDivisionError
| OverflowError
| CircuitError.

Inductive result (A : Type) : Type :=
| Ok (a : A)
| Err (e : exn).
Arguments Ok {A} a.
Arguments Err {A} e.

Definition bind {A B} (m : result A) (k : A -> result B) : result B :=
  match m with
  | Ok a => k a
  | Err e => Err e
  end.

(** [for x in xs: body], threading the loop's mutable state. *)
Fixpoint for_each {A S} (xs : list A) (body : A -> S -> result S) (s : S)
  : result S :=
  match xs with
  | [] => Ok s
  | x :: xs' => bind (body x s) (for_each xs' body)
  end.

(** [enumerate(xs)] *)
Definition enumerate {A} (xs : list A) : list (nat * A) :=
  combine (seq 0 (List.length xs)) xs.

Definition chars (s : string) : list ascii := list_ascii_of_string s.

Definition len (s : string) : Z := Z.of_nat (String.length s).

(** [xs[k]] on a list, with Python's negative indices. *)
Definition getitem {A} (xs : list A) (k : Z) : result A :=
  let n := Z.of_nat (List.length xs) in
  let j := if k <? 0 then k + n else k in
  if (0 <=? j) && (j <? n) then
    match nth_error xs (Z.to_nat j) with
    | Some a => Ok a
    | None => Err IndexError
    end
  else Err IndexError.

(** [s[i:i+m]] for [i >= 0], [m >= 0]: slices clamp at the end. *)
Definition slice (s : string) (i m : nat) : string := substring i m s.

(** [s[::-1]] *)
Definition reversed_str (s : string) : string :=
  string_of_list_ascii (rev (chars s)).

(** Binary digits of a non-negative integer, most significant first. *)
Fixpoint bin_pos (p : positive) : list ascii :=
  match p with
  | xH => ["1"%char]
  | xO q => bin_pos q ++ ["0"%char]
  | xI q => bin_pos q ++ ["1"%char]
  end.

Definition bin_digits (i : N) : list ascii :=
  match i with
  | N0 => ["0"%char]
  | Npos p => bin_pos p
  end.

(** [format(i, f"0{w}b")] for [i >= 0]: the binary digits, zero-padded on
    the left to width [w] (never truncated). *)
Definition format_0b (w : nat) (i : N) : string :=
  let ds := bin_digits i in
  string_of_list_ascii (repeat "0"%char (w - List.length ds) ++ ds).

(** [int(s, 2)] on the bit-strings the package handles: a non-empty
    string of the characters 0 and 1.  Anything else is a [ValueError]
    (Python's parser also accepts a sign, a [0b] prefix, underscores and
    surrounding blanks, which measurement outcomes never carry). *)
Definition bit_of (c : ascii) : result Z :=
  if Ascii.eqb c "0" then Ok 0
  else if Ascii.eqb c "1" then Ok 1
  else Err ValueError.

Definition int_base2 (s : string) : result Z :=
  match chars s with
  | [] => Err ValueError
  | cs => for_each cs (fun c acc => bind (bit_of c) (fun b => Ok (2 * acc + b))) 0
  end.

(** [s.encode('utf-8')] for code points below 256, as byte values.  On
    these the encoding is total; a [str] holding a lone surrogate, on
    which the code raises [UnicodeEncodeError], is not a value of
    [string], and no statement below speaks about it. *)
Definition utf8_char (c : ascii) : list Z :=
  let n := Z.of_N (N_of_ascii c) in
  if n <? 128 then [n] else [192 + n / 64; 128 + n mod 64].

Definition encode_utf8 (s : string) : list Z :=
  flat_map utf8_char (chars s).

(** [int.from_bytes(bs, 'big')] *)
Definition int_from_bytes_big (bs : list Z) : Z :=
  fold_left (fun acc b => 256 * acc + b) bs 0.

End Py.

Export Py.

(** [result] is an error monad; stdpp's [x ← m; k] notation sequences the
    statements of a function body and stops at the first exception. *)
#[global] Instance result_bind : MBind result := fun A B k m => Py.bind m k.
#[global] Instance result_ret : MRet result := fun A a => Ok a.

(** ** hashing.py *)

Module Hashing.

Definition primes : list Z := [17; 19; 23; 29; 31; 37; 41; 43; 47].

Definition get_prime (prime_index : Z) : result Z :=
  getitem primes (prime_index - 1).

Definition make_hash (substring : string) (hash_bits : nat) (prime_index : Z)
  : result Z :=
  p ← get_prime prime_index;
  let r := int_from_bytes_big (encode_utf8 substring) in
  Ok ((r * p) mod (2 ^ Z.of_nat hash_bits)).

Definition compare_hash (substring target : string) (hash_bits : nat)
    (prime_index : Z) : result bool :=
  a ← make_hash substring hash_bits prime_index;
  b ← make_hash target hash_bits prime_index;
  Ok (a =? b).

End Hashing.

(** ** preprocessing.py *)

Module Preprocessing.
Import Hashing.

(** [math.ceil(math.log2(n_substr))]: a [ValueError] (math domain error)
    for [n_substr <= 0]; the exact ceiling of the logarithm otherwise.
    The code takes the ceiling of a binary64 logarithm, which is the
    exact ceiling as long as the logarithm of a number that is not a
    power of two stays clear of the next integer by more than the
    rounding error: up to [2^32] windows the gap is thousands of units in
    the last place; from about [2^49] windows on the float logarithm of
    [2^k + 1] is [k] itself and the code returns one qubit less.  The
    statements that need the exact ceiling carry the bound
    [n_substr <= 2^32]. *)
Definition compute_n_qubits (n_substr : Z) : result Z :=
  if n_substr <=? 0 then Err MathDomainError else Ok (Z.log2_up n_substr).

(** The three lists the loop appends to. *)
Record acc : Type := mk_acc {
  valid_states : list string;
  substrings : list string;
  targets : list string
}.

Definition string_in (s : string) (l : list string) : bool :=
  existsb (String.eqb s) l.

(** The inner loop: one [append] per target whose digest matches. *)
Definition mark_window (substring : string) (i : nat) (n_qubits : Z)
    (search_values : list string) (hash_bits : nat) (prime_index : Z)
    (vs : list string) : result (list string) :=
  for_each search_values
    (fun search_value vs =>
       m ← compare_hash substring search_value hash_bits prime_index;
       if (m : bool)
       then Ok (vs ++ [format_0b (Z.to_nat n_qubits) (N.of_nat i)])
       else Ok vs)
    vs.

Definition window_step (input_text : string) (substring_length : nat)
    (n_qubits : Z) (search_values : list string) (hash_bits : nat)
    (prime_index : Z) (i : nat) (a : acc) : result acc :=
  let substring := slice input_text i substring_length in
  h ← make_hash substring hash_bits prime_index;
  let hash_substring := format_0b hash_bits (Z.to_N h) in
  let subs := substrings a ++ [hash_substring] in
  let tgs := if string_in substring search_values
             then targets a ++ [hash_substring] else targets a in
  vs ← mark_window substring i n_qubits search_values hash_bits prime_index
          (valid_states a);
  Ok (mk_acc vs subs tgs).

Definition classical_preprocessing (input_text : string)
    (search_values : list string) (hash_bits : nat) (prime_index : Z)
  : result (list string * Z * Z * list string * list string) :=
  first ← getitem search_values 0;
  let substring_length := String.length first in
  let n_substr := len input_text - Z.of_nat substring_length + 1 in
  n_qubits ← compute_n_qubits n_substr;
  a ← for_each (seq 0 (Z.to_nat n_substr))
         (window_step input_text substring_length n_qubits search_values
            hash_bits prime_index)
         (mk_acc [] [] []);
  Ok (valid_states a, n_substr, n_qubits, substrings a, targets a).

End Preprocessing.

(** ** circuits.py *)

Module Circuits.

(** The gates the builders emit, over a type [Q] of qubit names. *)
Inductive gate (Q : Type) : Type :=
| Hgate (q : Q)
| Xgate (q : Q)
| MCXgate (controls : list Q) (target : Q).
Arguments Hgate {Q} q.
Arguments Xgate {Q} q.
Arguments MCXgate {Q} controls target.

(** A [QuantumCircuit] body: the gates in the order they were appended. *)
Definition circuit (Q : Type) : Type := list (gate Q).

(** *** Circuits over one anonymous register of [n] qubits *)

(** An integer qubit argument resolves like a list index into the
    circuit's qubits; out of range is a [CircuitError]. *)
Definition qubit_at (n : nat) (i : Z) : result nat :=
  match getitem (seq 0 n) i with
  | Ok q => Ok q
  | Err _ => Err CircuitError
  end.

Definition qc_x (n : nat) (i : Z) (qc : circuit nat) : result (circuit nat) :=
  q ← qubit_at n i; Ok (qc ++ [Xgate q]).

Definition qc_h (n : nat) (i : Z) (qc : circuit nat) : result (circuit nat) :=
  q ← qubit_at n i; Ok (qc ++ [Hgate q]).

(** [qc.mcx(list(range(k)), t)] *)
Definition qc_mcx (n : nat) (k : Z) (t : Z) (qc : circuit nat)
  : result (circuit nat) :=
  q ← qubit_at n t; Ok (qc ++ [MCXgate (seq 0 (Z.to_nat k)) q]).

(** [qc.x(range(n))] and [qc.h(range(n))]: one gate per qubit, in order. *)
Definition qc_x_all (n : nat) (qc : circuit nat) : circuit nat :=
  qc ++ map Xgate (seq 0 n).

Definition qc_h_all (n : nat) (qc : circuit nat) : circuit nat :=
  qc ++ map Hgate (seq 0 n).

(** The loop [for i, bit in enumerate(reversed(bitstring)): if bit == '0':
    oracle.x(i)]. *)
Definition flip_zeros (n : nat) (bitstring : string) (qc : circuit nat)
  : result (circuit nat) :=
  for_each (enumerate (rev (chars bitstring)))
    (fun '(i, bit) qc =>
       if Ascii.eqb bit "0" then qc_x n (Z.of_nat i) qc else Ok qc)
    qc.

Definition create_hashed_oracle (n_qubits : nat) (valid_states : list string)
  : result (circuit nat) :=
  let last := Z.of_nat n_qubits - 1 in
  for_each valid_states
    (fun bitstring oracle =>
       oracle ← flip_zeros n_qubits bitstring oracle;
       oracle ← qc_h n_qubits last oracle;
       oracle ← qc_mcx n_qubits last last oracle;
       oracle ← qc_h n_qubits last oracle;
       flip_zeros n_qubits bitstring oracle)
    [].

Definition diffuser (n_qubits : nat) : result (circuit nat) :=
  let last := Z.of_nat n_qubits - 1 in
  let diff := qc_h_all n_qubits [] in
  let diff := qc_x_all n_qubits diff in
  diff ← qc_h n_qubits last diff;
  diff ← qc_mcx n_qubits last last diff;
  diff ← qc_h n_qubits last diff;
  let diff := qc_x_all n_qubits diff in
  Ok (qc_h_all n_qubits diff).

(** Qiskit's [a.compose(b)] with its default arguments returns a new
    circuit holding the instructions of [a] followed by those of [b]. *)
Definition compose {Q} (a b : circuit Q) : circuit Q := a ++ b.

Definition grover_operator (n_qubits : nat) (valid_states : list string)
  : result (circuit nat) :=
  oracle ← create_hashed_oracle n_qubits valid_states;
  diff_op ← diffuser n_qubits;
  Ok (compose diff_op oracle).

(** Instructions of a circuit that also appends whole sub-circuits and
    measures: [Append body qargs] is [qc.append(body, qargs)], the
    sub-circuit's qubit [j] wired to [qargs[j]]. *)
Inductive instr : Type :=
| Prim (g : gate nat)
| Append (body : circuit nat) (qargs : list nat)
| Measure (q c : nat).

Definition rewire (qargs : list nat) (g : gate nat) : gate nat :=
  let w := fun j => nth j qargs j in
  match g with
  | Hgate q => Hgate (w q)
  | Xgate q => Xgate (w q)
  | MCXgate cs t => MCXgate (map w cs) (w t)
  end.

(** The elementary gates an instruction list stands for, in order. *)
Definition gate_sequence (ins : list instr) : circuit nat :=
  flat_map (fun i => match i with
                     | Prim g => [g]
                     | Append body qargs => map (rewire qargs) body
                     | Measure _ _ => []
                     end) ins.

(** The body of the search loop: [qc.append(oracle, range(n_qubits))]
    and then [qc.append(diff_op, range(n_qubits))]. *)
Definition grover_iteration (n_qubits : nat) (oracle diff_op : circuit nat)
    (qc : list instr) : list instr :=
  qc ++ [Append oracle (seq 0 n_qubits); Append diff_op (seq 0 n_qubits)].

Definition grover_basic_search_circuit (n_qubits : nat)
    (valid_states : list string) (iterations : nat) : result (list instr) :=
  let qc := map (fun q => Prim (Hgate q)) (seq 0 n_qubits) in
  oracle ← create_hashed_oracle n_qubits valid_states;
  diff_op ← diffuser n_qubits;
  let qc := fold_left (fun qc _ => grover_iteration n_qubits oracle diff_op qc)
              (seq 0 iterations) qc in
  Ok (qc ++ map (fun q => Measure q q) (seq 0 n_qubits)).

(** *** The associative-array loader, over an index and a value register *)

Inductive qubit : Set :=
| Idx (k : nat)
| Val (k : nat).

(** [reg[k]] on a register of [size] qubits, [k >= 0]. *)
Definition reg_item (size k : nat) : result nat :=
  if (k <? size)%nat then Ok k else Err IndexError.

(** The loop [for k, idx_bit in enumerate(index_bin): if idx_bit == '0':
    qc.x(qreg_idx[k])]. *)
Definition flip_index_zeros (num_idx : nat) (index_bin : string)
    (qc : circuit qubit) : result (circuit qubit) :=
  for_each (enumerate (chars index_bin))
    (fun '(k, idx_bit) qc =>
       if Ascii.eqb idx_bit "0"
       then q ← reg_item num_idx k; Ok (qc ++ [Xgate (Idx q)])
       else Ok qc)
    qc.

(** The body run for one bit of one array entry; the same in
    [load_array] and [unload_array]. *)
Definition load_bit (num_idx num_val : nat) (index_bin : string)
    (vb : nat * ascii) (qc : circuit qubit) : result (circuit qubit) :=
  let '(val_qubit, bit_char) := vb in
  if Ascii.eqb bit_char "1" then
    qc ← flip_index_zeros num_idx index_bin qc;
    t ← reg_item num_val val_qubit;
    let qc := qc ++ [MCXgate (map Idx (seq 0 num_idx)) (Val t)] in
    flip_index_zeros num_idx index_bin qc
  else Ok qc.

Definition load_array (num_idx num_val : nat) (array : list string)
    (qc : circuit qubit) : result (circuit qubit) :=
  for_each (enumerate array)
    (fun '(i, val_bin) qc =>
       let index_bin := format_0b num_idx (N.of_nat i) in
       for_each (enumerate (rev (chars val_bin)))
         (load_bit num_idx num_val index_bin) qc)
    qc.

Definition unload_array (num_idx num_val : nat) (array : list string)
    (qc : circuit qubit) : result (circuit qubit) :=
  for_each (rev (enumerate array))
    (fun '(i, val_bin) qc =>
       let index_bin := format_0b num_idx (N.of_nat i) in
       for_each (rev (enumerate (rev (chars val_bin))))
         (load_bit num_idx num_val index_bin) qc)
    qc.

(** *** Action of the classical gates on computational basis states

    [X] and multi-controlled [X] permute basis states, so a circuit made
    of them is determined by its action on the bits of the two
    registers.  [H] is not such a gate: [step] is undefined on it. *)
Record basis : Type := mk_basis {
  idx_bits : list bool;
  val_bits : list bool
}.

Definition read (st : basis) (q : qubit) : bool :=
  match q with
  | Idx k => nth k (idx_bits st) false
  | Val k => nth k (val_bits st) false
  end.

Definition flip (q : qubit) (st : basis) : basis :=
  match q with
  | Idx k => mk_basis (alter negb k (idx_bits st)) (val_bits st)
  | Val k => mk_basis (idx_bits st) (alter negb k (val_bits st))
  end.

Definition step (g : gate qubit) (st : basis) : option basis :=
  match g with
  | Hgate _ => None
  | Xgate q => Some (flip q st)
  | MCXgate cs t => Some (if forallb (read st) cs then flip t st else st)
  end.

Fixpoint run (qc : circuit qubit) (st : basis) : option basis :=
  match qc with
  | [] => Some st
  | g :: qc' => match step g st with
                | Some st' => run qc' st'
                | None => None
                end
  end.

End Circuits.

(** ** Python's float arithmetic on binary64 *)

Module PyFloat.

(** [math.pi] and the literal [1e-6], as the doubles CPython uses. *)
Definition math_pi : float := 0x1.921fb54442d18p+1%float.
Definition lit_1e_6 : float := 0x1.0c6f7a0b5ed8dp-20%float.

(** [float(z)] as done implicitly in mixed arithmetic: the nearest
    double, ties to even; an [OverflowError] when it would be infinite. *)
Definition float_of_int (z : Z) : result float :=
  match binary_normalize prec emax z 0 false with
  | S754_infinity _ => Err OverflowError
  | sf => Ok (SF2Prim sf)
  end.

(** [a / b] on two ints: the correctly rounded quotient. *)
Definition int_truediv (a b : Z) : result float :=
  if b =? 0 then Err ZeroDivisionError
  else
    let sa := a <? 0 in
    let sb := b <? 0 in
    match a with
    | Z0 => Ok (SF2Prim (S754_zero sb))
    | _ =>
        match SFdiv prec emax (S754_finite sa (Z.to_pos (Z.abs a)) 0)
                (S754_finite sb (Z.to_pos (Z.abs b)) 0) with
        | S754_infinity _ => Err OverflowError
        | sf => Ok (SF2Prim sf)
        end
    end.

(** [a / b] on two floats. *)
Definition float_truediv (a b : float) : result float :=
  if (b =? 0)%float then Err ZeroDivisionError else Ok (a / b)%float.

(** [math.sqrt]: a math domain error on a negative argument. *)
Definition math_sqrt (a : float) : result float :=
  if (a <? 0)%float then Err MathDomainError else Ok (PrimFloat.sqrt a).

(** The integer nearest to [m * 2^e], ties to even. *)
Definition round_half_even (m e : Z) : Z :=
  if 0 <=? e then m * 2 ^ e
  else
    let d := 2 ^ (- e) in
    let q := m / d in
    match 2 * (m mod d) ?= d with
    | Lt => q
    | Gt => q + 1
    | Eq => if Z.even q then q else q + 1
    end.

(** [int(round(a))]: [round] on a float without digits rounds half to
    even and returns an int; it raises on NaN and on infinities. *)
Definition py_round (a : float) : result Z :=
  match Prim2SF a with
  | S754_zero _ => Ok 0
  | S754_infinity _ => Err OverflowError
  | S754_nan => Err ValueError
  | S754_finite s m e =>
      let n := round_half_even (Zpos m) e in
      Ok (if s then - n else n)
  end.

End PyFloat.

Import PyFloat.

(** A measurement histogram: [dict] from outcome bit-string to count, in
    insertion order. *)
Definition counts : Type := list (string * Z).

(** [sum(counts.values())] *)
Definition sum_values (c : counts) : Z :=
  fold_left (fun acc kv => acc + snd kv) c 0.

(** ** metrics.py *)

Module Metrics.

(** [max(xs, key=key)]: the first element whose key is maximal; a
    [ValueError] on an empty iterable. *)
Definition max_by {A} (key : A -> Z) (xs : list A) : result A :=
  match xs with
  | [] => Err ValueError
  | x :: xs' =>
      Ok (fold_left (fun best y => if key best <? key y then y else best) xs' x)
  end.

(** [counts.get(k)] for a key of the dict itself. *)
Definition counts_get (c : counts) (k : string) : Z :=
  match find (fun kv => String.eqb (fst kv) k) c with
  | Some kv => snd kv
  | None => 0
  end.

Section LibM.
(** The C library functions behind [math.sin], [math.asin] and float
    [**], and the builtin [sum] over floats (whose rounding depends on
    the interpreter version), are not fixed by IEEE 754. *)
Variable math_sin : float -> result float.
Variable float_pow : float -> float -> result float.
Variable float_sum : list float -> float.

Definition estimate_marked_state_count (c : counts) (p_count : nat)
    (n_substr : Z) : result (float * float * Z) :=
  most_common ← max_by (counts_get c) (map fst c);
  r ← int_base2 most_common;
  q ← int_truediv r (2 ^ Z.of_nat p_count);
  let theta_est := (q * 2 * math_pi)%float in
  s ← math_sin (theta_est / 2)%float;
  sq ← float_pow s 2%float;
  n ← float_of_int n_substr;
  let M_est := (n * (1 - sq))%float in
  Ok (M_est, theta_est, r).

Definition compute_errors (M_est : float) (true_M : Z)
  : result (float * float) :=
  t ← float_of_int true_M;
  let abs_error := PrimFloat.abs (M_est - t)%float in
  rel_error ← (if negb (true_M =? 0) then float_truediv abs_error t
               else Ok 0%float);
  Ok (abs_error, rel_error).

(** The terms of the two generator expressions. *)
Definition weighted_values (c : counts) : result (list Z) :=
  for_each c
    (fun '(k, v) acc => r ← int_base2 k; Ok (acc ++ [r * v])) [].

Definition weighted_squares (c : counts) (mean_r : float)
  : result (list float) :=
  for_each c
    (fun '(k, v) acc =>
       r ← int_base2 k;
       rf ← float_of_int r;
       sq ← float_pow (rf - mean_r)%float 2%float;
       vf ← float_of_int v;
       Ok (acc ++ [(sq * vf)%float]))
    [].

Definition compute_statistics (c : counts) : result (float * float) :=
  let total_shots := sum_values c in
  ws ← weighted_values c;
  mean_r ← int_truediv (fold_left Z.add ws 0) total_shots;
  sqs ← weighted_squares c mean_r;
  t ← float_of_int total_shots;
  var_r ← float_truediv (float_sum sqs) t;
  Ok (mean_r, var_r).
End LibM.

End Metrics.

(** ** utils.py *)

Module Utils.

(** [s * k] on a string. *)
Definition str_repeat (s : string) (k : Z) : list ascii :=
  List.concat (repeat (chars s) (Z.to_nat k)).

(** [xs[:e]] *)
Definition slice_to {A} (xs : list A) (e : Z) : list A :=
  if e <? 0 then firstn (Z.to_nat (Z.of_nat (List.length xs) + e)) xs
  else firstn (Z.to_nat e) xs.

(** [a // b] on ints. *)
Definition floordiv (a b : Z) : result Z :=
  if b =? 0 then Err ZeroDivisionError else Ok (a / b).

(** [list(range(0, stop, step))] for [step > 0]. *)
Definition range_step (stop step : Z) : list Z :=
  map (fun j => Z.of_nat j * step)
      (seq 0 (Z.to_nat ((stop + step - 1) / step))).

(** [xs[p:p+m] = v] for [p >= 0] and [m >= 0]. *)
Definition set_slice {A} (xs : list A) (p m : Z) (v : list A) : list A :=
  firstn (Z.to_nat p) xs ++ v ++ skipn (Z.to_nat (p + m)) xs.

(** What [random.sample(population, k)] can return on a duplicate-free
    population: any [k] distinct members, in any order. *)
Definition sample_outcome (population : list Z) (k : nat) (s : list Z)
  : bool :=
  (List.length s =? k)%nat
  && bool_decide (NoDup s)
  && forallb (fun p => bool_decide (p ∈ population)) s.

(** The function, with the outcome [selected_positions] of its call to
    [random.sample(valid_positions, num_correct)] made an argument. *)
Definition generate_input_text_fixed (input_length : Z)
    (search_values : list string) (selected_positions : list Z)
  : result string :=
  let num_correct := List.length search_values in
  first ← getitem search_values 0;
  let L := len first in
  q ← floordiv input_length L;
  let base_text := slice_to (str_repeat "xxx" (q + 1)) input_length in
  let valid_positions := range_step (input_length - L + 1) L in
  if (List.length valid_positions <? num_correct)%nat then Err ValueError
  else
    base_text ← for_each (enumerate search_values)
      (fun '(i, search_value) base_text =>
         p ← getitem selected_positions (Z.of_nat i);
         Ok (set_slice base_text p L (chars search_value)))
      base_text;
    Ok (string_of_list_ascii base_text).

(** The texts a call can return. *)
Definition may_return (input_length : Z) (search_values : list string)
    (text : string) : Prop :=
  exists sel,
    sample_outcome (range_step (input_length - len (default "" (head search_values)) + 1)
                      (len (default "" (head search_values))))
                   (List.length search_values) sel = true
    /\ generate_input_text_fixed input_length search_values sel = Ok text.

End Utils.

(** ** adaptive_search.py *)

Module AdaptiveSearch.
Import Hashing Preprocessing Metrics.

(** The keyword arguments of [run_full_search] that reach the model. *)
Record config : Type := mk_config {
  hash_bits : nat;
  prime_index : Z;
  p_count : nat;
  use_noise : bool;
  shots : Z;
  simulation : bool;
  counting_simulation : bool
}.

(** The tuple a runner returns: counts, depth, gate count, runtime. *)
Record run_stats : Type := mk_stats {
  rs_counts : counts;
  rs_depth : Z;
  rs_gate_count : Z;
  rs_runtime : float
}.

(** The [results] dictionary. *)
Record results : Type := mk_results {
  counts_count : counts;
  M_est : float;
  theta_est : float;
  r_measured : Z;
  optimal_iterations : Z;
  counts_search : counts;
  count_stats : run_stats;
  search_stats : run_stats;
  valid_fraction : float;
  n_substr : Z;
  n_qubits : Z;
  filtered_states : list string;
  expected_theta : option float;
  abs_error : float;
  rel_error : float;
  mean_r : float;
  var_r : float
}.

(** "Determine optimal Grover iterations." *)
Definition derive_iterations (n_substr : Z) (M_est : float) : result Z :=
  if (M_est <? lit_1e_6)%float then Ok 0
  else
    n ← float_of_int n_substr;
    q ← float_truediv n M_est;
    s ← math_sqrt q;
    py_round ((math_pi / 4) * s)%float.

(** "Validate Grover results." *)
Definition valid_index_set (valid_states : list string) : result (gset Z) :=
  for_each valid_states
    (fun bs acc => k ← int_base2 bs; Ok ({[ k ]} ∪ acc)) ∅.

Definition count_valid_shots (valid_indices : gset Z) (c : counts)
  : result Z :=
  for_each c
    (fun '(outcome, count) acc =>
       k ← int_base2 (reversed_str outcome);
       Ok (if bool_decide (k ∈ valid_indices) then acc + count else acc))
    0.

Definition validate (valid_states : list string) (c : counts)
  : result float :=
  valid_indices ← valid_index_set valid_states;
  let total_shots := sum_values c in
  valid_shots ← count_valid_shots valid_indices c;
  if 0 <? total_shots then int_truediv valid_shots total_shots
  else Ok 1%float.

Section Run.
Variable math_sin : float -> result float.
Variable math_asin : float -> result float.
Variable float_pow : float -> float -> result float.
Variable float_sum : list float -> float.

(** The circuit executor behind [run_counting] and [run_grover_search]
    (a simulator or a device) is outside the package. *)
Variable run_counting :
  Z -> nat -> list string -> config -> result run_stats.
Variable run_grover_search :
  Z -> list string -> Z -> config -> list string -> list string ->
  result run_stats.

Definition run_full_search (input_text : string)
    (search_value : list string) (cfg : config) : result results :=
  '(valid_states, n_substr, n_qubits, substrings, targets) ←
    classical_preprocessing input_text search_value
      (hash_bits cfg) (prime_index cfg);
  cnt ← run_counting n_qubits (p_count cfg) valid_states cfg;
  '(M_est, theta_est, r_measured) ←
    estimate_marked_state_count math_sin float_pow
      (rs_counts cnt) (p_count cfg) n_substr;
  optimal ← derive_iterations n_substr M_est;
  srch ← run_grover_search n_qubits valid_states optimal cfg
           substrings targets;
  valid_fraction ← validate valid_states (rs_counts srch);
  let true_M := Z.of_nat (List.length valid_states) in
  expected_theta ←
    (if 0 <? true_M then
       q ← int_truediv true_M n_substr;
       s ← math_sqrt q;
       a ← math_asin s;
       Ok (Some (2 * a)%float)
     else Ok None);
  '(abs_error, rel_error) ← compute_errors M_est true_M;
  '(mean_r, var_r) ← compute_statistics float_pow float_sum (rs_counts cnt);
  Ok (mk_results (rs_counts cnt) M_est theta_est r_measured optimal
        (rs_counts srch) cnt srch valid_fraction n_substr n_qubits
        valid_states expected_theta abs_error rel_error mean_r var_r).
End Run.

End AdaptiveSearch.

(** ** setup.py: one cell of the parameter sweep *)

Module Setup.
Import Utils.

(** The lines of [AHQuHSSA.run_tests] that fix the targets and the text
    length of a cell: [current_targets = self.search_values[:num_correct]],
    [L = len(current_targets[0])] and
    [input_length = (2 ** n_qubits_target) + L - 1], for a target register
    size that is not negative. *)
Definition cell_inputs (search_values : list string) (num_correct : Z)
    (n_qubits_target : nat) : result (list string * Z) :=
  let current_targets := slice_to search_values num_correct in
  first ← getitem current_targets 0;
  let L := len first in
  let input_length := 2 ^ Z.of_nat n_qubits_target + L - 1 in
  Ok (current_targets, input_length).

End Setup.

Import Hashing Preprocessing Circuits Metrics Utils AdaptiveSearch Setup.

(** * Vocabulary of the statements

    Definitions the properties are stated with: the digest behind
    [make_hash], the brute-force scan, the shape and the action of the
    loader's gate blocks, readings of a bit-string, and the slots of the
    text generator. *)

(** The digest [make_hash] computes once the prime is known. *)
Definition digest (p : Z) (hash_bits : nat) (s : string) : Z :=
  (int_from_bytes_big (encode_utf8 s) * p) mod 2 ^ Z.of_nat hash_bits.

(** The targets whose digest equals that of the window at [i]. *)
Definition window_hits (input_text : string) (search_values : list string)
    (hash_bits : nat) (p : Z) (substring_length : nat) (i : nat)
  : list string :=
  List.filter (fun t => digest p hash_bits (slice input_text i substring_length)
                   =? digest p hash_bits t) search_values.

(** What one window appends to [valid_states]: its index string, once
    per matching target. *)
Definition window_marks (input_text : string) (search_values : list string)
    (hash_bits : nat) (p : Z) (substring_length : nat) (n_qubits : Z)
    (i : nat) : list string :=
  map (fun _ => format_0b (Z.to_nat n_qubits) (N.of_nat i))
      (window_hits input_text search_values hash_bits p substring_length i).

Definition window_digest (input_text : string) (hash_bits : nat) (p : Z)
    (substring_length : nat) (i : nat) : string :=
  format_0b hash_bits
    (Z.to_N (digest p hash_bits (slice input_text i substring_length))).

(** The window positions whose digest equals the digest of some target:
    the brute-force scan the preprocessor is compared with. *)
Definition matching_windows (text : string) (targets : list string)
    (hb : nat) (p : Z) (L : nat) (n : nat) : list nat :=
  List.filter
    (fun i => existsb (fun t => digest p hb (slice text i L) =? digest p hb t)
                      targets)
    (seq 0 n).

(** A builder [f] that appends the gates [r] to whatever circuit it is
    given, or raises as [r] does. *)
Definition emits {Q} (f : circuit Q -> result (circuit Q))
    (r : result (circuit Q)) : Prop :=
  forall qc, f qc = r ≫= (fun g => Ok (qc ++ g)).

(** The pairs of an array position and a value bit, in the order
    [load_array] visits them. *)
Definition load_items (array : list string) : list (nat * (nat * ascii)) :=
  flat_map (fun iv => map (pair (fst iv)) (enumerate (rev (chars (snd iv)))))
           (enumerate array).

Definition item_body (num_idx num_val : nat) (it : nat * (nat * ascii))
  : circuit qubit -> result (circuit qubit) :=
  load_bit num_idx num_val (format_0b num_idx (N.of_nat (fst it))) (snd it).

(** The gates one pass of the index-flipping loop appends. *)
Definition flip_gate (num_idx : nat) (kb : nat * ascii)
  : result (circuit qubit) :=
  if Ascii.eqb (snd kb) "0"
  then q ← reg_item num_idx (fst kb); Ok [Xgate (Idx q)]
  else Ok [].

Definition index_flip_gates (num_idx : nat) (index_bin : string)
  : result (circuit qubit) :=
  flip_index_zeros num_idx index_bin [].

(** The block of gates appended for one value bit: nothing unless the
    bit is 1, else the index flips, the multi-controlled X onto the value
    qubit, and the same index flips again. *)
Definition block (num_idx num_val : nat) (it : nat * (nat * ascii))
  : result (circuit qubit) :=
  let index_bin := format_0b num_idx (N.of_nat (fst it)) in
  if Ascii.eqb (snd (snd it)) "1" then
    xs ← index_flip_gates num_idx index_bin;
    t ← reg_item num_val (fst (snd it));
    Ok (xs ++ [MCXgate (map Idx (seq 0 num_idx)) (Val t)] ++ xs)
  else Ok [].




(** A binary64 value that is not below zero: its sign bit is clear, or it
    is a NaN. *)
Definition sf_nonneg (x : spec_float) : bool :=
  match x with
  | S754_zero s | S754_infinity s | S754_finite s _ _ => negb s
  | S754_nan => true
  end.

Definition bit_val (c : ascii) : Z := if Ascii.eqb c "1" then 1 else 0.

Definition is_bit (c : ascii) : bool := Ascii.eqb c "0" || Ascii.eqb c "1".

(** A non-empty string of the characters 0 and 1. *)
Definition is_bitstring (s : string) : bool :=
  negb (String.eqb s "") && forallb is_bit (chars s).

(** The number a bit-string denotes with its first character most
    significant. *)
Definition big_endian_value (s : string) : Z :=
  fold_left (fun acc c => 2 * acc + bit_val c) (chars s) 0.

(** The number it denotes with its first character least significant:
    the character at position [j] weighs [2^j]. *)
Definition little_endian_value (s : string) : Z :=
  fold_right (fun c acc => 2 * acc + bit_val c) 0 (chars s).

(** The shots whose outcome, read with its first character least
    significant, is the index some valid state denotes. *)
Definition hits_valid_index (valid_states : list string) (outcome : string)
  : bool :=
  existsb (fun bs => big_endian_value bs =? little_endian_value outcome)
          valid_states.

Definition valid_shots_of (valid_states : list string) (c : counts) : Z :=
  fold_right Z.add 0
    (map snd (List.filter (fun kv => hits_valid_index valid_states (fst kv)) c)).

(** The loop [for i, search_value in enumerate(search_values)]. *)
Definition write_loop (sel : list Z) (L : Z) (items : list (nat * string))
    (base : list ascii) : result (list ascii) :=
  for_each items
    (fun '(i, search_value) base_text =>
       p ← getitem sel (Z.of_nat i);
       Ok (set_slice base_text p L (chars search_value)))
    base.

(** An item whose slot lies inside a text of [n] characters. *)
Definition item_fits (sel : list Z) (L : Z) (n : nat) (it : nat * string)
  : Prop :=
  exists p, getitem sel (Z.of_nat (fst it)) = Ok p
            /\ 0 <= p /\ p + L <= Z.of_nat n
            /\ Z.of_nat (List.length (chars (snd it))) = L.

(** An item whose slot does not cover position [k]. *)
Definition item_misses (sel : list Z) (L : Z) (k : nat) (it : nat * string)
  : Prop :=
  forall p, getitem sel (Z.of_nat (fst it)) = Ok p ->
            Z.of_nat k < p \/ p + L <= Z.of_nat k.

(** The last byte of a string's UTF-8 encoding (0 for the empty string). *)
Definition last_byte (s : string) : Z := List.last (encode_utf8 s) 0.

(** What one window appends to [targets]: its digest, when the window is
    literally one of the search values. *)
Definition window_target (input_text : string) (search_values : list string)
    (hash_bits : nat) (p : Z) (substring_length : nat) (i : nat)
  : list string :=
  if string_in (slice input_text i substring_length) search_values
  then [window_digest input_text hash_bits p substring_length i]
  else [].

(** The qubits the oracle inverts for one marked bit-string: the
    positions, counted from the right, of its characters 0. *)
Definition zeros_of (l : list (nat * ascii)) : list nat :=
  map fst (List.filter (fun ic => Ascii.eqb (snd ic) "0") l).

Definition zero_positions (bitstring : string) : list nat :=
  zeros_of (enumerate (rev (chars bitstring))).

(** The phase flip on the all-ones state of [n] qubits: a Hadamard
    sandwich around the multi-controlled X onto the last qubit. *)
Definition flip_all_ones (n : nat) : circuit nat :=
  [Hgate (n - 1)%nat; MCXgate (seq 0 (n - 1)) (n - 1)%nat; Hgate (n - 1)%nat].

(** The oracle's block for one marked bit-string. *)
Definition oracle_block (n : nat) (bitstring : string) : circuit nat :=
  map Xgate (zero_positions bitstring)
  ++ flip_all_ones n
  ++ map Xgate (zero_positions bitstring).

(** Every qubit the oracle has to invert exists, and so does the last
    qubit. *)
Definition oracle_fits (n : nat) (valid_states : list string) : bool :=
  forallb (fun b => (1 <=? n)%nat
                    && forallb (fun i => (i <? n)%nat) (zero_positions b))
          valid_states.

Definition diffuser_gates (n : nat) : circuit nat :=
  map Hgate (seq 0 n) ++ map Xgate (seq 0 n)
  ++ flip_all_ones n
  ++ map Xgate (seq 0 n) ++ map Hgate (seq 0 n).

(** The final [qc.measure(range(n), range(n))]: qubit [q] into bit [q]. *)
Definition measure_all (n : nat) : list instr :=
  map (fun q => Measure q q) (seq 0 n).

Definition is_measure (i : instr) : bool :=
  match i with
  | Measure _ _ => true
  | _ => false
  end.

(** The index-register bits that address array position [i]: the
    characters of [format(i, "0{num_idx}b")], index qubit 0 first. *)
Definition index_bits (num_idx i : nat) : list bool :=
  map (fun c => Ascii.eqb c "1") (chars (format_0b num_idx (N.of_nat i))).

(** The bit an array entry holds for value qubit [t]: its character [t]
    counted from the right. *)
Definition entry_bit (val_bin : string) (t : nat) : bool :=
  Ascii.eqb (nth t (rev (chars val_bin)) "0"%char) "1".

(** Index bits after the X gates on the positions where [index_bin] has
    a 0. *)
Fixpoint toggle_zeros (idx : list bool) (index_bin : list ascii)
  : list bool :=
  match idx, index_bin with
  | b :: idx', c :: l' => xorb b (Ascii.eqb c "0") :: toggle_zeros idx' l'
  | _, _ => idx
  end.

(** Whether the multi-controlled X of the block for array position [i]
    fires on the index bits [idx]. *)
Definition fires (num_idx : nat) (idx : list bool) (i : nat) : bool :=
  forallb id (toggle_zeros idx (chars (format_0b num_idx (N.of_nat i)))).

(** What the block of one item does to the value bits. *)
Definition item_action (num_idx : nat) (idx : list bool)
    (it : nat * (nat * ascii)) (v : list bool) : list bool :=
  if Ascii.eqb (snd (snd it)) "1" && fires num_idx idx (fst it)
  then alter negb (fst (snd it)) v
  else v.

(** The value bits with the bits of one entry added modulo 2. *)
Definition xor_entry (val_bin : list (nat * ascii)) (v : list bool)
  : list bool :=
  fold_left (fun v tc => if Ascii.eqb (snd tc) "1"
                         then alter negb (fst tc) v else v)
            val_bin v.

(** The value bits left by the loaded gates on the index bits [idx]:
    every entry whose block fires is added modulo 2. *)
Definition loaded_value (num_idx : nat) (idx : list bool)
    (array : list string) (v : list bool) : list bool :=
  fold_left (fun v iv => if fires num_idx idx (fst iv)
                         then xor_entry (enumerate (rev (chars (snd iv)))) v
                         else v)
            (enumerate array) v.





(** * Properties *)

(** ** The error monad and its loops *)

Lemma bind_Ok {A B} (a : A) (k : A -> result B) : (Ok a ≫= k) = k a.
Proof. reflexivity. Qed.

Lemma bind_Ok_inv {A B} (m : result A) (k : A -> result B) (b : B) :
  m ≫= k = Ok b -> exists a, m = Ok a /\ k a = Ok b.
Proof. destruct m as [a|e]; [eauto | discriminate]. Qed.

Lemma for_each_app {A S} (xs ys : list A) (body : A -> S -> result S) (s : S) :
  for_each (xs ++ ys) body s = for_each xs body s ≫= for_each ys body.
Proof.
  revert s; induction xs as [|x xs IH]; intros s; [reflexivity|].
  cbn [for_each app]. destruct (body x s) as [s'|e]; [apply IH | reflexivity].
Qed.

(** Reduce a bind whose first computation has returned. *)
Ltac step_bind := cbn [Py.bind mbind result_bind].

Ltac ok_inv H :=
  let a := fresh "a" in
  let Ha := fresh "Ha" in
  apply bind_Ok_inv in H; destruct H as (a & Ha & H).

(** ** hashing.py *)

Lemma get_prime_table (i : Z) :
  1 <= i <= 9 -> get_prime i = Ok (nth (Z.to_nat (i - 1)) primes 0).
Proof.
  intros Hi.
  assert (i = 1 \/ i = 2 \/ i = 3 \/ i = 4 \/ i = 5 \/ i = 6 \/ i = 7
          \/ i = 8 \/ i = 9) as Hc by lia.
  repeat (destruct Hc as [-> | Hc]); try subst i; reflexivity.
Qed.

Lemma get_prime_beyond (i : Z) :
  i < -8 \/ 9 < i -> get_prime i = Err IndexError.
Proof.
  intros Hi. unfold get_prime, getitem. cbn [primes List.length].
  destruct (i - 1 <? 0) eqn:Hneg.
  - apply Z.ltb_lt in Hneg.
    replace (0 <=? i - 1 + Z.of_nat 9) with false by (symmetry; apply Z.leb_gt; lia).
    reflexivity.
  - apply Z.ltb_ge in Hneg.
    replace (i - 1 <? Z.of_nat 9) with false by (symmetry; apply Z.ltb_ge; lia).
    rewrite andb_false_r. reflexivity.
Qed.

(** A zero or slightly negative index is not rejected: Python's list
    indexing counts it from the end of the table. *)
Lemma get_prime_wraps (i : Z) :
  -8 <= i <= 0 -> get_prime i = Ok (nth (Z.to_nat (i + 8)) primes 0).
Proof.
  intros Hi.
  assert (i = 0 \/ i = -1 \/ i = -2 \/ i = -3 \/ i = -4 \/ i = -5 \/ i = -6
          \/ i = -7 \/ i = -8) as Hc by lia.
  repeat (destruct Hc as [-> | Hc]); try subst i; reflexivity.
Qed.

(** C6: the claim asks for an out-of-range error at every index below 1;
    at index 0 the function returns 47, the last prime of the table, and
    at -8 it returns 17, the first.  Only indices above 9 or below -8 are
    rejected. *)
Theorem get_prime_index_zero_not_rejected :
  get_prime 0 = Ok 47 /\ get_prime (-8) = Ok 17
  /\ get_prime 10 = Err IndexError /\ get_prime (-9) = Err IndexError
  /\ get_prime 1 = Ok 17 /\ get_prime 9 = Ok 47.
Proof. repeat split; reflexivity. Qed.

Lemma make_hash_digest (s : string) (hb : nat) (pi p : Z) :
  get_prime pi = Ok p -> make_hash s hb pi = Ok (digest p hb s).
Proof. intros Hp. unfold make_hash. rewrite Hp. reflexivity. Qed.

Lemma compare_hash_digest (a b : string) (hb : nat) (pi p : Z) :
  get_prime pi = Ok p ->
  compare_hash a b hb pi = Ok (digest p hb a =? digest p hb b).
Proof.
  intros Hp. unfold compare_hash.
  rewrite !(make_hash_digest _ _ _ _ Hp). reflexivity.
Qed.

(** ** preprocessing.py *)

Section PreprocessingFacts.
Variables (input_text : string) (search_values : list string).
Variables (hash_bits : nat) (prime_index p : Z).
Hypothesis prime_ok : get_prime prime_index = Ok p.
Variables (substring_length : nat) (n_qubits : Z).

Lemma mark_window_marks (sub : string) (i : nat) (svs vs : list string) :
  mark_window sub i n_qubits svs hash_bits prime_index vs
  = Ok (vs ++ map (fun _ => format_0b (Z.to_nat n_qubits) (N.of_nat i))
                (List.filter (fun t => digest p hash_bits sub =? digest p hash_bits t) svs)).
Proof.
  unfold mark_window. revert vs.
  induction svs as [|t svs IH]; intros vs; cbn [for_each List.filter map].
  - rewrite app_nil_r. reflexivity.
  - rewrite (compare_hash_digest _ _ _ _ _ prime_ok). step_bind.
    destruct (digest p hash_bits sub =? digest p hash_bits t); step_bind.
    + rewrite IH. cbn [map]. rewrite <- app_assoc. reflexivity.
    + rewrite IH. reflexivity.
Qed.

Lemma window_loop (l : list nat) (a : acc) :
  exists tgs,
    for_each l
      (window_step input_text substring_length n_qubits search_values
         hash_bits prime_index) a
    = Ok (mk_acc
            (valid_states a
             ++ flat_map (window_marks input_text search_values hash_bits p
                            substring_length n_qubits) l)
            (substrings a
             ++ map (window_digest input_text hash_bits p substring_length) l)
            tgs).
Proof.
  revert a. induction l as [|i l IH]; intros a; cbn [for_each flat_map map].
  - exists (targets a). rewrite !app_nil_r. destruct a; reflexivity.
  - unfold window_step at 1.
    rewrite (make_hash_digest _ _ _ _ prime_ok). step_bind.
    rewrite mark_window_marks. step_bind.
    edestruct IH as [tgs ->]. cbn [valid_states substrings].
    exists tgs. rewrite <- !app_assoc. reflexivity.
Qed.
End PreprocessingFacts.

(** The result of [classical_preprocessing] whenever the prime index is
    accepted and the text is at least as long as the first target: no
    condition on the other targets. *)
Lemma classical_preprocessing_returns (text first : string)
    (rest : list string) (hb : nat) (pi p : Z) :
  get_prime pi = Ok p ->
  (String.length first <= String.length text)%nat ->
  let L := String.length first in
  let n := len text - Z.of_nat L + 1 in
  let nq := Z.log2_up n in
  exists tgs,
    classical_preprocessing text (first :: rest) hb pi
    = Ok (flat_map (window_marks text (first :: rest) hb p L nq)
            (seq 0 (Z.to_nat n)),
          n, nq,
          map (window_digest text hb p L) (seq 0 (Z.to_nat n)), tgs).
Proof.
  intros Hp Hlen L n nq. unfold classical_preprocessing.
  change (getitem (first :: rest) 0) with (Ok first). rewrite bind_Ok.
  fold L. fold n. unfold compute_n_qubits.
  assert (0 < n) as Hn by (unfold n, len; lia).
  replace (n <=? 0) with false by (symmetry; apply Z.leb_gt; lia).
  rewrite bind_Ok. fold nq.
  destruct (window_loop text (first :: rest) hb pi p Hp L nq
              (seq 0 (Z.to_nat n)) (mk_acc [] [] [])) as [tgs ->].
  exists tgs. reflexivity.
Qed.

Lemma flat_map_length_sum {A B} (f : A -> list B) (l : list A) :
  List.length (flat_map f l) = list_sum (map (fun x => List.length (f x)) l).
Proof.
  induction l as [|x l IH]; [reflexivity|].
  cbn [flat_map map list_sum]. rewrite length_app, IH. reflexivity.
Qed.

(** [valid_states] holds one entry per pair of a window and a target with
    equal digests. *)
Lemma valid_states_counts_pairs (text first : string) (rest : list string)
    (hb : nat) (pi p : Z) :
  get_prime pi = Ok p ->
  (String.length first <= String.length text)%nat ->
  let L := String.length first in
  let n := Z.to_nat (len text - Z.of_nat L + 1) in
  exists vs n_substr nq subs tgs,
    classical_preprocessing text (first :: rest) hb pi
    = Ok (vs, n_substr, nq, subs, tgs)
    /\ List.length vs
       = list_sum (map (fun i => List.length
                                   (window_hits text (first :: rest) hb p L i))
                       (seq 0 n)).
Proof.
  intros Hp Hlen L n.
  destruct (classical_preprocessing_returns text first rest hb pi p Hp Hlen)
    as [tgs Heq].
  do 5 eexists. split; [exact Heq|].
  rewrite flat_map_length_sum. fold L. fold n.
  apply f_equal, map_ext. intros i. unfold window_marks.
  apply length_map.
Qed.

(** With a single target no window can match twice, and the length of
    [valid_states] is the number of matching windows. *)
Lemma valid_states_single_target (text target : string) (hb : nat) (pi p : Z) :
  get_prime pi = Ok p ->
  (String.length target <= String.length text)%nat ->
  let L := String.length target in
  let n := Z.to_nat (len text - Z.of_nat L + 1) in
  exists vs n_substr nq subs tgs,
    classical_preprocessing text [target] hb pi
    = Ok (vs, n_substr, nq, subs, tgs)
    /\ List.length vs = List.length (matching_windows text [target] hb p L n).
Proof.
  intros Hp Hlen L n.
  destruct (valid_states_counts_pairs text target [] hb pi p Hp Hlen)
    as (vs & ns & nq & subs & tgs & Heq & Hl).
  exists vs, ns, nq, subs, tgs. split; [exact Heq|].
  rewrite Hl. fold L. fold n. unfold matching_windows.
  generalize (seq 0 n) as l.
  induction l as [|i l IH]; [reflexivity|].
  unfold window_hits in *. simpl in IH |- *.
  destruct (digest p hb (slice text i L) =? digest p hb target);
    simpl; rewrite IH; reflexivity.
Qed.

(** C2: on the text abc with the targets ab and bb, whose 8-bit digests
    collide, the window at 0 matches both targets and is appended twice:
    [valid_states] has two entries while one window position matches. *)
Theorem valid_states_repeats_window_on_colliding_targets :
  exists subs tgs,
    classical_preprocessing "abc" ["ab"; "bb"] 8 1
    = Ok (["0"; "0"], 2, 1, subs, tgs)
    /\ matching_windows "abc" ["ab"; "bb"] 8 17 2 2 = [0%nat]
    /\ digest 17 8 "ab" = digest 17 8 "bb".
Proof. do 2 eexists. repeat split; vm_compute; reflexivity. Qed.

(** C5, as stated, fails: targets of lengths 2 and 1 are accepted. *)
Lemma mismatched_target_lengths_accepted :
  String.length "ab" <> String.length "c"
  /\ exists r, classical_preprocessing "abc" ["ab"; "c"] 8 1 = Ok r.
Proof. split; [discriminate | eexists; vm_compute; reflexivity]. Qed.

(** C5, amended: no length validation takes place.  The substring length
    is that of the first target; for a prime index of the table and a text
    at least as long as the first target the call returns, with one digest
    per window, whatever the lengths of the other targets. *)
Theorem preprocessing_ignores_other_target_lengths
    (text first : string) (rest : list string) (hb : nat) (pi : Z) :
  1 <= pi <= 9 ->
  (String.length first <= String.length text)%nat ->
  exists vs nq subs tgs,
    classical_preprocessing text (first :: rest) hb pi
    = Ok (vs, len text - len first + 1, nq, subs, tgs)
    /\ Z.of_nat (List.length subs) = len text - len first + 1.
Proof.
  intros Hpi Hlen.
  destruct (classical_preprocessing_returns text first rest hb pi _
              (get_prime_table pi Hpi) Hlen) as [tgs Heq].
  do 4 eexists. split; [exact Heq|].
  rewrite length_map, length_seq. unfold len. lia.
Qed.

Lemma preprocessing_ignores_other_target_lengths_witness :
  exists vs nq subs tgs,
    classical_preprocessing "abc" ["ab"; "c"] 8 1
    = Ok (vs, len "abc" - len "ab" + 1, nq, subs, tgs)
    /\ Z.of_nat (List.length subs) = len "abc" - len "ab" + 1.
Proof.
  apply (preprocessing_ignores_other_target_lengths "abc" "ab" ["c"] 8 1).
  - lia.
  - simpl. lia.
Defined.

(** ** circuits.py: the Grover operator *)

Lemma rewire_range (n : nat) (g : gate nat) : rewire (seq 0 n) g = g.
Proof.
  assert (forall j, nth j (seq 0 n) j = j) as Hw.
  { intros j. destruct (Nat.lt_ge_cases j n) as [Hlt|Hge].
    - rewrite seq_nth by exact Hlt. reflexivity.
    - apply nth_overflow. rewrite length_seq. exact Hge. }
  destruct g as [q|q|cs t]; cbn [rewire]; rewrite ?Hw; try reflexivity.
  f_equal. induction cs as [|c cs IH]; [reflexivity|].
  cbn [map]. rewrite Hw, IH. reflexivity.
Qed.

(** One pass through the loop of [grover_basic_search_circuit] applies the
    oracle's gates and then the diffuser's. *)
Lemma grover_iteration_sequence (n : nat) (oracle diff_op : circuit nat) :
  gate_sequence (grover_iteration n oracle diff_op []) = oracle ++ diff_op.
Proof.
  unfold grover_iteration, gate_sequence. cbn [app flat_map].
  rewrite app_nil_r.
  rewrite !(map_ext _ id (rewire_range n)), !map_id. reflexivity.
Qed.

(** [grover_operator] holds the diffuser's gates and then the oracle's. *)
Lemma grover_operator_sequence (n : nat) (vs : list string)
    (oracle diff_op : circuit nat) :
  create_hashed_oracle n vs = Ok oracle ->
  diffuser n = Ok diff_op ->
  grover_operator n vs = Ok (diff_op ++ oracle).
Proof. intros Ho Hd. unfold grover_operator. rewrite Ho, Hd. reflexivity. Qed.

(** C1: on two qubits with the marked state 11, the operator built by
    [grover_operator] starts with the diffuser (its first gate is the
    diffuser's Hadamard on qubit 0) and ends with the oracle, while the
    loop body of [grover_basic_search_circuit] applies the oracle first;
    the two gate sequences differ. *)
Theorem grover_operator_runs_diffuser_before_oracle :
  exists oracle diff_op,
    create_hashed_oracle 2 ["11"] = Ok oracle
    /\ diffuser 2 = Ok diff_op
    /\ grover_operator 2 ["11"] = Ok (diff_op ++ oracle)
    /\ gate_sequence (grover_iteration 2 oracle diff_op []) = oracle ++ diff_op
    /\ diff_op ++ oracle <> oracle ++ diff_op
    /\ head (diff_op ++ oracle) = Some (Hgate 0%nat)
    /\ head (oracle ++ diff_op) = Some (Hgate 1%nat).
Proof.
  do 2 eexists.
  split; [vm_compute; reflexivity|].
  split; [vm_compute; reflexivity|].
  split; [vm_compute; reflexivity|].
  split; [apply grover_iteration_sequence|].
  split; [discriminate|].
  split; reflexivity.
Qed.

(** ** circuits.py: loading and unloading the array *)

Section Emit.
Context {Q A : Type}.
Variable body : A -> circuit Q -> result (circuit Q).
Variable blk : A -> result (circuit Q).
Hypothesis body_emits : forall x, emits (body x) (blk x).

Lemma for_each_emitted (xs : list A) (qc qc' : circuit Q) :
  for_each xs body qc = Ok qc' ->
  exists gs, Forall2 (fun x g => blk x = Ok g) xs gs /\ qc' = qc ++ concat gs.
Proof.
  revert qc. induction xs as [|x xs IH]; intros qc H; cbn [for_each] in H.
  - injection H as <-. exists []. split; [constructor|].
    cbn. rewrite app_nil_r. reflexivity.
  - rewrite body_emits in H. destruct (blk x) as [g|e] eqn:Hx; [|discriminate].
    step_bind. cbn [Py.bind] in H. apply IH in H as (gs & Hgs & ->).
    exists (g :: gs). split; [constructor; assumption|].
    cbn [concat]. rewrite app_assoc. reflexivity.
Qed.

Lemma for_each_emit (xs : list A) (gs : list (circuit Q)) (qc : circuit Q) :
  Forall2 (fun x g => blk x = Ok g) xs gs ->
  for_each xs body qc = Ok (qc ++ concat gs).
Proof.
  intros H. revert qc.
  induction H as [|x g xs gs Hx _ IH]; intros qc; cbn [for_each concat].
  - rewrite app_nil_r. reflexivity.
  - rewrite body_emits, Hx. step_bind. rewrite IH, app_assoc. reflexivity.
Qed.

Lemma for_each_emits (xs : list A) :
  emits (for_each xs body) (for_each xs body []).
Proof.
  intros qc. destruct (for_each xs body []) as [g|e] eqn:H0.
  - apply for_each_emitted in H0 as (gs & Hgs & ->).
    rewrite (for_each_emit _ _ _ Hgs). reflexivity.
  - destruct (for_each xs body qc) as [qc'|e'] eqn:H1.
    + apply for_each_emitted in H1 as (gs & Hgs & _).
      rewrite (for_each_emit _ _ _ Hgs) in H0. discriminate.
    + step_bind. f_equal.
      clear -H0 H1 body_emits. revert qc H0 H1.
      generalize (@nil (gate Q)) as q0.
      induction xs as [|x xs IH]; intros q0 qc H0 H1; [discriminate|].
      cbn [for_each] in H0, H1. rewrite body_emits in H0, H1.
      destruct (blk x) as [g|ex]; cbn [Py.bind mbind result_bind] in H0, H1.
      * eapply IH; eassumption.
      * congruence.
Qed.
End Emit.

Lemma for_each_flat_map {A B S} (f : A -> list B) (xs : list A)
    (body : B -> S -> result S) (s : S) :
  for_each (flat_map f xs) body s
  = for_each xs (fun x => for_each (f x) body) s.
Proof.
  revert s. induction xs as [|x xs IH]; intros s; [reflexivity|].
  cbn [flat_map for_each]. rewrite for_each_app.
  destruct (for_each (f x) body s); [apply IH | reflexivity].
Qed.

Lemma for_each_map {A B S} (f : A -> B) (xs : list A)
    (body : B -> S -> result S) (s : S) :
  for_each (map f xs) body s = for_each xs (fun x => body (f x)) s.
Proof.
  revert s. induction xs as [|x xs IH]; intros s; [reflexivity|].
  cbn [map for_each]. destruct (body (f x) s); [apply IH | reflexivity].
Qed.

Lemma rev_flat_map {A B} (f : A -> list B) (xs : list A) :
  rev (flat_map f xs) = flat_map (fun x => rev (f x)) (rev xs).
Proof.
  induction xs as [|x xs IH]; [reflexivity|].
  cbn [flat_map rev]. rewrite rev_app_distr, IH, flat_map_app.
  cbn [flat_map]. rewrite app_nil_r. reflexivity.
Qed.

Lemma load_array_items (num_idx num_val : nat) (array : list string)
    (qc : circuit qubit) :
  load_array num_idx num_val array qc
  = for_each (load_items array) (item_body num_idx num_val) qc.
Proof.
  unfold load_array, load_items. rewrite for_each_flat_map.
  generalize (enumerate array) as l. intros l. revert qc.
  induction l as [|[i v] l IH]; intros qc; [reflexivity|].
  cbn [for_each fst snd]. rewrite for_each_map. unfold item_body at 1.
  cbn [fst snd].
  destruct (for_each _ _ qc); [apply IH | reflexivity].
Qed.

Lemma unload_array_items (num_idx num_val : nat) (array : list string)
    (qc : circuit qubit) :
  unload_array num_idx num_val array qc
  = for_each (rev (load_items array)) (item_body num_idx num_val) qc.
Proof.
  unfold unload_array, load_items. rewrite rev_flat_map, for_each_flat_map.
  generalize (rev (enumerate array)) as l. intros l. revert qc.
  induction l as [|[i v] l IH]; intros qc; [reflexivity|].
  cbn [for_each fst snd]. rewrite <- map_rev, for_each_map.
  unfold item_body at 1. cbn [fst snd].
  destruct (for_each _ _ qc); [apply IH | reflexivity].
Qed.

Lemma flip_index_zeros_emits (num_idx : nat) (index_bin : string) :
  emits (flip_index_zeros num_idx index_bin)
        (index_flip_gates num_idx index_bin).
Proof.
  unfold flip_index_zeros, index_flip_gates.
  apply for_each_emits with (blk := flip_gate num_idx).
  intros [k b] qc. unfold flip_gate. cbn [fst snd].
  destruct (Ascii.eqb b "0").
  - destruct (reg_item num_idx k); reflexivity.
  - step_bind. rewrite app_nil_r. reflexivity.
Qed.

Lemma item_body_emits (num_idx num_val : nat) (it : nat * (nat * ascii)) :
  emits (item_body num_idx num_val it) (block num_idx num_val it).
Proof.
  destruct it as [i [v b]]. intros qc.
  unfold item_body, block, load_bit. cbn [fst snd].
  destruct (Ascii.eqb b "1").
  - rewrite (flip_index_zeros_emits num_idx _ qc).
    destruct (index_flip_gates num_idx _) as [xs|e] eqn:Hxs; [|reflexivity].
    step_bind. destruct (reg_item num_val v) as [t|e]; [|reflexivity].
    step_bind. rewrite flip_index_zeros_emits, Hxs.
    step_bind. rewrite <- !app_assoc. reflexivity.
  - step_bind. rewrite app_nil_r. reflexivity.
Qed.

(** *** Shape of the blocks *)



(** *** Action on basis states *)

Lemma run_app (a b : circuit qubit) (st : basis) :
  run (a ++ b) st = match run a st with
                    | Some st' => run b st'
                    | None => None
                    end.
Proof.
  revert st. induction a as [|g a IH]; intros st; [reflexivity|].
  cbn [app run]. destruct (step g st); [apply IH | reflexivity].
Qed.


Lemma alter_negb_comm (j k : nat) (l : list bool) :
  alter negb j (alter negb k l) = alter negb k (alter negb j l).
Proof.
  destruct (decide (j = k)) as [->|Hne]; [reflexivity|].
  apply list_alter_alter_ne. exact Hne.
Qed.





Lemma Forall2_reversed {A B} (P : A -> B -> Prop) (xs : list A) (ys : list B) :
  Forall2 P xs ys -> Forall2 P (rev xs) (rev ys).
Proof.
  induction 1 as [|x y xs ys Hxy _ IH]; [constructor|].
  cbn [rev]. apply Forall2_app; [exact IH | repeat constructor; exact Hxy].
Qed.




(** ** adaptive_search.py: the iteration count *)

Lemma binary_round_aux_nonneg (m e : Z) (l : location) :
  sf_nonneg (binary_round_aux prec emax false m e l) = true.
Proof.
  unfold binary_round_aux.
  destruct (shr_fexp prec emax m e l) as [mrs e'].
  destruct (shr_fexp prec emax _ e' loc_Exact) as [mrs' e''].
  destruct (shr_m mrs'); [reflexivity| |reflexivity].
  destruct (e'' <=? emax - prec); reflexivity.
Qed.

Lemma binary_round_nonneg (m : positive) (e : Z) :
  sf_nonneg (binary_round prec emax false m e) = true.
Proof.
  unfold binary_round.
  destruct (shl_align m e _) as [mz ez]. apply binary_round_aux_nonneg.
Qed.

Lemma binary_normalize_nonneg (z e : Z) :
  0 <= z -> sf_nonneg (binary_normalize prec emax z e false) = true.
Proof.
  intros Hz. destruct z as [|p|p]; [reflexivity | apply binary_round_nonneg | lia].
Qed.

Lemma SFldexp_nonneg (x : spec_float) (e : Z) :
  sf_nonneg x = true -> sf_nonneg (SFldexp prec emax x e) = true.
Proof.
  destruct x as [s|s| |s m ex]; cbn [SFldexp]; try (intros H; exact H).
  destruct s; [discriminate|]. intros _. apply binary_round_nonneg.
Qed.

Lemma float_of_int_nonneg (z : Z) (f : float) :
  0 <= z -> float_of_int z = Ok f -> sf_nonneg (Prim2SF f) = true.
Proof.
  intros Hz. unfold float_of_int.
  pose proof (binary_normalize_nonneg z 0 Hz) as Hn.
  destruct (binary_normalize prec emax z 0 false) as [s|s| |s m e];
    cbn [sf_nonneg] in Hn.
  - destruct s; [discriminate|]. intros H. injection H as <-. reflexivity.
  - discriminate.
  - intros H. injection H as <-. reflexivity.
  - destruct s; [discriminate|]. intros H. injection H as <-.
    cbn [SF2Prim]. unfold Z.ldexp. rewrite ldshiftexp_spec.
    apply SFldexp_nonneg. rewrite of_uint63_spec.
    apply binary_normalize_nonneg.
    apply Uint63.to_Z_bounded.
Qed.


Lemma Prim2SF_zero : Prim2SF 0 = S754_zero false.
Proof. vm_compute. reflexivity. Qed.


Lemma SFdiv_nonneg (x y : spec_float) :
  sf_nonneg x = true -> sf_nonneg y = true ->
  sf_nonneg (SFdiv prec emax x y) = true.
Proof.
  destruct x as [sx|sx| |sx mx ex], y as [sy|sy| |sy my ey];
    cbn [sf_nonneg SFdiv]; try reflexivity;
    try (destruct sx; [discriminate|]); try (destruct sy; [discriminate|]);
    intros _ _; try reflexivity.
  destruct (SFdiv_core_binary prec emax (Z.pos mx) ex (Z.pos my) ey)
    as [[mz ez] lz].
  apply binary_round_aux_nonneg.
Qed.


(** Whenever preprocessing returns, there is at least one window. *)
Lemma preprocessing_n_substr_positive (text : string) (svs : list string)
    (hb : nat) (pi : Z) vs n nq subs tgs :
  classical_preprocessing text svs hb pi = Ok (vs, n, nq, subs, tgs) ->
  1 <= n.
Proof.
  unfold classical_preprocessing. intros H.
  ok_inv H. unfold compute_n_qubits in H.
  destruct (_ <=? 0) eqn:Hle; [discriminate|].
  apply Z.leb_gt in Hle. step_bind.
  cbn [Py.bind mbind result_bind] in H.
  destruct (for_each _ _ _) as [acc|e]; [|discriminate].
  cbn [Py.bind] in H. injection H as _ <- _ _ _. lia.
Qed.



(** ** adaptive_search.py: validation of the search outcomes *)

Lemma bit_of_bit (c : ascii) : is_bit c = true -> bit_of c = Ok (bit_val c).
Proof.
  unfold is_bit, bit_of, bit_val. destruct (Ascii.eqb c "0") eqn:H0.
  - apply Ascii.eqb_eq in H0. subst c. reflexivity.
  - cbn [orb]. intros ->. reflexivity.
Qed.

Lemma parse_bits (cs : list ascii) (acc : Z) :
  forallb is_bit cs = true ->
  for_each cs (fun c acc => Py.bind (bit_of c) (fun b => Ok (2 * acc + b))) acc
  = Ok (fold_left (fun acc c => 2 * acc + bit_val c) cs acc).
Proof.
  revert acc. induction cs as [|c cs IH]; intros acc H; [reflexivity|].
  cbn [forallb] in H. apply andb_true_iff in H as [Hc Hcs].
  cbn [for_each fold_left]. rewrite (bit_of_bit c Hc). cbn [Py.bind].
  apply IH. exact Hcs.
Qed.

Lemma chars_nonempty (s : string) :
  negb (String.eqb s "") = true -> chars s <> [].
Proof. destruct s; [discriminate | cbn; discriminate]. Qed.

Lemma int_base2_bitstring (s : string) :
  is_bitstring s = true -> int_base2 s = Ok (big_endian_value s).
Proof.
  unfold is_bitstring, int_base2, big_endian_value.
  intros H. apply andb_true_iff in H as [Hne Hbits].
  apply chars_nonempty in Hne.
  destruct (chars s) as [|c cs] eqn:Hcs; [congruence|].
  apply parse_bits. exact Hbits.
Qed.

Lemma chars_reversed (s : string) : chars (reversed_str s) = rev (chars s).
Proof. unfold reversed_str, chars. apply list_ascii_of_string_of_list_ascii. Qed.

(** Converting the reversed outcome reads the outcome with its first
    character least significant. *)
Lemma int_base2_reversed (s : string) :
  is_bitstring s = true ->
  int_base2 (reversed_str s) = Ok (little_endian_value s).
Proof.
  unfold is_bitstring, int_base2, little_endian_value.
  intros H. apply andb_true_iff in H as [Hne Hbits].
  apply chars_nonempty in Hne. rewrite chars_reversed.
  destruct (rev (chars s)) as [|c cs] eqn:Hrev.
  - apply (f_equal (@rev ascii)) in Hrev. rewrite rev_involutive in Hrev.
    contradiction.
  - rewrite <- Hrev at 1. rewrite parse_bits.
    + rewrite Hrev, <- (rev_involutive (chars s)), fold_left_rev_right.
      rewrite Hrev. reflexivity.
    + rewrite forallb_forall in *. intros x Hx. apply Hbits.
      apply in_rev. exact Hx.
Qed.

Lemma valid_index_set_members (vs : list string) (acc : gset Z) :
  forallb is_bitstring vs = true ->
  exists S : gset Z,
    for_each vs (fun bs acc => k ← int_base2 bs; Ok ({[ k ]} ∪ acc)) acc = Ok S
    /\ forall k, k ∈ S <-> k ∈ acc \/ In k (map big_endian_value vs).
Proof.
  revert acc. induction vs as [|bs vs IH]; intros acc H.
  - exists acc. split; [reflexivity|]. cbn. tauto.
  - cbn [forallb] in H. apply andb_true_iff in H as [Hbs Hvs].
    cbn [for_each]. rewrite (int_base2_bitstring bs Hbs). step_bind.
    destruct (IH ({[ big_endian_value bs ]} ∪ acc) Hvs) as (S & -> & HS).
    exists S. split; [reflexivity|].
    intros k. rewrite HS, elem_of_union, elem_of_singleton. cbn [map In].
    intuition congruence.
Qed.

Lemma count_valid_shots_sum (vs : list string) (S : gset Z) (c : counts)
    (acc : Z) :
  (forall k, k ∈ S <-> In k (map big_endian_value vs)) ->
  forallb (fun kv => is_bitstring (fst kv)) c = true ->
  for_each c
    (fun '(outcome, count) acc =>
       k ← int_base2 (reversed_str outcome);
       Ok (if bool_decide (k ∈ S) then acc + count else acc))
    acc
  = Ok (acc + valid_shots_of vs c).
Proof.
  intros HS. revert acc. induction c as [|[outcome count] c IH]; intros acc H.
  - cbn. f_equal. lia.
  - cbn [forallb fst] in H. apply andb_true_iff in H as [Ho Hc].
    cbn [for_each]. rewrite (int_base2_reversed outcome Ho). step_bind.
    unfold valid_shots_of. cbn [List.filter fst].
    assert (bool_decide (little_endian_value outcome ∈ S)
            = hits_valid_index vs outcome) as ->.
    { unfold hits_valid_index. apply eq_true_iff_eq.
      rewrite bool_decide_eq_true, HS, existsb_exists, in_map_iff.
      split; intros (bs & H1 & H2); exists bs.
      - split; [exact H2 | apply Z.eqb_eq; exact H1].
      - split; [apply Z.eqb_eq; exact H2 | exact H1]. }
    destruct (hits_valid_index vs outcome); rewrite IH by exact Hc;
      cbn [map snd fold_right]; unfold valid_shots_of; f_equal; lia.
Qed.

Lemma sum_values_from (c : counts) (acc : Z) :
  fold_left (fun acc kv => acc + snd kv) c acc
  = acc + fold_right Z.add 0 (map snd c).
Proof.
  revert acc. induction c as [|kv c IH]; intros acc; cbn; [lia|].
  rewrite IH. lia.
Qed.

Lemma sum_values_nonneg (c : counts) :
  forallb (fun kv => 0 <=? snd kv) c = true -> 0 <= sum_values c.
Proof.
  unfold sum_values. rewrite sum_values_from.
  induction c as [|kv c IH]; cbn; [lia|].
  intros H. apply andb_true_iff in H as [Hk Hc].
  apply Z.leb_le in Hk. specialize (IH Hc). lia.
Qed.

(** The value [validate] returns on well-formed input. *)
Lemma validate_value (valid_states : list string) (c : counts) :
  forallb is_bitstring valid_states = true ->
  forallb (fun kv => is_bitstring (fst kv)) c = true ->
  forallb (fun kv => 0 <=? snd kv) c = true ->
  validate valid_states c
  = (if sum_values c =? 0 then Ok 1%float
     else int_truediv (valid_shots_of valid_states c) (sum_values c)).
Proof.
  intros Hvs Hkeys Hpos. unfold validate, valid_index_set.
  destruct (valid_index_set_members valid_states ∅ Hvs) as (S & -> & HS).
  step_bind. unfold count_valid_shots.
  rewrite (count_valid_shots_sum valid_states S c 0).
  - step_bind. rewrite Z.add_0_l.
    pose proof (sum_values_nonneg c Hpos) as Hn.
    destruct (sum_values c =? 0) eqn:Hz.
    + apply Z.eqb_eq in Hz. rewrite Hz. reflexivity.
    + apply Z.eqb_neq in Hz.
      replace (0 <? sum_values c) with true
        by (symmetry; apply Z.ltb_lt; lia).
      reflexivity.
  - intros k. rewrite HS. split; [intros [H|H]|intros H].
    + exfalso. revert H. apply not_elem_of_empty.
    + exact H.
    + right. exact H.
  - exact Hkeys.
Qed.



(** On the histogram of the witness the outcomes 001 and 110 are the valid
    ones (indices 4 and 3), 7 shots of 10; an empty histogram gives 1.0. *)
Example validate_sample :
  validate ["100"; "011"] [("001", 5); ("100", 3); ("110", 2)]
  = int_truediv 7 10
  /\ validate ["100"; "011"] [] = Ok 1%float.
Proof. split; vm_compute; reflexivity. Qed.

(** ** metrics.py and adaptive_search.py: an empty counting histogram *)

Section EmptyCounting.
Variable math_sin : float -> result float.
Variable math_asin : float -> result float.
Variable float_pow : float -> float -> result float.
Variable float_sum : list float -> float.
Variable run_counting :
  Z -> nat -> list string -> config -> result run_stats.
Variable run_grover_search :
  Z -> list string -> Z -> config -> list string -> list string ->
  result run_stats.

Lemma estimate_empty (p_count : nat) (n_substr : Z) :
  estimate_marked_state_count math_sin float_pow [] p_count n_substr
  = Err ValueError.
Proof. reflexivity. Qed.

Lemma statistics_empty :
  compute_statistics float_pow float_sum [] = Err ZeroDivisionError.
Proof. reflexivity. Qed.

Lemma run_full_search_empty_counting (text : string) (svs : list string)
    (cfg : config) vs n nq subs tgs (st : run_stats) :
  classical_preprocessing text svs (hash_bits cfg) (prime_index cfg)
  = Ok (vs, n, nq, subs, tgs) ->
  run_counting nq (p_count cfg) vs cfg = Ok st ->
  rs_counts st = [] ->
  run_full_search math_sin math_asin float_pow float_sum run_counting
    run_grover_search text svs cfg
  = Err ValueError.
Proof.
  intros Hpre Hcnt Hempty. unfold run_full_search.
  rewrite Hpre. step_bind. rewrite Hcnt. step_bind.
  rewrite Hempty. reflexivity.
Qed.
End EmptyCounting.

(** C10: on an empty histogram [estimate_marked_state_count] raises (the
    maximum of an empty mapping) and [compute_statistics] raises (division
    by a zero shot total); a run whose counting stage returns no outcomes
    ends in the estimator's error, although an empty search histogram is
    accepted by the validation stage. *)
Theorem empty_counting_histogram_raises
    (math_sin math_asin : float -> result float)
    (float_pow : float -> float -> result float)
    (float_sum : list float -> float)
    (run_counting : Z -> nat -> list string -> config -> result run_stats)
    (run_grover_search :
       Z -> list string -> Z -> config -> list string -> list string ->
       result run_stats) :
  (forall p_count n_substr,
     estimate_marked_state_count math_sin float_pow [] p_count n_substr
     = Err ValueError)
  /\ compute_statistics float_pow float_sum [] = Err ZeroDivisionError
  /\ (forall text svs cfg vs n nq subs tgs st,
        classical_preprocessing text svs (hash_bits cfg) (prime_index cfg)
        = Ok (vs, n, nq, subs, tgs) ->
        run_counting nq (p_count cfg) vs cfg = Ok st ->
        rs_counts st = [] ->
        run_full_search math_sin math_asin float_pow float_sum run_counting
          run_grover_search text svs cfg
        = Err ValueError)
  /\ (forall vs, forallb is_bitstring vs = true -> validate vs [] = Ok 1%float).
Proof.
  split; [apply estimate_empty|].
  split; [apply statistics_empty|].
  split; [apply run_full_search_empty_counting|].
  intros vs Hvs. rewrite (validate_value vs [] Hvs eq_refl eq_refl).
  reflexivity.
Qed.

Lemma empty_counting_histogram_raises_witness :
  run_full_search (fun a => Ok a) (fun a => Ok a) (fun a _ => Ok a)
    (fun _ => 0%float)
    (fun _ _ _ _ => Ok (mk_stats [] 0 0 0%float))
    (fun _ _ _ _ _ _ => Ok (mk_stats [] 0 0 0%float))
    "abc" ["ab"] (mk_config 8 1 4 false 1024 true true)
  = Err ValueError
  /\ validate ["0"] [] = Ok 1%float.
Proof.
  destruct (empty_counting_histogram_raises (fun a => Ok a) (fun a => Ok a)
              (fun a _ => Ok a) (fun _ => 0%float)
              (fun _ _ _ _ => Ok (mk_stats [] 0 0 0%float))
              (fun _ _ _ _ _ _ => Ok (mk_stats [] 0 0 0%float)))
    as (_ & _ & Hrun & Hval).
  split.
  - eapply (Hrun "abc" ["ab"] (mk_config 8 1 4 false 1024 true true)).
    + vm_compute. reflexivity.
    + reflexivity.
    + reflexivity.
  - apply Hval. reflexivity.
Defined.

(** ** utils.py: the text generator *)

Section SliceAssignment.
Context {A : Type}.
Variables (xs v : list A) (p m : Z).
Hypothesis p_nonneg : 0 <= p.
Hypothesis v_length : Z.of_nat (List.length v) = m.
Hypothesis in_range : p + m <= Z.of_nat (List.length xs).

Lemma set_slice_length :
  List.length (set_slice xs p m v) = List.length xs.
Proof.
  unfold set_slice. rewrite !length_app, length_take, length_drop. lia.
Qed.

Lemma set_slice_lookup_in (j : nat) :
  (j < List.length v)%nat ->
  set_slice xs p m v !! (Z.to_nat p + j)%nat = v !! j.
Proof.
  intros Hj. unfold set_slice.
  rewrite lookup_app_r by (rewrite length_take; lia).
  rewrite length_take.
  replace (Z.to_nat p + j - Z.to_nat p `min` List.length xs)%nat with j by lia.
  apply lookup_app_l. exact Hj.
Qed.

Lemma set_slice_lookup_out (k : nat) :
  Z.of_nat k < p \/ p + m <= Z.of_nat k ->
  set_slice xs p m v !! k = xs !! k.
Proof.
  intros Hk. unfold set_slice. destruct Hk as [Hlt|Hge].
  - rewrite lookup_app_l by (rewrite length_take; lia).
    apply lookup_take_lt. lia.
  - rewrite lookup_app_r by (rewrite length_take; lia).
    rewrite lookup_app_r by (rewrite length_take; lia).
    rewrite lookup_drop, length_take. f_equal. lia.
Qed.
End SliceAssignment.

Section WriteLoop.
Variables (sel : list Z) (L : Z).

(** The loop completes as soon as every target has a drawn position. *)
Lemma write_loop_completes (items : list (nat * string)) (base : list ascii) :
  Forall (fun it => exists p, getitem sel (Z.of_nat (fst it)) = Ok p) items ->
  exists base', write_loop sel L items base = Ok base'.
Proof.
  revert base. induction items as [|[i sv] items IH]; intros base H.
  - exists base. reflexivity.
  - apply Forall_cons in H as [[p Hp] H]. cbn [fst] in Hp.
    unfold write_loop. cbn [for_each]. rewrite Hp. step_bind.
    apply IH. exact H.
Qed.

Lemma write_loop_runs (items : list (nat * string)) (base : list ascii) :
  Forall (item_fits sel L (List.length base)) items ->
  exists base',
    write_loop sel L items base = Ok base'
    /\ List.length base' = List.length base
    /\ forall k, Forall (item_misses sel L k) items -> base' !! k = base !! k.
Proof.
  revert base. induction items as [|[i sv] items IH]; intros base Hfit.
  - exists base. repeat split; reflexivity.
  - apply Forall_cons in Hfit as [(p & Hp & Hp0 & Hpn & Hsv) Hfit].
    cbn [fst snd] in Hp, Hsv.
    unfold write_loop. cbn [for_each]. rewrite Hp. step_bind.
    pose proof (set_slice_length base (chars sv) p L Hp0 Hsv Hpn) as Hlen.
    destruct (IH (set_slice base p L (chars sv))) as (base' & Hrun & Hl & Hout).
    { rewrite Hlen. exact Hfit. }
    exists base'. split; [exact Hrun|]. split; [congruence|].
    intros k Hk. apply Forall_cons in Hk as [Hk0 Hk].
    rewrite (Hout k Hk).
    apply set_slice_lookup_out; try assumption.
    apply Hk0. exact Hp.
Qed.

Lemma write_loop_keeps (pre post : list (nat * string)) (i : nat)
    (sv : string) (p : Z) (base base' : list ascii) :
  Forall (item_fits sel L (List.length base)) (pre ++ (i, sv) :: post) ->
  write_loop sel L (pre ++ (i, sv) :: post) base = Ok base' ->
  getitem sel (Z.of_nat i) = Ok p ->
  (forall j, (j < List.length (chars sv))%nat ->
             Forall (item_misses sel L (Z.to_nat p + j)) post) ->
  List.length base' = List.length base
  /\ forall j, (j < List.length (chars sv))%nat ->
               base' !! (Z.to_nat p + j)%nat = chars sv !! j.
Proof.
  intros Hfit Hrun Hp Hpost.
  apply Forall_app in Hfit as [Hpre Hrest].
  apply Forall_cons in Hrest as [(p' & Hp' & Hp0 & Hpn & Hsv) Hfit].
  cbn [fst snd] in Hp', Hsv. rewrite Hp in Hp'. injection Hp' as <-.
  unfold write_loop in Hrun. rewrite for_each_app in Hrun.
  destruct (write_loop_runs pre base Hpre) as (b1 & Hb1 & Hl1 & _).
  unfold write_loop in Hb1. rewrite Hb1 in Hrun. step_bind.
  cbn [for_each Py.bind mbind result_bind] in Hrun.
  rewrite Hp in Hrun. cbn [Py.bind mbind result_bind] in Hrun.
  rewrite <- Hl1 in Hpn, Hfit.
  pose proof (set_slice_length b1 (chars sv) p L Hp0 Hsv Hpn) as Hlen.
  destruct (write_loop_runs post (set_slice b1 p L (chars sv)))
    as (b2 & Hb2 & Hl2 & Hout).
  { rewrite Hlen. exact Hfit. }
  unfold write_loop in Hb2. rewrite Hb2 in Hrun. injection Hrun as <-.
  split; [congruence|].
  intros j Hj. rewrite (Hout _ (Hpost j Hj)).
  apply set_slice_lookup_in; assumption.
Qed.
End WriteLoop.

Lemma getitem_lookup {A} (l : list A) (i : nat) (x : A) :
  l !! i = Some x -> getitem l (Z.of_nat i) = Ok x.
Proof.
  intros H. unfold getitem.
  pose proof (lookup_lt_Some _ _ _ H) as Hlt.
  replace (Z.of_nat i <? 0) with false by (symmetry; apply Z.ltb_ge; lia).
  replace (0 <=? Z.of_nat i) with true by (symmetry; apply Z.leb_le; lia).
  replace (Z.of_nat i <? Z.of_nat (List.length l)) with true
    by (symmetry; apply Z.ltb_lt; lia).
  cbn [andb]. rewrite Nat2Z.id.
  replace (nth_error l i) with (Some x); [reflexivity|].
  clear Hlt. revert i H. induction l as [|a l IH]; intros [|i] H;
    try discriminate; cbn in *; [congruence | apply IH; exact H].
Qed.

Lemma enumerate_lookup {A} (l : list A) (a k i : nat) (x : A) :
  combine (seq a (List.length l)) l !! k = Some (i, x) ->
  i = (a + k)%nat /\ l !! k = Some x.
Proof.
  revert a k. induction l as [|y l IH]; intros a k H; [destruct k; discriminate|].
  cbn [List.length seq combine] in H. destruct k as [|k].
  - cbn in H. injection H as <- <-. split; [lia | reflexivity].
  - cbn in H. apply IH in H as [-> H]. split; [lia | exact H].
Qed.

Lemma lookup_enumerate {A} (l : list A) (a k : nat) (x : A) :
  l !! k = Some x ->
  combine (seq a (List.length l)) l !! k = Some ((a + k)%nat, x).
Proof.
  revert a k. induction l as [|y l IH]; intros a k H; [destruct k; discriminate|].
  cbn [List.length seq combine]. destruct k as [|k].
  - cbn in *. injection H as <-. f_equal. f_equal. lia.
  - change ((y :: l) !! S k) with (l !! k) in H.
    change (((a, y) :: combine (seq (S a) (List.length l)) l) !! S k)
      with (combine (seq (S a) (List.length l)) l !! k).
    rewrite (IH (S a) k H). f_equal. f_equal. lia.
Qed.

Lemma chars_substring (s : string) (n m : nat) :
  chars (substring n m s) = take m (drop n (chars s)).
Proof.
  revert n m. induction s as [|c s IH]; intros n m.
  - destruct n, m; reflexivity.
  - destruct n as [|n].
    + destruct m as [|m]; [reflexivity|].
      cbn. f_equal. apply (IH 0%nat m).
    + cbn. apply IH.
Qed.

Lemma chars_inj (a b : string) : chars a = chars b -> a = b.
Proof.
  intros H. rewrite <- (string_of_list_ascii_of_string a),
    <- (string_of_list_ascii_of_string b).
  unfold chars in H. rewrite H. reflexivity.
Qed.

Lemma chars_length (s : string) : List.length (chars s) = String.length s.
Proof.
  unfold chars. induction s as [|c s IH]; [reflexivity|].
  cbn [list_ascii_of_string List.length String.length]. f_equal. exact IH.
Qed.

(** The slots: the multiples of the target length that leave room for a
    whole target. *)
Lemma range_step_length (il L : Z) :
  0 < L ->
  List.length (range_step (il - L + 1) L) = Z.to_nat (il / L).
Proof.
  intros HL. unfold range_step. rewrite length_map, length_seq.
  f_equal. replace (il - L + 1 + L - 1) with il by lia. reflexivity.
Qed.

Lemma in_range_step (il L p : Z) :
  0 < L ->
  In p (range_step (il - L + 1) L) ->
  exists j, 0 <= j < il / L /\ p = j * L.
Proof.
  intros HL H. unfold range_step in H. apply in_map_iff in H as (j & <- & Hj).
  apply in_seq in Hj. replace (il - L + 1 + L - 1) with il in Hj by lia.
  exists (Z.of_nat j). split; [|reflexivity].
  generalize dependent (il / L). intros q Hq. lia.
Qed.

Lemma str_repeat_length (s : string) (k : Z) :
  List.length (str_repeat s k) = (String.length s * Z.to_nat k)%nat.
Proof.
  unfold str_repeat. induction (Z.to_nat k) as [|n IH]; cbn [repeat List.concat].
  - cbn [List.length]. lia.
  - rewrite length_app, IH, chars_length. lia.
Qed.

(** With targets of at most three characters the filler is long enough. *)
Lemma base_text_length (il L : Z) :
  1 <= L <= 3 -> 0 <= il ->
  Z.of_nat (List.length (slice_to (str_repeat "xxx" (il / L + 1)) il)) = il.
Proof.
  intros HL Hil. unfold slice_to.
  replace (il <? 0) with false by (symmetry; apply Z.ltb_ge; lia).
  rewrite length_take, str_repeat_length. cbn [String.length].
  pose proof (Z.div_pos il L Hil ltac:(lia)) as Hq.
  pose proof (Z.mul_succ_div_gt il L ltac:(lia)) as Hgt.
  generalize dependent (il / L). intros q Hq Hgt. nia.
Qed.

Lemma sample_outcome_unpack (slots : list Z) (n : nat) (sel : list Z) :
  sample_outcome slots n sel = true ->
  List.length sel = n /\ NoDup sel /\ forall p, In p sel -> In p slots.
Proof.
  unfold sample_outcome. intros H.
  apply andb_true_iff in H as [H Hin]. apply andb_true_iff in H as [Hlen Hnd].
  split; [apply Nat.eqb_eq; exact Hlen|].
  split; [apply bool_decide_eq_true in Hnd; exact Hnd|].
  intros p Hp. rewrite forallb_forall in Hin.
  specialize (Hin p Hp). apply bool_decide_eq_true in Hin.
  apply list_elem_of_In. exact Hin.
Qed.

Lemma slot_fits (il L p : Z) :
  0 < L ->
  In p (range_step (il - L + 1) L) ->
  0 <= p /\ p + L <= il.
Proof.
  intros HL H. apply in_range_step in H as (j & Hj & ->); [|exact HL].
  pose proof (Z.mul_div_le il L HL) as Hle.
  generalize dependent (il / L). intros q Hj Hle. nia.
Qed.

Lemma slots_apart (L j1 j2 : Z) :
  0 < L -> j1 <> j2 ->
  j1 * L + L <= j2 * L \/ j2 * L + L <= j1 * L.
Proof. intros HL Hne. destruct (Z.lt_ge_cases j1 j2); [left | right]; nia. Qed.

Lemma string_of_chars_length (l : list ascii) :
  String.length (string_of_list_ascii l) = List.length l.
Proof.
  rewrite <- chars_length. unfold chars.
  rewrite list_ascii_of_string_of_list_ascii. reflexivity.
Qed.

(** Reading [m] characters at [p] from a text whose characters there are
    those of [sv]. *)
Lemma slice_of_written (base : list ascii) (sv : string) (p m : nat) :
  List.length (chars sv) = m ->
  (forall j, (j < m)%nat -> base !! (p + j)%nat = chars sv !! j) ->
  slice (string_of_list_ascii base) p m = sv.
Proof.
  intros Hm Hw. apply chars_inj. unfold slice. rewrite chars_substring.
  unfold chars at 1. rewrite list_ascii_of_string_of_list_ascii.
  apply list_eq. intros j. destruct (Nat.lt_ge_cases j m) as [Hlt|Hge].
  - rewrite lookup_take_lt by exact Hlt. rewrite lookup_drop. apply Hw, Hlt.
  - rewrite lookup_take_ge by exact Hge. symmetry.
    apply lookup_ge_None. lia.
Qed.

(** C9, as stated, fails: the positions are drawn by [random.sample], so
    two calls with the same arguments can return different texts. *)
Lemma generated_positions_vary :
  may_return 6 ["abc"] "abcxxx"
  /\ may_return 6 ["abc"] "xxxabc"
  /\ "abcxxx" <> "xxxabc".
Proof.
  split; [exists [0]; split; vm_compute; reflexivity|].
  split; [exists [3]; split; vm_compute; reflexivity|].
  discriminate.
Qed.

(** Targets longer than the three-character filler can leave the text
    short: 18 characters instead of the 20 asked for. *)
Example generated_text_short_for_long_targets :
  generate_input_text_fixed 20 ["abcd"] [0] = Ok "abcdxxxxxxxxxxxxxx"
  /\ sample_outcome (range_step (20 - 4 + 1) 4) 1 [0] = true.
Proof. split; vm_compute; reflexivity. Qed.

(** C9, amended: for targets of one common length [L >= 1] the slots are
    the [input_length // L] multiples of [L]; the call raises [ValueError]
    exactly when there are more targets than slots; otherwise, whichever
    distinct slots [random.sample] draws, it returns a text, and for
    [L <= 3] that text has exactly [input_length] characters and target
    [i] occupies the slot drawn for it, a multiple of [L]. *)
Theorem generate_input_text_fixed_slots (input_length : Z) (first : string)
    (rest : list string) :
  let svs := first :: rest in
  let L := len first in
  let slots := range_step (input_length - L + 1) L in
  1 <= L ->
  Forall (fun s => len s = L) rest ->
  List.length slots = Z.to_nat (input_length / L)
  /\ ((List.length slots < List.length svs)%nat ->
      forall sel,
        generate_input_text_fixed input_length svs sel = Err ValueError)
  /\ ((List.length svs <= List.length slots)%nat ->
      forall sel, sample_outcome slots (List.length svs) sel = true ->
      exists text,
        generate_input_text_fixed input_length svs sel = Ok text
        /\ (L <= 3 ->
            len text = input_length
            /\ forall i sv, svs !! i = Some sv ->
                 exists p j, sel !! i = Some p
                   /\ 0 <= j < input_length / L /\ p = j * L
                   /\ slice text (Z.to_nat p) (Z.to_nat L) = sv)).
Proof.
  intros svs L slots HL Hrest.
  assert (forall sel,
    generate_input_text_fixed input_length svs sel
    = if (List.length slots <? List.length svs)%nat then Err ValueError
      else
        base ← write_loop sel L (enumerate svs)
                 (slice_to (str_repeat "xxx" (input_length / L + 1)) input_length);
        Ok (string_of_list_ascii base)) as Hgen.
  { intros sel. unfold generate_input_text_fixed.
    change (getitem svs 0) with (Ok first). step_bind. fold L.
    unfold floordiv.
    replace (L =? 0) with false by (symmetry; apply Z.eqb_neq; lia).
    step_bind. fold slots. reflexivity. }
  split; [apply range_step_length; lia|]. split.
  - intros Hlt sel. rewrite Hgen.
    apply Nat.ltb_lt in Hlt. rewrite Hlt. reflexivity.
  - intros Hle sel Hsel. rewrite Hgen.
    replace (List.length slots <? List.length svs)%nat with false
      by (symmetry; apply Nat.ltb_ge; exact Hle).
    apply sample_outcome_unpack in Hsel as (Hlen & Hnd & Hin).
    set (base := slice_to _ input_length) in *.
    (* every item has a drawn position, and that position is a slot *)
    assert (forall k i sv, enumerate svs !! k = Some (i, sv) ->
              i = k /\ svs !! k = Some sv
              /\ exists p, sel !! k = Some p /\ In p slots) as Hitem.
    { intros k i sv Hk. apply enumerate_lookup in Hk as [-> Hk].
      split; [reflexivity|]. split; [exact Hk|].
      pose proof (lookup_lt_Some _ _ _ Hk) as Hlt.
      destruct (lookup_lt_is_Some_2 sel k) as [p Hp]; [lia|].
      exists p. split; [exact Hp|]. apply Hin.
      apply list_elem_of_In. eapply list_elem_of_lookup_2. exact Hp. }
    destruct (write_loop_completes sel L (enumerate svs) base)
      as (base' & Hrun).
    { apply Forall_forall. intros [i sv] Hx.
      apply list_elem_of_lookup in Hx as [k Hk].
      destruct (Hitem k i sv Hk) as (-> & _ & p & Hp & _).
      exists p. apply getitem_lookup. exact Hp. }
    rewrite Hrun. step_bind. eexists. split; [reflexivity|].
    intros HL3.
    assert (forall sv, In sv svs -> Z.of_nat (List.length (chars sv)) = L)
      as Hsv.
    { intros sv [<-|Hsv]; rewrite chars_length; [reflexivity|].
      rewrite Forall_forall in Hrest. apply Hrest, list_elem_of_In, Hsv. }
    assert (0 <= input_length) as Hil.
    { assert (0 < input_length / L) as Hq.
      { unfold slots in Hle. rewrite range_step_length in Hle by lia.
        cbn [svs List.length] in Hle. lia. }
      destruct (Z.lt_ge_cases input_length 0) as [Hneg|]; [|assumption].
      pose proof (Z.div_lt_upper_bound input_length L 0 ltac:(lia) ltac:(lia)).
      lia. }
    pose proof (base_text_length input_length L (conj HL HL3) Hil) as Hbase.
    fold base in Hbase.
    assert (Forall (item_fits sel L (List.length base)) (enumerate svs))
      as Hfits.
    { apply Forall_forall. intros [i sv] Hx.
      apply list_elem_of_lookup in Hx as [k Hk].
      destruct (Hitem k i sv Hk) as (-> & Hsvk & p & Hp & Hslot).
      exists p. cbn [fst snd].
      split; [apply getitem_lookup; exact Hp|].
      destruct (slot_fits input_length L p ltac:(lia) Hslot) as [Hp0 Hpl].
      split; [exact Hp0|]. split; [lia|].
      apply Hsv. apply list_elem_of_In. eapply list_elem_of_lookup_2.
      exact Hsvk. }
    destruct (write_loop_runs sel L (enumerate svs) base Hfits)
      as (base'' & Hrun' & Hlen' & _).
    rewrite Hrun in Hrun'. injection Hrun' as <-.
    split; [unfold len; rewrite string_of_chars_length; lia|].
    intros i sv Hi.
    pose proof (lookup_enumerate svs 0 i sv Hi) as Hitem_i.
    cbn [Nat.add] in Hitem_i. fold (enumerate svs) in Hitem_i.
    destruct (Hitem i i sv Hitem_i) as (_ & _ & p & Hp & Hslot).
    destruct (in_range_step input_length L p ltac:(lia) Hslot)
      as (j & Hj & Hpj).
    destruct (slot_fits input_length L p ltac:(lia) Hslot) as [Hp0 Hpl].
    exists p, j. split; [exact Hp|]. split; [exact Hj|]. split; [exact Hpj|].
    pose proof (take_drop_middle _ _ _ Hitem_i) as Hsplit.
    rewrite <- Hsplit in Hfits, Hrun.
    pose proof (Hsv sv ltac:(apply list_elem_of_In;
                              eapply list_elem_of_lookup_2; exact Hi)) as HsvL.
    destruct (write_loop_keeps sel L _ _ i sv p base base' Hfits Hrun
                (getitem_lookup sel i p Hp)) as [_ Hkeep].
    { intros j' Hj'. apply Forall_forall. intros [i' sv'] Hx.
      apply list_elem_of_lookup in Hx as [k Hk].
      rewrite lookup_drop in Hk.
      destruct (Hitem _ i' sv' Hk) as (-> & _ & p' & Hp' & Hslot').
      intros q Hq. cbn [fst] in Hq.
      rewrite (getitem_lookup sel _ p' Hp') in Hq. injection Hq as <-.
      destruct (in_range_step input_length L p' ltac:(lia) Hslot')
        as (j2 & _ & ->).
      assert (j <> j2) as Hne.
      { intros <-. subst p.
        pose proof (NoDup_lookup sel _ _ _ Hnd Hp Hp'). lia. }
      destruct (slots_apart L j j2 ltac:(lia) Hne); subst p; lia. }
    apply slice_of_written.
    + lia.
    + intros j' Hj'. apply Hkeep. lia.
Qed.

Lemma generate_input_text_fixed_slots_witness :
  exists text,
    generate_input_text_fixed 7 ["abc"; "def"] [3; 0] = Ok text
    /\ len text = 7
    /\ slice text 3 3 = "abc"
    /\ slice text 0 3 = "def".
Proof.
  destruct (generate_input_text_fixed_slots 7 "abc" ["def"]) as (_ & _ & Hok).
  - unfold len. simpl. lia.
  - repeat constructor.
  - destruct (Hok ltac:(vm_compute; lia) [3; 0] eq_refl) as (text & Hgen & Hthree).
    destruct Hthree as [Hlen Hat]; [unfold len; simpl; lia|].
    exists text. split; [exact Hgen|]. split; [exact Hlen|].
    destruct (Hat 0%nat "abc" eq_refl) as (p & j & Hp & _ & _ & Hs).
    destruct (Hat 1%nat "def" eq_refl) as (p' & j' & Hp' & _ & _ & Hs').
    injection Hp as <-. injection Hp' as <-.
    split; [exact Hs | exact Hs'].
Defined.

(** ** metrics.py: the measured value of the estimator *)



Lemma counts_get_item (c : counts) (k : string) (v : Z) :
  List.NoDup (map fst c) -> In (k, v) c -> counts_get c k = v.
Proof.
  unfold counts_get. induction c as [|[k' v'] c IH]; intros Hnd Hin; [destruct Hin|].
  cbn [find fst]. inversion Hnd as [|? ? Hk' Hnd']; subst.
  destruct Hin as [Heq|Hin].
  - injection Heq as -> ->. rewrite String.eqb_refl. reflexivity.
  - destruct (String.eqb k' k) eqn:Hk.
    + apply String.eqb_eq in Hk. subst k'. exfalso. apply Hk'.
      apply in_map_iff. exists (k, v). split; [reflexivity | exact Hin].
    + apply IH; assumption.
Qed.


(** ** Python's float arithmetic: scaling by a power of two is exact *)








































(** ** metrics.py: the estimator and the closed form *)




(** ** The valid states handed to the validation stage *)

Lemma bin_pos_bits (p : positive) :
  forallb is_bit (bin_pos p) = true /\ bin_pos p <> [].
Proof.
  induction p as [q [IH _]|q [IH _]|]; cbn [bin_pos].
  - split; [|intros H; apply app_eq_nil in H as [_ H]; discriminate].
    rewrite forallb_app, IH. reflexivity.
  - split; [|intros H; apply app_eq_nil in H as [_ H]; discriminate].
    rewrite forallb_app, IH. reflexivity.
  - split; [reflexivity | discriminate].
Qed.

Lemma format_0b_is_bitstring (w : nat) (i : N) :
  is_bitstring (format_0b w i) = true.
Proof.
  unfold is_bitstring, format_0b.
  assert (forallb is_bit (bin_digits i) = true /\ bin_digits i <> [])
    as [Hbits Hne].
  { destruct i as [|p]; [split; [reflexivity | discriminate]|].
    apply bin_pos_bits. }
  set (ds := bin_digits i) in *. set (pad := (w - List.length ds)%nat).
  apply andb_true_iff. split.
  - destruct (repeat "0"%char pad ++ ds) as [|c l] eqn:Hl; [|reflexivity].
    apply app_eq_nil in Hl as [_ Hl]. contradiction.
  - unfold chars. rewrite list_ascii_of_string_of_list_ascii, forallb_app, Hbits.
    rewrite andb_true_r. clear. induction pad as [|n IH]; [reflexivity|].
    cbn [repeat forallb]. rewrite IH. reflexivity.
Qed.

(** Every valid state [classical_preprocessing] returns is a bit-string,
    so the validation stage can always convert it. *)
Lemma preprocessing_valid_states_bitstrings (text : string)
    (svs : list string) (hb : nat) (pi : Z) vs n nq subs tgs :
  classical_preprocessing text svs hb pi = Ok (vs, n, nq, subs, tgs) ->
  forallb is_bitstring vs = true.
Proof.
  intros H. pose proof (preprocessing_n_substr_positive _ _ _ _ _ _ _ _ _ H) as Hn.
  unfold classical_preprocessing in H.
  destruct svs as [|first rest]; [discriminate|].
  change (getitem (first :: rest) 0) with (Ok first) in H.
  cbn [Py.bind mbind result_bind] in H.
  set (L := String.length first) in *.
  set (n' := len text - Z.of_nat L + 1) in *.
  unfold compute_n_qubits in H.
  destruct (n' <=? 0) eqn:Hle; [discriminate|].
  cbn [Py.bind mbind result_bind] in H.
  destruct (get_prime pi) as [p|e] eqn:Hp.
  - destruct (window_loop text (first :: rest) hb pi p Hp L (Z.log2_up n')
                (seq 0 (Z.to_nat n')) (mk_acc [] [] [])) as [tgs' Hloop].
    rewrite Hloop in H. cbn [Py.bind valid_states] in H.
    injection H as <- _ _ _ _. cbn [app].
    apply forallb_forall. intros s Hs.
    apply in_flat_map in Hs as (i & _ & Hs).
    unfold window_marks in Hs. apply in_map_iff in Hs as (t & <- & _).
    apply format_0b_is_bitstring.
  - exfalso. apply Z.leb_gt in Hle.
    destruct (Z.to_nat n') as [|m] eqn:Hm; [lia|].
    cbn [seq for_each] in H. unfold window_step at 1 in H.
    unfold make_hash in H. rewrite Hp in H. discriminate.
Qed.

(** * Further properties of the package *)

(** ** hashing.py: range and collisions of the digest *)

Lemma getitem_member {A} (xs : list A) (k : Z) (x : A) :
  getitem xs k = Ok x -> In x xs.
Proof.
  unfold getitem. destruct (_ && _); [|discriminate].
  destruct (nth_error xs _) as [a|] eqn:Hn; [|discriminate].
  intros H. injection H as <-. eapply nth_error_In. exact Hn.
Qed.

Lemma get_prime_odd (pi p : Z) : get_prime pi = Ok p -> Z.odd p = true.
Proof.
  intros H. apply getitem_member in H. unfold primes in H.
  cbn [In] in H.
  repeat (destruct H as [<-|H]; [reflexivity|]). destruct H.
Qed.

(** X1: whenever [make_hash] returns, its digest lies in
    [0, 2^hash_bits). *)
Theorem make_hash_in_range (s : string) (hb : nat) (pi h : Z) :
  make_hash s hb pi = Ok h -> 0 <= h < 2 ^ Z.of_nat hb.
Proof.
  unfold make_hash. destruct (get_prime pi) as [p|e]; [|discriminate].
  step_bind. intros H. injection H as <-.
  apply Z.mod_pos_bound. apply Z.pow_pos_nonneg; lia.
Qed.

Lemma make_hash_in_range_witness : 0 <= 130 < 2 ^ Z.of_nat 8.
Proof. apply (make_hash_in_range "ab" 8 1 130). vm_compute. reflexivity. Defined.

Lemma int_from_bytes_last (bs : list Z) (n : Z) :
  0 <= n <= 8 ->
  int_from_bytes_big bs mod 2 ^ n = List.last bs 0 mod 2 ^ n.
Proof.
  intros Hn. unfold int_from_bytes_big.
  induction bs as [|b bs _] using rev_ind; [reflexivity|].
  rewrite fold_left_app, last_last. cbn [fold_left].
  replace 256 with (2 ^ n * 2 ^ (8 - n)).
  - rewrite <- Z.mul_assoc, Z.add_comm, Z.mul_comm, Z.mod_add; [reflexivity|].
    apply Z.pow_nonzero; lia.
  - rewrite <- Z.pow_add_r by lia. replace (n + (8 - n)) with 8 by lia.
    reflexivity.
Qed.

Lemma odd_divide_pow2 (p : Z) (n : nat) (d : Z) :
  Z.odd p = true -> (2 ^ Z.of_nat n | d * p) -> (2 ^ Z.of_nat n | d).
Proof.
  intros Hp. revert d. induction n as [|n IH]; intros d H.
  - apply Z.divide_1_l.
  - rewrite Nat2Z.inj_succ, Z.pow_succ_r in * by lia.
    assert (Z.even d = true) as Hd.
    { assert (Z.even (d * p) = true) as He.
      { destruct H as [k Hk]. rewrite Hk.
        replace (k * (2 * 2 ^ Z.of_nat n)) with (2 * (k * 2 ^ Z.of_nat n)) by ring.
        apply Z.even_mul. }
      assert (Z.even p = false) as Hpe
        by (rewrite <- Z.negb_odd, Hp; reflexivity).
      rewrite Z.even_mul, Hpe, orb_false_r in He. exact He. }
    apply Z.even_spec in Hd as [d' ->].
    apply Z.mul_divide_cancel_l; [lia|]. apply IH.
    apply (Z.mul_divide_cancel_l _ _ 2); [lia|].
    replace (2 * (d' * p)) with (2 * d' * p) by ring. exact H.
Qed.

Lemma odd_cancel_pow2 (p a b : Z) (n : nat) :
  Z.odd p = true ->
  ((a * p) mod 2 ^ Z.of_nat n = (b * p) mod 2 ^ Z.of_nat n
   <-> a mod 2 ^ Z.of_nat n = b mod 2 ^ Z.of_nat n).
Proof.
  intros Hp.
  assert (0 < 2 ^ Z.of_nat n) as Hpos by (apply Z.pow_pos_nonneg; lia).
  assert (forall x y, x mod 2 ^ Z.of_nat n = y mod 2 ^ Z.of_nat n
                      <-> (2 ^ Z.of_nat n | x - y)) as Hcong.
  { intros x y. split.
    - intros H. apply Z.mod_divide; [lia|].
      rewrite Zminus_mod, H, Z.sub_diag. reflexivity.
    - intros [k Hk]. replace x with (y + k * 2 ^ Z.of_nat n) by lia.
      apply Z.mod_add. lia. }
  rewrite !Hcong. replace (a * p - b * p) with ((a - b) * p) by ring.
  split.
  - apply odd_divide_pow2. exact Hp.
  - intros H. apply Z.divide_mul_l. exact H.
Qed.

(** X2: with at most eight hash bits, [compare_hash] compares nothing
    but the last bytes of the two strings, reduced modulo [2^hash_bits]:
    strings that end in the same character always collide. *)
Theorem compare_hash_last_byte (a b : string) (hb : nat) (pi p : Z) :
  get_prime pi = Ok p ->
  (hb <= 8)%nat ->
  compare_hash a b hb pi
  = Ok (last_byte a mod 2 ^ Z.of_nat hb =? last_byte b mod 2 ^ Z.of_nat hb).
Proof.
  intros Hp Hhb. rewrite (compare_hash_digest a b hb pi p Hp). f_equal.
  unfold digest, last_byte.
  rewrite <- !(int_from_bytes_last _ (Z.of_nat hb)) by lia.
  apply eq_true_iff_eq. rewrite !Z.eqb_eq.
  apply odd_cancel_pow2. eapply get_prime_odd. exact Hp.
Qed.

Lemma compare_hash_last_byte_witness :
  compare_hash "running" "ing" 8 1
  = Ok (last_byte "running" mod 2 ^ Z.of_nat 8 =? last_byte "ing" mod 2 ^ Z.of_nat 8).
Proof.
  apply (compare_hash_last_byte "running" "ing" 8 1 17).
  - reflexivity.
  - lia.
Defined.

(** X3: [compare_hash] returns whenever [make_hash] returns on both
    strings, with the equality of the two digests (so it returns on any
    two strings that can be hashed, equal or not), and on those strings
    it is an equivalence: a string that can be hashed matches itself (no
    false negatives), the answer does not depend on the order of the two
    strings, and matching is transitive. *)
Theorem compare_hash_equivalence (hb : nat) (pi : Z) :
  (forall a b ha hb',
     make_hash a hb pi = Ok ha -> make_hash b hb pi = Ok hb' ->
     compare_hash a b hb pi = Ok (ha =? hb'))
  /\ (forall a ha, make_hash a hb pi = Ok ha ->
                   compare_hash a a hb pi = Ok true)
  /\ (forall a b m, compare_hash a b hb pi = Ok m ->
                    compare_hash b a hb pi = Ok m)
  /\ (forall a b c, compare_hash a b hb pi = Ok true ->
                    compare_hash b c hb pi = Ok true ->
                    compare_hash a c hb pi = Ok true).
Proof.
  assert (forall a b m, compare_hash a b hb pi = Ok m ->
            exists ha hb', make_hash a hb pi = Ok ha
                           /\ make_hash b hb pi = Ok hb'
                           /\ m = (ha =? hb')) as Hinv.
  { intros a b m H. unfold compare_hash in H.
    destruct (make_hash a hb pi) as [ha|e]; [|discriminate].
    cbn [Py.bind mbind result_bind] in H.
    destruct (make_hash b hb pi) as [hb'|e]; [|discriminate].
    cbn [Py.bind mbind result_bind] in H. injection H as <-.
    exists ha, hb'. repeat split. }
  assert (forall a b ha hb',
            make_hash a hb pi = Ok ha -> make_hash b hb pi = Ok hb' ->
            compare_hash a b hb pi = Ok (ha =? hb')) as Hret.
  { intros a b ha hb' Ha Hb. unfold compare_hash. rewrite Ha, Hb.
    reflexivity. }
  split; [exact Hret|]. split; [|split].
  - intros a ha Ha. rewrite (Hret a a ha ha Ha Ha), Z.eqb_refl. reflexivity.
  - intros a b m H. apply Hinv in H as (ha & hb' & Ha & Hb & ->).
    rewrite (Hret b a hb' ha Hb Ha), Z.eqb_sym. reflexivity.
  - intros a b c Hab Hbc.
    apply Hinv in Hab as (ha & hb1 & Ha & Hb1 & Hab).
    apply Hinv in Hbc as (hb2 & hc & Hb2 & Hc & Hbc).
    rewrite Hb1 in Hb2. injection Hb2 as <-.
    rewrite (Hret a c ha hc Ha Hc). f_equal.
    symmetry in Hab, Hbc. apply Z.eqb_eq in Hab, Hbc.
    apply Z.eqb_eq. congruence.
Qed.

Lemma compare_hash_equivalence_witness :
  compare_hash "cab" "zb" 8 1 = Ok (130 =? 130)
  /\ compare_hash "ab" "ba" 8 1 = Ok (130 =? 113).
Proof.
  split.
  - apply (proj1 (compare_hash_equivalence 8 1) "cab" "zb" 130 130);
      vm_compute; reflexivity.
  - apply (proj1 (compare_hash_equivalence 8 1) "ab" "ba" 130 113);
      vm_compute; reflexivity.
Defined.

(** ** Bit-strings: formatting and reading back *)

Lemma bin_pos_value (p : positive) :
  fold_left (fun acc c => 2 * acc + bit_val c) (bin_pos p) 0 = Z.pos p.
Proof.
  induction p as [q IH|q IH|]; cbn [bin_pos]; [| |reflexivity];
    rewrite fold_left_app, IH; cbn [fold_left bit_val]; cbn; lia.
Qed.

Lemma zero_padding_value (k : nat) (ds : list ascii) :
  fold_left (fun acc c => 2 * acc + bit_val c) (repeat "0"%char k ++ ds) 0
  = fold_left (fun acc c => 2 * acc + bit_val c) ds 0.
Proof.
  induction k as [|k IH]; [reflexivity|]. cbn [repeat app fold_left]. exact IH.
Qed.

Lemma format_0b_value (w : nat) (i : N) :
  big_endian_value (format_0b w i) = Z.of_N i.
Proof.
  unfold big_endian_value, format_0b, chars.
  rewrite list_ascii_of_string_of_list_ascii, zero_padding_value.
  destruct i as [|p]; [reflexivity | apply bin_pos_value].
Qed.

(** Reading back a formatted number gives the number. *)
Lemma int_base2_format_0b (w : nat) (i : N) :
  int_base2 (format_0b w i) = Ok (Z.of_N i).
Proof.
  rewrite (int_base2_bitstring _ (format_0b_is_bitstring w i)).
  rewrite format_0b_value. reflexivity.
Qed.

Lemma bin_pos_length_le (p : positive) (w : nat) :
  Z.pos p < 2 ^ Z.of_nat w -> (List.length (bin_pos p) <= w)%nat.
Proof.
  revert w. induction p as [q IH|q IH|]; intros w H; cbn [bin_pos].
  - destruct w as [|w]; [cbn in H; lia|].
    rewrite Nat2Z.inj_succ, Z.pow_succ_r in H by lia.
    rewrite length_app. cbn [List.length]. specialize (IH w). lia.
  - destruct w as [|w]; [cbn in H; lia|].
    rewrite Nat2Z.inj_succ, Z.pow_succ_r in H by lia.
    rewrite length_app. cbn [List.length]. specialize (IH w). lia.
  - destruct w as [|w]; [cbn in H; lia|]. cbn [List.length]. lia.
Qed.

(** A number below [2^w] is formatted on exactly [w] characters, for
    [w >= 1]. *)
Lemma format_0b_length (w : nat) (i : N) :
  (1 <= w)%nat -> Z.of_N i < 2 ^ Z.of_nat w ->
  String.length (format_0b w i) = w.
Proof.
  intros Hw Hi. unfold format_0b.
  rewrite string_of_chars_length, length_app, repeat_length.
  assert (List.length (bin_digits i) <= w)%nat as Hd.
  { destruct i as [|p]; [cbn; lia|]. apply bin_pos_length_le. exact Hi. }
  lia.
Qed.

(** ** preprocessing.py: what the scan returns and when it raises *)

Lemma window_loop_full (text : string) (svs : list string) (hb : nat)
    (pi p : Z) (L : nat) (nq : Z) (l : list nat) (a : acc) :
  get_prime pi = Ok p ->
  for_each l (window_step text L nq svs hb pi) a
  = Ok (mk_acc
          (valid_states a ++ flat_map (window_marks text svs hb p L nq) l)
          (substrings a ++ map (window_digest text hb p L) l)
          (targets a ++ flat_map (window_target text svs hb p L) l)).
Proof.
  intros Hp. revert a.
  induction l as [|i l IH]; intros a; cbn [for_each flat_map map].
  - rewrite !app_nil_r. destruct a; reflexivity.
  - unfold window_step at 1.
    rewrite (make_hash_digest _ _ _ _ Hp). step_bind.
    rewrite (mark_window_marks hb pi p Hp nq). step_bind.
    rewrite IH. cbn [valid_states substrings targets].
    unfold window_target at 2, window_digest at 2, window_marks at 2, window_hits.
    destruct (string_in _ svs); rewrite <- !app_assoc; reflexivity.
Qed.

Lemma get_prime_error (pi : Z) (e : exn) :
  get_prime pi = Err e -> e = IndexError.
Proof.
  unfold get_prime, getitem. destruct (_ && _); [|congruence].
  destruct (nth_error _ _); congruence.
Qed.

(** The scan in closed form: its three ways to raise, in the order they
    are met, and otherwise its five results. *)
Lemma classical_preprocessing_closed_form (text : string)
    (svs : list string) (hb : nat) (pi : Z) :
  classical_preprocessing text svs hb pi
  = match svs with
    | [] => Err IndexError
    | first :: _ =>
        let L := String.length first in
        let n := len text - Z.of_nat L + 1 in
        if (String.length text <? L)%nat then Err MathDomainError
        else match get_prime pi with
             | Err e => Err e
             | Ok p =>
                 Ok (flat_map (window_marks text svs hb p L (Z.log2_up n))
                       (seq 0 (Z.to_nat n)),
                     n, Z.log2_up n,
                     map (window_digest text hb p L) (seq 0 (Z.to_nat n)),
                     flat_map (window_target text svs hb p L)
                       (seq 0 (Z.to_nat n)))
             end
    end.
Proof.
  unfold classical_preprocessing. destruct svs as [|first rest]; [reflexivity|].
  change (getitem (first :: rest) 0) with (Ok first). step_bind.
  set (L := String.length first). set (n := len text - Z.of_nat L + 1).
  cbv zeta. unfold compute_n_qubits.
  destruct (String.length text <? L)%nat eqn:Hlt.
  - apply Nat.ltb_lt in Hlt.
    replace (n <=? 0) with true by (symmetry; apply Z.leb_le; unfold n, len; lia).
    reflexivity.
  - apply Nat.ltb_ge in Hlt.
    replace (n <=? 0) with false by (symmetry; apply Z.leb_gt; unfold n, len; lia).
    step_bind. destruct (get_prime pi) as [p|e] eqn:Hp.
    + rewrite (window_loop_full text (first :: rest) hb pi p L _ _ _ Hp).
      reflexivity.
    + assert (exists m, Z.to_nat n = S m) as [m ->]
        by (exists (Nat.pred (Z.to_nat n)); unfold n, len; lia).
      cbn [seq for_each]. unfold window_step at 1, make_hash.
      rewrite Hp. reflexivity.
Qed.

(** X4: when [classical_preprocessing] raises its two own errors.  It
    raises [IndexError] exactly when the target list is empty, or the
    text is at least as long as the first target and [get_prime] rejects
    the prime index; it raises the math domain error exactly when the
    target list is not empty and the text is shorter than the first
    target (so the length check comes before the prime is looked up). *)
Theorem classical_preprocessing_raises_iff (text : string)
    (svs : list string) (hb : nat) (pi : Z) :
  (classical_preprocessing text svs hb pi = Err IndexError
   <-> svs = []
       \/ exists first rest,
            svs = first :: rest
            /\ (String.length first <= String.length text)%nat
            /\ get_prime pi = Err IndexError)
  /\ (classical_preprocessing text svs hb pi = Err MathDomainError
      <-> exists first rest,
            svs = first :: rest
            /\ (String.length text < String.length first)%nat).
Proof.
  rewrite classical_preprocessing_closed_form.
  destruct svs as [|first rest].
  - split; split.
    + intros _. left. reflexivity.
    + intros _. reflexivity.
    + discriminate.
    + intros (f & r & H & _). discriminate.
  - cbv zeta. destruct (String.length text <? String.length first)%nat eqn:Hlt.
    + apply Nat.ltb_lt in Hlt. split; split.
      * discriminate.
      * intros [H|(f & r & H & Hle & _)]; [discriminate|].
        injection H as <- <-. lia.
      * intros _. exists first, rest. split; [reflexivity | exact Hlt].
      * intros _. reflexivity.
    + apply Nat.ltb_ge in Hlt. split; split.
      * destruct (get_prime pi) as [p|e] eqn:Hp; [discriminate|].
        intros H. injection H as ->. right.
        exists first, rest. repeat split; assumption.
      * intros [H|(f & r & _ & _ & Hp)]; [discriminate|].
        rewrite Hp. reflexivity.
      * destruct (get_prime pi) as [p|e] eqn:Hp; [discriminate|].
        intros H. injection H as ->.
        apply get_prime_error in Hp. discriminate.
      * intros (f & r & H & Hl). injection H as <- <-. lia.
Qed.

Lemma preprocessing_inversion (text : string) (svs : list string) (hb : nat)
    (pi : Z) vs n nq subs tgs :
  classical_preprocessing text svs hb pi = Ok (vs, n, nq, subs, tgs) ->
  exists first rest p,
    svs = first :: rest
    /\ get_prime pi = Ok p
    /\ (String.length first <= String.length text)%nat
    /\ n = len text - len first + 1
    /\ nq = Z.log2_up n
    /\ vs = flat_map (window_marks text svs hb p (String.length first) nq)
              (seq 0 (Z.to_nat n))
    /\ subs = map (window_digest text hb p (String.length first))
                (seq 0 (Z.to_nat n))
    /\ tgs = flat_map (window_target text svs hb p (String.length first))
               (seq 0 (Z.to_nat n)).
Proof.
  rewrite classical_preprocessing_closed_form.
  destruct svs as [|first rest]; [discriminate|]. cbv zeta.
  destruct (String.length text <? String.length first)%nat eqn:Hlt;
    [discriminate|].
  apply Nat.ltb_ge in Hlt.
  destruct (get_prime pi) as [p|e]; [|discriminate].
  intros H. injection H as <- <- <- <- <-.
  exists first, rest, p. repeat split; try reflexivity. exact Hlt.
Qed.

Lemma window_hits_compare (text : string) (svs : list string) (hb : nat)
    (pi p : Z) (L i : nat) (t : string) :
  get_prime pi = Ok p ->
  (In t (window_hits text svs hb p L i)
   <-> In t svs /\ compare_hash (slice text i L) t hb pi = Ok true).
Proof.
  intros Hp. unfold window_hits. rewrite filter_In.
  rewrite (compare_hash_digest _ _ _ _ _ Hp).
  split; intros [H1 H2]; (split; [exact H1|]); congruence.
Qed.

Lemma string_in_In (s : string) (l : list string) :
  string_in s l = true <-> In s l.
Proof.
  unfold string_in. rewrite existsb_exists. split.
  - intros (t & Ht & Heq). apply String.eqb_eq in Heq. subst t. exact Ht.
  - intros H. exists s. split; [exact H | apply String.eqb_refl].
Qed.

(** X5: no false negatives.  Whenever the scan returns, every window that
    is literally one of the search values has its index string in
    [valid_states]. *)
Theorem preprocessing_marks_every_occurrence (text : string)
    (first : string) (rest : list string) (hb : nat) (pi : Z)
    vs n nq subs tgs (i : nat) :
  classical_preprocessing text (first :: rest) hb pi
  = Ok (vs, n, nq, subs, tgs) ->
  Z.of_nat i < n ->
  In (slice text i (String.length first)) (first :: rest) ->
  In (format_0b (Z.to_nat nq) (N.of_nat i)) vs.
Proof.
  intros H Hi Hocc.
  apply preprocessing_inversion in H
    as (f & r & p & Hsvs & Hp & _ & _ & _ & -> & _ & _).
  injection Hsvs as <- <-.
  apply in_flat_map. exists i. split; [apply in_seq; lia|].
  unfold window_marks. apply in_map_iff.
  exists (slice text i (String.length first)). split; [reflexivity|].
  apply (window_hits_compare _ _ _ _ _ _ _ _ Hp). split; [exact Hocc|].
  rewrite (compare_hash_digest _ _ _ _ _ Hp), Z.eqb_refl. reflexivity.
Qed.

Lemma preprocessing_marks_every_occurrence_witness :
  In (format_0b (Z.to_nat 1) (N.of_nat 1)) ["1"].
Proof.
  eapply (preprocessing_marks_every_occurrence "xab" "ab" [] 8 1
            ["1"] 2 1 _ _ 1%nat).
  - vm_compute. reflexivity.
  - lia.
  - left. reflexivity.
Defined.

(** X6: no entry without a cause.  Every entry of [valid_states] is the
    index string of a window position below [n_substr] whose digest
    [compare_hash] finds equal to that of some search value, and reading
    the entry back gives that position. *)
Theorem preprocessing_marks_only_matches (text : string)
    (first : string) (rest : list string) (hb : nat) (pi : Z)
    vs n nq subs tgs (s : string) :
  classical_preprocessing text (first :: rest) hb pi
  = Ok (vs, n, nq, subs, tgs) ->
  In s vs ->
  exists (i : nat) (t : string),
    Z.of_nat i < n
    /\ s = format_0b (Z.to_nat nq) (N.of_nat i)
    /\ int_base2 s = Ok (Z.of_nat i)
    /\ In t (first :: rest)
    /\ compare_hash (slice text i (String.length first)) t hb pi = Ok true.
Proof.
  intros H Hs.
  apply preprocessing_inversion in H
    as (f & r & p & Hsvs & Hp & _ & _ & _ & -> & _ & _).
  injection Hsvs as <- <-.
  apply in_flat_map in Hs as (i & Hi & Hs). apply in_seq in Hi.
  unfold window_marks in Hs. apply in_map_iff in Hs as (t & <- & Ht).
  apply (window_hits_compare _ _ _ _ _ _ _ _ Hp) in Ht as [Ht Hc].
  exists i, t. split; [lia|]. split; [reflexivity|].
  split; [|split; assumption].
  rewrite int_base2_format_0b, nat_N_Z. reflexivity.
Qed.

Lemma preprocessing_marks_only_matches_witness :
  exists (i : nat) (t : string),
    Z.of_nat i < 2
    /\ "1" = format_0b (Z.to_nat 1) (N.of_nat i)
    /\ int_base2 "1" = Ok (Z.of_nat i)
    /\ In t ["ab"]
    /\ compare_hash (slice "xab" i (String.length "ab")) t 8 1 = Ok true.
Proof.
  eapply (preprocessing_marks_only_matches "xab" "ab" [] 8 1 ["1"] 2 1).
  - vm_compute. reflexivity.
  - left. reflexivity.
Defined.

(** X7: [substrings] is positional.  It has one entry per window; entry
    [i] is the digest of window [i] written on [hash_bits] binary digits
    (exactly [hash_bits] characters when [hash_bits >= 1]), and reading it
    back gives the digest [make_hash] computed. *)
Theorem preprocessing_substrings_positional (text : string)
    (first : string) (rest : list string) (hb : nat) (pi : Z)
    vs n nq subs tgs :
  classical_preprocessing text (first :: rest) hb pi
  = Ok (vs, n, nq, subs, tgs) ->
  Z.of_nat (List.length subs) = n
  /\ forall (i : nat), Z.of_nat i < n ->
       exists h d,
         make_hash (slice text i (String.length first)) hb pi = Ok h
         /\ subs !! i = Some d
         /\ d = format_0b hb (Z.to_N h)
         /\ int_base2 d = Ok h
         /\ ((1 <= hb)%nat -> String.length d = hb).
Proof.
  intros H.
  pose proof (preprocessing_n_substr_positive _ _ _ _ _ _ _ _ _ H) as Hn.
  apply preprocessing_inversion in H
    as (f & r & p & Hsvs & Hp & _ & _ & _ & _ & -> & _).
  injection Hsvs as <- <-.
  split; [rewrite length_map, length_seq; lia|].
  intros i Hi.
  set (h := digest p hb (slice text i (String.length first))).
  assert (0 <= h < 2 ^ Z.of_nat hb) as Hh
    by (apply Z.mod_pos_bound, Z.pow_pos_nonneg; lia).
  exists h, (format_0b hb (Z.to_N h)).
  split; [apply make_hash_digest; exact Hp|].
  split.
  { rewrite list_lookup_fmap, lookup_seq_lt by lia. reflexivity. }
  split; [reflexivity|].
  split; [rewrite int_base2_format_0b, Z2N.id by lia; reflexivity|].
  intros Hhb. apply format_0b_length; [exact Hhb|].
  rewrite Z2N.id by lia. lia.
Qed.

Lemma preprocessing_substrings_positional_witness :
  Z.of_nat (List.length ["01110001"; "10000010"]) = 2
  /\ forall (i : nat), Z.of_nat i < 2 ->
       exists h d,
         make_hash (slice "xab" i (String.length "ab")) 8 1 = Ok h
         /\ ["01110001"; "10000010"] !! i = Some d
         /\ d = format_0b 8 (Z.to_N h)
         /\ int_base2 d = Ok h
         /\ ((1 <= 8)%nat -> String.length d = 8%nat).
Proof.
  eapply (preprocessing_substrings_positional "xab" "ab" [] 8 1).
  vm_compute. reflexivity.
Defined.

Lemma valid_states_width (text : string) (svs : list string) (hb : nat)
    (p : Z) (L : nat) (n : Z) (s : string) :
  2 <= n ->
  In s (flat_map (window_marks text svs hb p L (Z.log2_up n))
          (seq 0 (Z.to_nat n))) ->
  String.length s = Z.to_nat (Z.log2_up n).
Proof.
  intros H2 Hs.
  pose proof (Z.log2_up_spec n ltac:(lia)) as [_ Hle].
  apply in_flat_map in Hs as (i & Hi & Hs). apply in_seq in Hi.
  unfold window_marks in Hs. apply in_map_iff in Hs as (t & <- & _).
  assert (0 < Z.log2_up n) by (apply Z.log2_up_pos; lia).
  apply format_0b_length; [lia|].
  rewrite nat_N_Z, Z2Nat.id by lia. lia.
Qed.

(** X8: the index register is just large enough.  Whenever the scan
    returns at most [2^32] windows, [n_substr <= 2^n_qubits]; with at
    least two windows the register has no spare qubit
    ([2^(n_qubits-1) < n_substr]) and every valid state has exactly
    [n_qubits] characters; with a single window [n_qubits] is 0. *)
Theorem preprocessing_register_size (text : string)
    (svs : list string) (hb : nat) (pi : Z) vs n nq subs tgs :
  classical_preprocessing text svs hb pi = Ok (vs, n, nq, subs, tgs) ->
  n <= 2 ^ 32 ->
  0 <= nq <= 32
  /\ n <= 2 ^ nq
  /\ (n = 1 -> nq = 0)
  /\ (2 <= n ->
      2 ^ (nq - 1) < n
      /\ forall s, In s vs -> String.length s = Z.to_nat nq).
Proof.
  intros H Hbound.
  pose proof (preprocessing_n_substr_positive _ _ _ _ _ _ _ _ _ H) as Hn.
  apply preprocessing_inversion in H
    as (f & r & p & Hsvs & Hp & _ & _ & -> & -> & _ & _).
  split.
  { split; [apply Z.log2_up_nonneg|].
    change 32 with (Z.log2_up (2 ^ 32)) at 1.
    apply Z.log2_up_le_mono. exact Hbound. }
  assert (n <= 2 ^ Z.log2_up n) as Hle.
  { destruct (Z.eq_dec n 1) as [->|Hne]; [cbn; lia|].
    apply (Z.log2_up_spec n). lia. }
  split; [exact Hle|]. split; [intros ->; reflexivity|].
  intros H2. pose proof (Z.log2_up_spec n ltac:(lia)) as [Hlt _].
  split; [rewrite Z.sub_1_r; exact Hlt|].
  intros s Hs. apply (valid_states_width _ _ _ _ _ _ _ H2 Hs).
Qed.

Lemma preprocessing_register_size_witness :
  0 <= 2 <= 32
  /\ 4 <= 2 ^ 2
  /\ (4 = 1 -> 2 = 0)
  /\ (2 <= 4 ->
      2 ^ (2 - 1) < 4
      /\ forall s, In s ["00"; "00"; "11"; "11"] ->
                   String.length s = Z.to_nat 2).
Proof.
  eapply (preprocessing_register_size "abcab" ["ab"; "zb"] 8 1).
  - vm_compute. reflexivity.
  - vm_compute. discriminate.
Defined.

(** X9: [targets] holds the digests of the literal occurrences only: a
    bit-string is in [targets] exactly when it is the [substrings] entry
    of a window that is literally one of the search values. *)
Theorem preprocessing_targets_are_literal_occurrences (text : string)
    (first : string) (rest : list string) (hb : nat) (pi : Z)
    vs n nq subs tgs (d : string) :
  classical_preprocessing text (first :: rest) hb pi
  = Ok (vs, n, nq, subs, tgs) ->
  (In d tgs
   <-> exists i : nat,
         Z.of_nat i < n
         /\ In (slice text i (String.length first)) (first :: rest)
         /\ subs !! i = Some d).
Proof.
  intros H.
  pose proof (preprocessing_n_substr_positive _ _ _ _ _ _ _ _ _ H) as Hn.
  apply preprocessing_inversion in H
    as (f & r & p & Hsvs & Hp & _ & _ & _ & _ & -> & ->).
  injection Hsvs as <- <-.
  assert (forall i : nat, Z.of_nat i < n ->
            map (window_digest text hb p (String.length first))
                (seq 0 (Z.to_nat n)) !! i
            = Some (window_digest text hb p (String.length first) i)) as Hlk.
  { intros i Hi. rewrite list_lookup_fmap, lookup_seq_lt by lia. reflexivity. }
  rewrite in_flat_map. split.
  - intros (i & Hi & Hd). apply in_seq in Hi. unfold window_target in Hd.
    destruct (string_in _ _) eqn:Hin; [|destruct Hd].
    destruct Hd as [<-|[]]. exists i. split; [lia|].
    split; [apply string_in_In; exact Hin | apply Hlk; lia].
  - intros (i & Hi & Hocc & Hd). rewrite Hlk in Hd by exact Hi.
    injection Hd as <-. exists i. split; [apply in_seq; lia|].
    unfold window_target. apply string_in_In in Hocc. rewrite Hocc.
    left. reflexivity.
Qed.

Lemma preprocessing_targets_are_literal_occurrences_witness :
  In "10000010" ["10000010"]
  <-> exists i : nat,
        Z.of_nat i < 2
        /\ In (slice "xab" i (String.length "ab")) ["ab"]
        /\ ["01110001"; "10000010"] !! i = Some "10000010".
Proof.
  eapply (preprocessing_targets_are_literal_occurrences "xab" "ab" [] 8 1).
  vm_compute. reflexivity.
Defined.

(** X10: the valid-index set the validation stage builds from
    [valid_states] is exactly the set of window positions below
    [n_substr] whose digest matches a search value. *)
Theorem valid_index_set_is_matching_positions (text : string)
    (first : string) (rest : list string) (hb : nat) (pi : Z)
    vs n nq subs tgs :
  classical_preprocessing text (first :: rest) hb pi
  = Ok (vs, n, nq, subs, tgs) ->
  exists S : gset Z,
    valid_index_set vs = Ok S
    /\ forall k : Z,
         k ∈ S
         <-> exists (i : nat) (t : string),
               k = Z.of_nat i /\ k < n /\ In t (first :: rest)
               /\ compare_hash (slice text i (String.length first)) t hb pi
                  = Ok true.
Proof.
  intros H.
  pose proof (preprocessing_valid_states_bitstrings _ _ _ _ _ _ _ _ _ H) as Hb.
  apply preprocessing_inversion in H
    as (f & r & p & Hsvs & Hp & _ & _ & _ & -> & _ & _).
  injection Hsvs as <- <-.
  destruct (valid_index_set_members _ ∅ Hb) as (S & HS & Hmem).
  exists S. split; [exact HS|].
  intros k. rewrite Hmem. rewrite in_map_iff. split.
  - intros [Hk|(s & <- & Hs)]; [exfalso; revert Hk; apply not_elem_of_empty|].
    apply in_flat_map in Hs as (i & Hi & Hs). apply in_seq in Hi.
    unfold window_marks in Hs. apply in_map_iff in Hs as (t & <- & Ht).
    apply (window_hits_compare _ _ _ _ _ _ _ _ Hp) in Ht as [Ht Hc].
    exists i, t. rewrite format_0b_value, nat_N_Z.
    repeat split; try assumption. lia.
  - intros (i & t & -> & Hi & Ht & Hc). right.
    exists (format_0b (Z.to_nat nq) (N.of_nat i)).
    split; [rewrite format_0b_value, nat_N_Z; reflexivity|].
    apply in_flat_map. exists i. split; [apply in_seq; lia|].
    unfold window_marks. apply in_map_iff. exists t. split; [reflexivity|].
    apply (window_hits_compare _ _ _ _ _ _ _ _ Hp). split; assumption.
Qed.

Lemma valid_index_set_is_matching_positions_witness :
  exists S : gset Z,
    valid_index_set ["1"] = Ok S
    /\ forall k : Z,
         k ∈ S
         <-> exists (i : nat) (t : string),
               k = Z.of_nat i /\ k < 2 /\ In t ["ab"]
               /\ compare_hash (slice "xab" i (String.length "ab")) t 8 1
                  = Ok true.
Proof.
  eapply (valid_index_set_is_matching_positions "xab" "ab" [] 8 1).
  vm_compute. reflexivity.
Defined.

(** ** circuits.py: the oracle, the diffuser and the basic search circuit *)

Lemma qubit_at_nat (n i : nat) :
  qubit_at n (Z.of_nat i) = if (i <? n)%nat then Ok i else Err CircuitError.
Proof.
  unfold qubit_at. destruct (i <? n)%nat eqn:Hi.
  - apply Nat.ltb_lt in Hi.
    rewrite (getitem_lookup (seq 0 n) i i); [reflexivity|].
    apply lookup_seq_lt. exact Hi.
  - destruct (getitem (seq 0 n) (Z.of_nat i)) as [q|e] eqn:Hg; [|reflexivity].
    exfalso. apply Nat.ltb_ge in Hi. unfold getitem in Hg.
    rewrite length_seq in Hg.
    replace (Z.of_nat i <? 0) with false in Hg by (symmetry; apply Z.ltb_ge; lia).
    replace (Z.of_nat i <? Z.of_nat n) with false in Hg
      by (symmetry; apply Z.ltb_ge; lia).
    rewrite andb_false_r in Hg. discriminate.
Qed.

Lemma qubit_at_last (n : nat) :
  qubit_at n (Z.of_nat n - 1)
  = if (1 <=? n)%nat then Ok (n - 1)%nat else Err CircuitError.
Proof.
  destruct n as [|n]; [reflexivity|].
  replace (Z.of_nat (S n) - 1) with (Z.of_nat n) by lia.
  rewrite qubit_at_nat.
  replace (n <? S n)%nat with true by (symmetry; apply Nat.ltb_lt; lia).
  cbn [Nat.leb]. f_equal. lia.
Qed.

Lemma qc_h_last (n : nat) (qc : circuit nat) :
  qc_h n (Z.of_nat n - 1) qc
  = if (1 <=? n)%nat then Ok (qc ++ [Hgate (n - 1)%nat]) else Err CircuitError.
Proof.
  unfold qc_h. rewrite qubit_at_last. destruct (1 <=? n)%nat; reflexivity.
Qed.

Lemma qc_mcx_last (n : nat) (qc : circuit nat) :
  qc_mcx n (Z.of_nat n - 1) (Z.of_nat n - 1) qc
  = if (1 <=? n)%nat
    then Ok (qc ++ [MCXgate (seq 0 (n - 1)) (n - 1)%nat])
    else Err CircuitError.
Proof.
  unfold qc_mcx. rewrite qubit_at_last.
  destruct (1 <=? n)%nat; [|reflexivity]. step_bind.
  replace (Z.to_nat (Z.of_nat n - 1)) with (n - 1)%nat by lia. reflexivity.
Qed.

Lemma flip_loop (n : nat) (l : list (nat * ascii)) (qc : circuit nat) :
  for_each l
    (fun '(i, bit) qc =>
       if Ascii.eqb bit "0" then qc_x n (Z.of_nat i) qc else Ok qc)
    qc
  = if forallb (fun i => (i <? n)%nat) (zeros_of l)
    then Ok (qc ++ map Xgate (zeros_of l))
    else Err CircuitError.
Proof.
  revert qc. induction l as [|[i c] l IH]; intros qc.
  - cbn. rewrite app_nil_r. reflexivity.
  - cbn [for_each]. unfold zeros_of in *. cbn [List.filter snd].
    destruct (Ascii.eqb c "0").
    + cbn [map fst forallb]. unfold qc_x. rewrite qubit_at_nat.
      destruct (i <? n)%nat; [|reflexivity].
      step_bind. rewrite IH. cbn [andb].
      destruct (forallb _ _); [|reflexivity].
      rewrite <- app_assoc. reflexivity.
    + step_bind. apply IH.
Qed.

Lemma flip_zeros_closed (n : nat) (b : string) (qc : circuit nat) :
  flip_zeros n b qc
  = if forallb (fun i => (i <? n)%nat) (zero_positions b)
    then Ok (qc ++ map Xgate (zero_positions b))
    else Err CircuitError.
Proof. apply flip_loop. Qed.

Lemma oracle_loop (n : nat) (vs : list string) (qc : circuit nat) :
  for_each vs
    (fun bitstring oracle =>
       oracle ← flip_zeros n bitstring oracle;
       oracle ← qc_h n (Z.of_nat n - 1) oracle;
       oracle ← qc_mcx n (Z.of_nat n - 1) (Z.of_nat n - 1) oracle;
       oracle ← qc_h n (Z.of_nat n - 1) oracle;
       flip_zeros n bitstring oracle)
    qc
  = if oracle_fits n vs then Ok (qc ++ flat_map (oracle_block n) vs)
    else Err CircuitError.
Proof.
  revert qc. induction vs as [|b vs IH]; intros qc.
  - cbn. rewrite app_nil_r. reflexivity.
  - change (oracle_fits n (b :: vs))
      with ((1 <=? n)%nat
            && forallb (fun i => (i <? n)%nat) (zero_positions b)
            && oracle_fits n vs).
    cbn [for_each flat_map]. rewrite !flip_zeros_closed.
    destruct (forallb (fun i => (i <? n)%nat) (zero_positions b)) eqn:Hz;
      [|rewrite andb_false_r; reflexivity].
    step_bind. rewrite qc_h_last.
    destruct (1 <=? n)%nat eqn:Hn; [|reflexivity].
    step_bind. rewrite qc_mcx_last, Hn. step_bind.
    rewrite qc_h_last, Hn. step_bind.
    rewrite flip_zeros_closed, Hz. step_bind.
    rewrite IH. cbn [andb].
    destruct (oracle_fits n vs); [|reflexivity].
    unfold oracle_block, flip_all_ones.
    rewrite <- !app_assoc. reflexivity.
Qed.

Lemma oracle_empty_register (b : string) (vs : list string) :
  create_hashed_oracle 0 (b :: vs) = Err CircuitError.
Proof.
  unfold create_hashed_oracle. rewrite (oracle_loop 0 (b :: vs) []).
  reflexivity.
Qed.

(** X11: the oracle in closed form.  On a register of at least two
    qubits [create_hashed_oracle] returns exactly when every qubit it
    must invert exists, and raises [CircuitError] otherwise; what it
    returns is one block per marked bit-string, in order: X on the qubits
    where the bit-string has a 0 (counted from the right), the Hadamard
    sandwich around the multi-controlled X onto the last qubit, and the
    same X gates again.  On an empty register every non-empty list of
    marked states raises [CircuitError]. *)
Theorem create_hashed_oracle_closed_form (n : nat) (vs : list string) :
  ((2 <= n)%nat ->
   create_hashed_oracle n vs
   = if forallb (fun b => forallb (fun i => (i <? n)%nat) (zero_positions b))
                vs
     then Ok (flat_map (oracle_block n) vs)
     else Err CircuitError)
  /\ (vs <> [] -> create_hashed_oracle 0 vs = Err CircuitError).
Proof.
  split.
  - intros Hn. unfold create_hashed_oracle.
    rewrite (oracle_loop n vs []). unfold oracle_fits.
    replace (1 <=? n)%nat with true by (symmetry; apply Nat.leb_le; lia).
    reflexivity.
  - destruct vs as [|b vs]; [congruence|].
    intros _. apply oracle_empty_register.
Qed.

Lemma create_hashed_oracle_closed_form_witness :
  create_hashed_oracle 2 ["01"; "110"]
  = (if forallb (fun b => forallb (fun i => (i <? 2)%nat) (zero_positions b))
                ["01"; "110"]
     then Ok (flat_map (oracle_block 2) ["01"; "110"])
     else Err CircuitError)
  /\ create_hashed_oracle 0 ["01"; "110"] = Err CircuitError.
Proof.
  split.
  - apply (create_hashed_oracle_closed_form 2 ["01"; "110"]). lia.
  - apply (create_hashed_oracle_closed_form 2 ["01"; "110"]). discriminate.
Defined.

Lemma diffuser_closed_form (n : nat) :
  diffuser n
  = if (1 <=? n)%nat then Ok (diffuser_gates n) else Err CircuitError.
Proof.
  unfold diffuser. cbv zeta. rewrite qc_h_last.
  destruct (1 <=? n)%nat eqn:Hn; [|reflexivity]. step_bind.
  rewrite qc_mcx_last, Hn. step_bind. rewrite qc_h_last, Hn. step_bind.
  unfold qc_x_all, qc_h_all, diffuser_gates, flip_all_ones. cbn [app].
  rewrite <- !app_assoc. reflexivity.
Qed.

(** X12: [diffuser] raises [CircuitError] on an empty register; on a
    register of at least two qubits it returns [4n + 3] gates: H and X on
    every qubit, the phase flip on the all-ones state, X and H on every
    qubit. *)
Theorem diffuser_builds (n : nat) :
  diffuser 0 = Err CircuitError
  /\ ((2 <= n)%nat ->
      diffuser n = Ok (diffuser_gates n)
      /\ List.length (diffuser_gates n) = (4 * n + 3)%nat).
Proof.
  split; [reflexivity|]. intros Hn. rewrite diffuser_closed_form.
  replace (1 <=? n)%nat with true by (symmetry; apply Nat.leb_le; lia).
  split; [reflexivity|].
  unfold diffuser_gates, flip_all_ones.
  rewrite !length_app, !length_map, !length_seq. cbn [List.length]. lia.
Qed.

Lemma diffuser_builds_witness :
  diffuser 2 = Ok (diffuser_gates 2)
  /\ List.length (diffuser_gates 2) = (4 * 2 + 3)%nat.
Proof. apply (diffuser_builds 2). lia. Defined.

Lemma search_loop (n its s0 : nat) (O D : circuit nat) (qc : list instr) :
  fold_left (fun qc _ => grover_iteration n O D qc) (seq s0 its) qc
  = qc ++ concat (repeat [Append O (seq 0 n); Append D (seq 0 n)] its).
Proof.
  revert s0 qc. induction its as [|its IH]; intros s0 qc.
  - cbn. rewrite app_nil_r. reflexivity.
  - cbn [seq fold_left repeat concat]. rewrite IH. unfold grover_iteration.
    rewrite <- app_assoc. reflexivity.
Qed.

Lemma gate_sequence_app (a b : list instr) :
  gate_sequence (a ++ b) = gate_sequence a ++ gate_sequence b.
Proof. apply flat_map_app. Qed.

Lemma gate_sequence_prims (f : nat -> gate nat) (l : list nat) :
  gate_sequence (map (fun q => Prim (f q)) l) = map f l.
Proof.
  induction l as [|q l IH]; [reflexivity|].
  cbn [map gate_sequence flat_map app]. f_equal. exact IH.
Qed.

Lemma gate_sequence_measures (n : nat) : gate_sequence (measure_all n) = [].
Proof.
  unfold measure_all. induction (seq 0 n) as [|q l IH]; [reflexivity|].
  cbn [map gate_sequence flat_map app]. exact IH.
Qed.

Lemma gate_sequence_iterations (n its : nat) (O D : circuit nat) :
  gate_sequence (concat (repeat [Append O (seq 0 n); Append D (seq 0 n)] its))
  = concat (repeat (O ++ D) its).
Proof.
  induction its as [|its IH]; [reflexivity|].
  cbn [repeat concat]. rewrite gate_sequence_app, IH. f_equal.
  apply (grover_iteration_sequence n O D).
Qed.

(** X13: the basic search circuit, when its oracle builds on a register
    of at least two qubits: the instruction list ends with one
    measurement per qubit (qubit [q] into bit [q]) and measures nowhere
    else, and the gates it stands for are a Hadamard on every qubit
    followed by [iterations] copies of the oracle's gates and then the
    diffuser's. *)
Theorem grover_basic_search_circuit_structure (n : nat) (vs : list string)
    (iterations : nat) (O : circuit nat) :
  (2 <= n)%nat ->
  create_hashed_oracle n vs = Ok O ->
  exists body,
    grover_basic_search_circuit n vs iterations = Ok (body ++ measure_all n)
    /\ existsb is_measure body = false
    /\ gate_sequence (body ++ measure_all n)
       = map Hgate (seq 0 n)
         ++ concat (repeat (O ++ diffuser_gates n) iterations).
Proof.
  intros Hn HO.
  exists (map (fun q => Prim (Hgate q)) (seq 0 n)
          ++ concat (repeat [Append O (seq 0 n);
                             Append (diffuser_gates n) (seq 0 n)] iterations)).
  split; [|split].
  - unfold grover_basic_search_circuit. rewrite HO, diffuser_closed_form.
    replace (1 <=? n)%nat with true by (symmetry; apply Nat.leb_le; lia).
    step_bind. cbv zeta. rewrite search_loop. reflexivity.
  - rewrite existsb_app. apply orb_false_iff. split.
    + induction (seq 0 n) as [|q l IH]; [reflexivity | exact IH].
    + induction iterations as [|k IH]; [reflexivity | exact IH].
  - rewrite !gate_sequence_app, gate_sequence_measures, app_nil_r.
    rewrite (gate_sequence_prims Hgate), gate_sequence_iterations.
    reflexivity.
Qed.

Lemma grover_basic_search_circuit_structure_witness :
  exists body,
    grover_basic_search_circuit 2 ["10"] 1 = Ok (body ++ measure_all 2)
    /\ existsb is_measure body = false
    /\ gate_sequence (body ++ measure_all 2)
       = map Hgate (seq 0 2)
         ++ concat (repeat ([Xgate 0%nat; Hgate 1%nat;
                             MCXgate [0%nat] 1%nat; Hgate 1%nat;
                             Xgate 0%nat] ++ diffuser_gates 2) 1).
Proof.
  apply (grover_basic_search_circuit_structure 2 ["10"] 1).
  - lia.
  - vm_compute. reflexivity.
Defined.

Lemma zero_positions_bound (b : string) :
  forallb (fun i => (i <? String.length b)%nat) (zero_positions b) = true.
Proof.
  apply forallb_forall. intros i Hi. apply Nat.ltb_lt.
  unfold zero_positions, zeros_of in Hi.
  apply in_map_iff in Hi as ([j c] & <- & Hjc).
  apply filter_In in Hjc as [Hjc _]. unfold enumerate in Hjc.
  apply in_combine_l in Hjc. apply in_seq in Hjc.
  rewrite length_rev in Hjc. cbn [fst].
  rewrite <- (chars_length b). lia.
Qed.

Lemma grover_operator_empty_register (vs : list string) :
  grover_operator 0 vs = Err CircuitError.
Proof.
  unfold grover_operator. destruct vs as [|b vs].
  - reflexivity.
  - rewrite oracle_empty_register. reflexivity.
Qed.

Lemma basic_search_empty_register (vs : list string) (iterations : nat) :
  grover_basic_search_circuit 0 vs iterations = Err CircuitError.
Proof.
  unfold grover_basic_search_circuit. destruct vs as [|b vs].
  - reflexivity.
  - rewrite oracle_empty_register. reflexivity.
Qed.

(** X14: a text exactly as long as the first search value has a single
    window; the scan then returns an index register of no qubits, on
    which neither the Grover operator nor the basic search circuit can be
    built: both raise [CircuitError], whatever the valid states and the
    iteration count. *)
Theorem single_window_has_no_circuit (text first : string)
    (rest : list string) (hb : nat) (pi : Z) vs n nq subs tgs :
  classical_preprocessing text (first :: rest) hb pi
  = Ok (vs, n, nq, subs, tgs) ->
  String.length text = String.length first ->
  n = 1 /\ nq = 0
  /\ grover_operator (Z.to_nat nq) vs = Err CircuitError
  /\ forall iterations,
       grover_basic_search_circuit (Z.to_nat nq) vs iterations
       = Err CircuitError.
Proof.
  intros H Hlen.
  apply preprocessing_inversion in H
    as (f & r & p & Hsvs & _ & _ & Hn & -> & _ & _ & _).
  injection Hsvs as <- <-.
  assert (n = 1) as -> by (unfold len in Hn; lia).
  split; [reflexivity|]. split; [reflexivity|].
  change (Z.to_nat (Z.log2_up 1)) with 0%nat.
  split; [apply grover_operator_empty_register|].
  intros its. apply basic_search_empty_register.
Qed.

Lemma single_window_has_no_circuit_witness :
  1 = 1 /\ 0 = 0
  /\ grover_operator (Z.to_nat 0) ["0"] = Err CircuitError
  /\ forall iterations,
       grover_basic_search_circuit (Z.to_nat 0) ["0"] iterations
       = Err CircuitError.
Proof.
  eapply (single_window_has_no_circuit "ab" "ab" [] 8 1).
  - vm_compute. reflexivity.
  - reflexivity.
Defined.

(** X15: the scan's output always fits the circuits built from it.  With
    at least three windows the index register has at least two qubits,
    the oracle builds on it from the scan's valid states without raising,
    one block per valid state, and the Grover operator is the diffuser's
    gates followed by those blocks. *)
Theorem preprocessing_output_builds_operator (text : string)
    (svs : list string) (hb : nat) (pi : Z) vs n nq subs tgs :
  classical_preprocessing text svs hb pi = Ok (vs, n, nq, subs, tgs) ->
  3 <= n ->
  2 <= nq
  /\ create_hashed_oracle (Z.to_nat nq) vs
     = Ok (flat_map (oracle_block (Z.to_nat nq)) vs)
  /\ grover_operator (Z.to_nat nq) vs
     = Ok (diffuser_gates (Z.to_nat nq)
           ++ flat_map (oracle_block (Z.to_nat nq)) vs).
Proof.
  intros H Hn.
  apply preprocessing_inversion in H
    as (f & r & p & _ & _ & _ & _ & -> & -> & _ & _).
  assert (2 <= Z.log2_up n) as Hq.
  { change 2 with (Z.log2_up 3) at 1. apply Z.log2_up_le_mono. exact Hn. }
  split; [exact Hq|].
  set (vs := flat_map _ _).
  assert (oracle_fits (Z.to_nat (Z.log2_up n)) vs = true) as Hfits.
  { apply forallb_forall. intros s Hs.
    apply valid_states_width in Hs; [|lia].
    apply andb_true_iff. split; [apply Nat.leb_le; lia|].
    rewrite <- Hs. apply zero_positions_bound. }
  assert (create_hashed_oracle (Z.to_nat (Z.log2_up n)) vs
          = Ok (flat_map (oracle_block (Z.to_nat (Z.log2_up n))) vs)) as HO.
  { unfold create_hashed_oracle.
    rewrite (oracle_loop _ vs []), Hfits. reflexivity. }
  split; [exact HO|].
  apply grover_operator_sequence; [exact HO|].
  rewrite diffuser_closed_form.
  replace (1 <=? _)%nat with true by (symmetry; apply Nat.leb_le; lia).
  reflexivity.
Qed.

Lemma preprocessing_output_builds_operator_witness :
  2 <= 2
  /\ create_hashed_oracle (Z.to_nat 2) ["00"; "00"; "11"; "11"]
     = Ok (flat_map (oracle_block (Z.to_nat 2)) ["00"; "00"; "11"; "11"])
  /\ grover_operator (Z.to_nat 2) ["00"; "00"; "11"; "11"]
     = Ok (diffuser_gates (Z.to_nat 2)
           ++ flat_map (oracle_block (Z.to_nat 2))
                ["00"; "00"; "11"; "11"]).
Proof.
  eapply (preprocessing_output_builds_operator "abcab" ["ab"; "zb"] 8 1).
  - vm_compute. reflexivity.
  - lia.
Defined.

(** ** circuits.py: what the loaded gates compute *)

Lemma idx_flip_loop (num_idx : nat) (l : list (nat * ascii))
    (qc : circuit qubit) :
  for_each l
    (fun '(k, idx_bit) qc =>
       if Ascii.eqb idx_bit "0"
       then q ← reg_item num_idx k; Ok (qc ++ [Xgate (Idx q)])
       else Ok qc)
    qc
  = if forallb (fun k => (k <? num_idx)%nat) (zeros_of l)
    then Ok (qc ++ map (fun k => Xgate (Idx k)) (zeros_of l))
    else Err IndexError.
Proof.
  revert qc. induction l as [|[k c] l IH]; intros qc.
  - cbn. rewrite app_nil_r. reflexivity.
  - cbn [for_each]. unfold zeros_of in *. cbn [List.filter snd].
    destruct (Ascii.eqb c "0").
    + cbn [map fst forallb]. unfold reg_item.
      destruct (k <? num_idx)%nat; [|reflexivity].
      step_bind. rewrite IH. cbn [andb].
      destruct (forallb _ _); [|reflexivity].
      rewrite <- app_assoc. reflexivity.
    + step_bind. apply IH.
Qed.

Lemma index_flip_gates_closed (num_idx : nat) (index_bin : string)
    (xs : circuit qubit) :
  index_flip_gates num_idx index_bin = Ok xs ->
  xs = map (fun k => Xgate (Idx k)) (zeros_of (enumerate (chars index_bin))).
Proof.
  unfold index_flip_gates, flip_index_zeros. rewrite idx_flip_loop.
  destruct (forallb _ _); [|discriminate].
  intros H. injection H as <-. reflexivity.
Qed.

Lemma run_x_gates (ks : list nat) (idx v : list bool) :
  run (map (fun k => Xgate (Idx k)) ks) (mk_basis idx v)
  = Some (mk_basis (fold_left (fun l k => alter negb k l) ks idx) v).
Proof.
  revert idx. induction ks as [|k ks IH]; intros idx; [reflexivity|].
  cbn [map run step flip idx_bits val_bits fold_left]. apply IH.
Qed.

Lemma toggle_loop (l : list ascii) (pre idx : list bool) :
  List.length idx = List.length l ->
  fold_left (fun l k => alter negb k l)
            (zeros_of (combine (seq (List.length pre) (List.length l)) l))
            (pre ++ idx)
  = pre ++ toggle_zeros idx l.
Proof.
  revert pre idx. induction l as [|c l IH]; intros pre idx Hlen.
  - destruct idx; [reflexivity | discriminate].
  - destruct idx as [|b idx]; [discriminate|].
    cbn [List.length] in Hlen. injection Hlen as Hlen.
    cbn [List.length seq combine toggle_zeros].
    unfold zeros_of in *. cbn [List.filter snd].
    specialize (IH (pre ++ [xorb b (Ascii.eqb c "0")]) idx Hlen).
    rewrite length_app in IH. cbn [List.length] in IH.
    rewrite Nat.add_1_r, <- !app_assoc in IH. cbn [app] in IH.
    destruct (Ascii.eqb c "0").
    + cbn [map fst fold_left].
      assert (alter negb (List.length pre) (pre ++ b :: idx)
              = pre ++ negb b :: idx) as ->.
      { rewrite <- (Nat.add_0_r (List.length pre)).
        rewrite alter_app_r. reflexivity. }
      rewrite xorb_true_r in *. exact IH.
    + rewrite xorb_false_r in *. exact IH.
Qed.

Lemma run_index_flips (index_bin : string) (idx v : list bool) :
  List.length idx = String.length index_bin ->
  run (map (fun k => Xgate (Idx k)) (zeros_of (enumerate (chars index_bin))))
      (mk_basis idx v)
  = Some (mk_basis (toggle_zeros idx (chars index_bin)) v).
Proof.
  intros Hlen. rewrite run_x_gates. f_equal. f_equal.
  rewrite <- chars_length in Hlen.
  apply (toggle_loop (chars index_bin) [] idx Hlen).
Qed.

Lemma toggle_zeros_twice (idx : list bool) (l : list ascii) :
  toggle_zeros (toggle_zeros idx l) l = idx.
Proof.
  revert l. induction idx as [|b idx IH]; intros [|c l]; try reflexivity.
  cbn [toggle_zeros]. rewrite IH. f_equal.
  destruct b, (Ascii.eqb c "0"); reflexivity.
Qed.

Lemma toggle_zeros_length (idx : list bool) (l : list ascii) :
  List.length (toggle_zeros idx l) = List.length idx.
Proof.
  revert l. induction idx as [|b idx IH]; intros [|c l]; try reflexivity.
  cbn [toggle_zeros List.length]. f_equal. apply IH.
Qed.

Lemma controls_read (pre l v : list bool) :
  forallb (read (mk_basis (pre ++ l) v))
          (map Idx (seq (List.length pre) (List.length l)))
  = forallb id l.
Proof.
  revert pre. induction l as [|b l IH]; intros pre; [reflexivity|].
  cbn [List.length seq map forallb read idx_bits].
  rewrite app_nth2, Nat.sub_diag by lia. cbn [nth id]. f_equal.
  specialize (IH (pre ++ [b])). rewrite length_app in IH.
  cbn [List.length] in IH. rewrite Nat.add_1_r, <- app_assoc in IH.
  exact IH.
Qed.

(** The block of one item, run on a basis state: the index bits come
    back unchanged, and the value qubit of the item is inverted exactly
    when the item's bit is 1 and the index bits are those of its
    position. *)
Lemma block_run (num_idx num_val : nat) (it : nat * (nat * ascii))
    (g : circuit qubit) (idx v : list bool) :
  block num_idx num_val it = Ok g ->
  List.length idx = num_idx ->
  String.length (format_0b num_idx (N.of_nat (fst it))) = num_idx ->
  run g (mk_basis idx v) = Some (mk_basis idx (item_action num_idx idx it v)).
Proof.
  intros Hg Hidx Hfmt. unfold block in Hg. unfold item_action.
  destruct (Ascii.eqb (snd (snd it)) "1"); cbn [andb].
  - destruct (index_flip_gates num_idx _) as [xs|e] eqn:Hxs; [|discriminate].
    apply index_flip_gates_closed in Hxs. subst xs.
    cbn [Py.bind mbind result_bind] in Hg.
    destruct (reg_item num_val _) as [t|e] eqn:Ht; [|discriminate].
    cbn [Py.bind mbind result_bind] in Hg. injection Hg as <-.
    unfold reg_item in Ht. destruct (_ <? _)%nat; [|discriminate].
    injection Ht as <-.
    set (fmt := format_0b num_idx (N.of_nat (fst it))) in *.
    rewrite run_app, run_index_flips by congruence.
    cbn [run step].
    assert (forallb (read (mk_basis (toggle_zeros idx (chars fmt)) v))
                    (map Idx (seq 0 num_idx))
            = fires num_idx idx (fst it)) as ->.
    { unfold fires. fold fmt.
      rewrite <- (controls_read [] (toggle_zeros idx (chars fmt)) v).
      cbn [app List.length]. rewrite toggle_zeros_length, Hidx. reflexivity. }
    destruct (fires num_idx idx (fst it)); cbn [flip idx_bits val_bits].
    + rewrite run_index_flips
        by (rewrite toggle_zeros_length; congruence).
      rewrite toggle_zeros_twice. reflexivity.
    + rewrite run_index_flips
        by (rewrite toggle_zeros_length; congruence).
      rewrite toggle_zeros_twice. reflexivity.
  - injection Hg as <-. reflexivity.
Qed.

Lemma blocks_run (num_idx num_val : nat) (items : list (nat * (nat * ascii)))
    (gs : list (circuit qubit)) (idx v : list bool) :
  Forall2 (fun it g => block num_idx num_val it = Ok g) items gs ->
  List.length idx = num_idx ->
  Forall (fun it => String.length (format_0b num_idx (N.of_nat (fst it)))
                    = num_idx) items ->
  run (concat gs) (mk_basis idx v)
  = Some (mk_basis idx
            (fold_left (fun v it => item_action num_idx idx it v) items v)).
Proof.
  intros H Hidx. revert v.
  induction H as [|it g items gs Hg _ IH]; intros v Hw; [reflexivity|].
  apply Forall_cons in Hw as [Hit Hrest].
  cbn [concat fold_left].
  rewrite run_app, (block_run _ _ _ _ _ _ Hg Hidx Hit).
  apply IH. exact Hrest.
Qed.

Lemma entry_fold (num_idx : nat) (idx : list bool) (i : nat)
    (tcs : list (nat * ascii)) (v : list bool) :
  fold_left (fun v it => item_action num_idx idx it v) (map (pair i) tcs) v
  = if fires num_idx idx i then xor_entry tcs v else v.
Proof.
  unfold xor_entry. revert v. induction tcs as [|[t c] tcs IH]; intros v.
  - cbn. destruct (fires _ _ _); reflexivity.
  - cbn [map fold_left]. rewrite IH. unfold item_action. cbn [fst snd].
    destruct (fires num_idx idx i); [|rewrite andb_false_r; reflexivity].
    rewrite andb_true_r. reflexivity.
Qed.

Lemma items_fold (num_idx : nat) (idx : list bool) (l : list (nat * string))
    (v : list bool) :
  fold_left (fun v it => item_action num_idx idx it v)
    (flat_map (fun iv => map (pair (fst iv))
                             (enumerate (rev (chars (snd iv))))) l) v
  = fold_left (fun v iv => if fires num_idx idx (fst iv)
                           then xor_entry (enumerate (rev (chars (snd iv)))) v
                           else v) l v.
Proof.
  revert v. induction l as [|iv l IH]; intros v; [reflexivity|].
  cbn [flat_map fold_left]. rewrite fold_left_app, entry_fold. apply IH.
Qed.

Lemma fold_unaddressed (num_idx : nat) (idx : list bool)
    (l : list (nat * string)) (v : list bool) :
  (forall iv, In iv l -> fires num_idx idx (fst iv) = false) ->
  fold_left (fun v iv => if fires num_idx idx (fst iv)
                         then xor_entry (enumerate (rev (chars (snd iv)))) v
                         else v) l v
  = v.
Proof.
  induction l as [|iv l IH]; intros H; [reflexivity|].
  cbn [fold_left]. rewrite (H iv) by (left; reflexivity).
  apply IH. intros iv' Hin. apply H. right. exact Hin.
Qed.

Lemma fold_addressed (num_idx : nat) (idx : list bool) (l : list string)
    (off i0 : nat) (s : string) (v : list bool) :
  l !! i0 = Some s ->
  (forall i, (off <= i < off + List.length l)%nat ->
             (fires num_idx idx i = true <-> i = (off + i0)%nat)) ->
  fold_left (fun v iv => if fires num_idx idx (fst iv)
                         then xor_entry (enumerate (rev (chars (snd iv)))) v
                         else v)
            (combine (seq off (List.length l)) l) v
  = xor_entry (enumerate (rev (chars s))) v.
Proof.
  revert off i0 v. induction l as [|x l IH]; intros off i0 v Hs Hf.
  - destruct i0; discriminate.
  - cbn [List.length seq combine fold_left fst snd].
    cbn [List.length] in Hf. destruct i0 as [|k].
    + injection Hs as ->.
      assert (fires num_idx idx off = true) as -> by (apply Hf; lia).
      apply fold_unaddressed. intros [i y] Hin. cbn [fst].
      apply in_combine_l in Hin. apply in_seq in Hin.
      destruct (fires num_idx idx i) eqn:Hi; [|reflexivity].
      apply Hf in Hi; lia.
    + change ((x :: l) !! S k) with (l !! k) in Hs.
      assert (fires num_idx idx off = false) as ->.
      { destruct (fires num_idx idx off) eqn:Hi; [|reflexivity].
        apply Hf in Hi; lia. }
      apply (IH (S off) k v Hs). intros i Hi.
      rewrite (Hf i) by lia. lia.
Qed.

Lemma toggle_all_true (idx : list bool) (l : list ascii) :
  List.length idx = List.length l ->
  forallb is_bit l = true ->
  (forallb id (toggle_zeros idx l) = true
   <-> idx = map (fun c => Ascii.eqb c "1") l).
Proof.
  revert l. induction idx as [|b idx IH]; intros [|c l] Hlen Hbits;
    try discriminate.
  - split; reflexivity.
  - cbn [List.length] in Hlen. injection Hlen as Hlen.
    cbn [forallb] in Hbits. apply andb_true_iff in Hbits as [Hc Hbits].
    cbn [toggle_zeros forallb map id].
    rewrite andb_true_iff, (IH l Hlen Hbits).
    assert (xorb b (Ascii.eqb c "0") = true <-> b = Ascii.eqb c "1") as Hx.
    { unfold is_bit in Hc.
      destruct (Ascii.eqb_spec c "0") as [->|_].
      - destruct b; cbn; split; congruence.
      - cbn [orb] in Hc. rewrite Hc. destruct b; cbn; split; congruence. }
    rewrite Hx. split.
    + intros [-> ->]. reflexivity.
    + intros H. injection H as -> ->. split; reflexivity.
Qed.

Lemma fires_iff (num_idx : nat) (idx : list bool) (i : nat) :
  (1 <= num_idx)%nat ->
  Z.of_nat i < 2 ^ Z.of_nat num_idx ->
  List.length idx = num_idx ->
  (fires num_idx idx i = true <-> idx = index_bits num_idx i).
Proof.
  intros Hn Hi Hidx. unfold fires, index_bits. apply toggle_all_true.
  - rewrite chars_length, format_0b_length; [exact Hidx | exact Hn |].
    rewrite nat_N_Z. exact Hi.
  - pose proof (format_0b_is_bitstring num_idx (N.of_nat i)) as Hb.
    unfold is_bitstring in Hb. apply andb_true_iff in Hb as [_ Hb]. exact Hb.
Qed.

Lemma big_endian_of_bits (s : string) :
  big_endian_value s
  = fold_left (fun acc (b : bool) => 2 * acc + (if b then 1 else 0))
              (map (fun c => Ascii.eqb c "1") (chars s)) 0.
Proof.
  unfold big_endian_value.
  assert (forall l a,
            fold_left (fun acc c => 2 * acc + bit_val c) l a
            = fold_left (fun acc (b : bool) => 2 * acc + (if b then 1 else 0))
                        (map (fun c => Ascii.eqb c "1") l) a) as H.
  { induction l as [|c l IH]; intros a; [reflexivity|].
    cbn [map fold_left]. rewrite IH. reflexivity. }
  apply H.
Qed.

(** Different positions are addressed by different index bits. *)
Lemma index_bits_inj (num_idx i j : nat) :
  index_bits num_idx i = index_bits num_idx j -> i = j.
Proof.
  intros H. apply Nat2N.inj, N2Z.inj.
  rewrite <- (format_0b_value num_idx (N.of_nat i)).
  rewrite <- (format_0b_value num_idx (N.of_nat j)).
  rewrite !big_endian_of_bits. unfold index_bits in H. rewrite H.
  reflexivity.
Qed.

Lemma xor_entry_length (tcs : list (nat * ascii)) (v : list bool) :
  List.length (xor_entry tcs v) = List.length v.
Proof.
  unfold xor_entry. revert v.
  induction tcs as [|[t c] tcs IH]; intros v; [reflexivity|].
  cbn [fold_left fst snd]. rewrite IH.
  destruct (Ascii.eqb c "1"); [apply length_alter | reflexivity].
Qed.

Lemma nth_alter_negb (k t : nat) (v : list bool) :
  (k < List.length v)%nat ->
  nth t (alter negb k v) false
  = if (t =? k)%nat then negb (nth t v false) else nth t v false.
Proof.
  intros Hk. rewrite !nth_lookup, list_lookup_alter.
  destruct (Nat.eqb_spec t k) as [->|Hne].
  - rewrite decide_True by reflexivity.
    destruct (lookup_lt_is_Some_2 v k Hk) as [b ->]. reflexivity.
  - rewrite decide_False by congruence. reflexivity.
Qed.

Lemma xor_entry_nth (l : list ascii) (off : nat) (v : list bool) (t : nat) :
  (forall j, (j < List.length l)%nat ->
             Ascii.eqb (nth j l "0"%char) "1" = true ->
             (off + j < List.length v)%nat) ->
  nth t (xor_entry (combine (seq off (List.length l)) l) v) false
  = xorb (nth t v false)
         (if (off <=? t)%nat
          then Ascii.eqb (nth (t - off) l "0"%char) "1" else false).
Proof.
  unfold xor_entry. revert off v. induction l as [|c l IH]; intros off v Hb.
  - cbn [List.length seq combine fold_left].
    destruct (off <=? t)%nat; [destruct (t - off)%nat|]; cbn;
      rewrite xorb_false_r; reflexivity.
  - cbn [List.length seq combine fold_left fst snd].
    rewrite IH.
    + destruct (Ascii.eqb c "1") eqn:Hc.
      * rewrite nth_alter_negb
          by (specialize (Hb 0%nat); cbn in Hb; rewrite Nat.add_0_r in Hb;
              apply Hb; [lia | exact Hc]).
        destruct (Nat.eqb_spec t off) as [->|Hne].
        -- replace (S off <=? off)%nat with false
             by (symmetry; apply Nat.leb_gt; lia).
           rewrite Nat.leb_refl, Nat.sub_diag. cbn [nth]. rewrite Hc.
           destruct (nth off v false); reflexivity.
        -- destruct (Nat.leb_spec (S off) t) as [Hle|Hgt].
           ++ replace (off <=? t)%nat with true
                by (symmetry; apply Nat.leb_le; lia).
              replace (t - off)%nat with (S (t - S off)) by lia.
              reflexivity.
           ++ replace (off <=? t)%nat with false
                by (symmetry; apply Nat.leb_gt; lia).
              reflexivity.
      * destruct (Nat.leb_spec (S off) t) as [Hle|Hgt].
        -- replace (off <=? t)%nat with true
             by (symmetry; apply Nat.leb_le; lia).
           replace (t - off)%nat with (S (t - S off)) by lia.
           reflexivity.
        -- destruct (Nat.leb_spec off t) as [Hle|Hgt']; [|reflexivity].
           replace (t - off)%nat with 0%nat by lia. cbn [nth]. rewrite Hc.
           reflexivity.
    + intros j Hj H1. specialize (Hb (S j)). cbn [nth List.length] in Hb.
      assert (off + S j < List.length v)%nat as Hlt by (apply Hb; [lia | exact H1]).
      destruct (Ascii.eqb c "1"); [rewrite length_alter|]; lia.
Qed.

Lemma entries_fold_length (num_idx : nat) (idx : list bool)
    (l : list (nat * string)) (v : list bool) :
  List.length
    (fold_left (fun v iv => if fires num_idx idx (fst iv)
                            then xor_entry (enumerate (rev (chars (snd iv)))) v
                            else v) l v)
  = List.length v.
Proof.
  revert v. induction l as [|iv l IH]; intros v; [reflexivity|].
  cbn [fold_left]. rewrite IH.
  destruct (fires _ _ _); [apply xor_entry_length | reflexivity].
Qed.

Lemma Forall2_In_l {A B} (P : A -> B -> Prop) (xs : list A) (ys : list B)
    (x : A) :
  Forall2 P xs ys -> In x xs -> exists y, P x y.
Proof.
  induction 1 as [|x' y xs ys Hxy _ IH]; intros Hin; [destruct Hin|].
  destruct Hin as [->|Hin]; [exists y; exact Hxy | apply IH; exact Hin].
Qed.

Lemma load_items_member (array : list string) (i j : nat) (s : string)
    (c : ascii) :
  array !! i = Some s ->
  rev (chars s) !! j = Some c ->
  In (i, (j, c)) (load_items array).
Proof.
  intros Hs Hc. unfold load_items. apply in_flat_map. exists (i, s). split.
  - apply list_elem_of_In. apply (list_elem_of_lookup_2 _ i).
    apply (lookup_enumerate array 0 i s Hs).
  - cbn [fst snd]. apply in_map. apply list_elem_of_In.
    apply (list_elem_of_lookup_2 _ j).
    apply (lookup_enumerate (rev (chars s)) 0 j c Hc).
Qed.

(** Every 1 of a loaded entry has its value qubit. *)
Lemma loaded_bits_fit (num_idx num_val : nat) (array : list string)
    (gs : list (circuit qubit)) (i j : nat) (s : string) :
  Forall2 (fun it g => block num_idx num_val it = Ok g) (load_items array) gs ->
  array !! i = Some s ->
  (j < List.length (rev (chars s)))%nat ->
  Ascii.eqb (nth j (rev (chars s)) "0"%char) "1" = true ->
  (j < num_val)%nat.
Proof.
  intros Hgs Hs Hj H1.
  destruct (lookup_lt_is_Some_2 _ _ Hj) as [c Hc].
  rewrite (nth_lookup_Some _ _ _ _ Hc) in H1.
  pose proof (load_items_member array i j s c Hs Hc) as Hin.
  destruct (Forall2_In_l _ _ _ _ Hgs Hin) as [g Hg].
  unfold block in Hg. cbn [fst snd] in Hg. rewrite H1 in Hg.
  destruct (index_flip_gates _ _); [|discriminate].
  cbn [Py.bind mbind result_bind] in Hg. unfold reg_item in Hg.
  destruct (Nat.ltb_spec j num_val) as [Hlt|_]; [exact Hlt | discriminate].
Qed.

Lemma load_items_widths (num_idx : nat) (array : list string) :
  (1 <= num_idx)%nat ->
  Z.of_nat (List.length array) <= 2 ^ Z.of_nat num_idx ->
  Forall (fun it => String.length (format_0b num_idx (N.of_nat (fst it)))
                    = num_idx) (load_items array).
Proof.
  intros Hn Hcap. apply List.Forall_forall. intros [i [t c]] Hin.
  apply in_flat_map in Hin as ([i' s] & Hin1 & Hin2).
  apply in_map_iff in Hin2 as (tc & Heq & _). cbn [fst] in Heq.
  injection Heq as <- _. cbn [fst].
  unfold enumerate in Hin1. apply in_combine_l in Hin1. apply in_seq in Hin1.
  apply format_0b_length; [exact Hn | rewrite nat_N_Z; lia].
Qed.

Lemma index_bits_length (num_idx i : nat) :
  (1 <= num_idx)%nat ->
  Z.of_nat i < 2 ^ Z.of_nat num_idx ->
  List.length (index_bits num_idx i) = num_idx.
Proof.
  intros Hn Hi. unfold index_bits.
  rewrite length_map, chars_length.
  apply format_0b_length; [exact Hn | rewrite nat_N_Z; exact Hi].
Qed.

(** The loaded gates, run on a basis state. *)
Lemma loaded_gates_run (num_idx num_val : nat) (array : list string)
    (loaded : circuit qubit) (idx v : list bool) :
  load_array num_idx num_val array [] = Ok loaded ->
  (1 <= num_idx)%nat ->
  Z.of_nat (List.length array) <= 2 ^ Z.of_nat num_idx ->
  List.length idx = num_idx ->
  run loaded (mk_basis idx v)
  = Some (mk_basis idx (loaded_value num_idx idx array v)).
Proof.
  intros Hload Hn Hcap Hidx. rewrite load_array_items in Hload.
  apply (for_each_emitted _ _ (item_body_emits num_idx num_val)) in Hload.
  destruct Hload as (gs & Hgs & ->). cbn [app].
  rewrite (blocks_run _ _ _ _ _ _ Hgs Hidx
             (load_items_widths num_idx array Hn Hcap)).
  unfold load_items, loaded_value. rewrite items_fold. reflexivity.
Qed.

(** On the index bits of position [i] the value register receives the
    bits of entry [i], provided each 1 of the entry has its qubit. *)
Lemma addressed_value (num_idx : nat) (array : list string) (i : nat)
    (s : string) (v : list bool) (t : nat) :
  (1 <= num_idx)%nat ->
  Z.of_nat (List.length array) <= 2 ^ Z.of_nat num_idx ->
  array !! i = Some s ->
  (forall j, entry_bit s j = true -> (j < List.length v)%nat) ->
  nth t (loaded_value num_idx (index_bits num_idx i) array v) false
  = xorb (nth t v false) (entry_bit s t).
Proof.
  intros Hn Hcap Hs Hfit. unfold loaded_value, enumerate at 1.
  pose proof (lookup_lt_Some _ _ _ Hs) as Hi.
  rewrite (fold_addressed num_idx _ array 0 i s v Hs).
  - unfold enumerate. rewrite xor_entry_nth.
    + cbn [Nat.leb]. rewrite Nat.sub_0_r. reflexivity.
    + intros j _ H1. cbn [Nat.add]. apply Hfit. exact H1.
  - intros k Hk. cbn [Nat.add].
    rewrite fires_iff;
      [|exact Hn | lia | apply index_bits_length; [exact Hn | lia]].
    split.
    + intros H. symmetry. apply (index_bits_inj _ _ _ H).
    + intros ->. reflexivity.
Qed.

Lemma loaded_ones_fit (num_idx num_val : nat) (array : list string)
    (loaded : circuit qubit) (i j : nat) (s : string) :
  load_array num_idx num_val array [] = Ok loaded ->
  array !! i = Some s ->
  entry_bit s j = true ->
  (j < num_val)%nat.
Proof.
  intros Hload Hs Hj. rewrite load_array_items in Hload.
  apply (for_each_emitted _ _ (item_body_emits num_idx num_val)) in Hload.
  destruct Hload as (gs & Hgs & _). unfold entry_bit in Hj.
  destruct (Nat.lt_ge_cases j (List.length (rev (chars s)))) as [Hlt|Hge].
  - exact (loaded_bits_fit _ _ _ _ i j s Hgs Hs Hlt Hj).
  - rewrite nth_overflow in Hj by exact Hge. discriminate.
Qed.

(** X16: what the gates of [load_array] compute.  When the loader
    completes for an array that the index register can address, the
    gates it appended map every basis state to a basis state with the
    same index bits; if the index bits are those of array position [i]
    (the binary digits of [i], index qubit 0 most significant), every
    value qubit [t] is inverted exactly when the character [t] from the
    right of [array[i]] is 1, and if they are the bits of no position of
    the array the value register is left as it was. *)
Theorem load_array_looks_up (num_idx num_val : nat) (array : list string)
    (loaded : circuit qubit) (idx v : list bool) :
  load_array num_idx num_val array [] = Ok loaded ->
  (1 <= num_idx)%nat ->
  Z.of_nat (List.length array) <= 2 ^ Z.of_nat num_idx ->
  List.length idx = num_idx ->
  List.length v = num_val ->
  exists v',
    run loaded (mk_basis idx v) = Some (mk_basis idx v')
    /\ List.length v' = num_val
    /\ (forall i s,
          array !! i = Some s -> idx = index_bits num_idx i ->
          forall t, nth t v' false = xorb (nth t v false) (entry_bit s t))
    /\ ((forall i, (i < List.length array)%nat ->
                   idx <> index_bits num_idx i) ->
        v' = v).
Proof.
  intros Hload Hn Hcap Hidx Hv.
  exists (loaded_value num_idx idx array v).
  split; [apply (loaded_gates_run _ _ _ _ _ _ Hload Hn Hcap Hidx)|].
  split; [unfold loaded_value; rewrite entries_fold_length; exact Hv|].
  split.
  - intros i s Hs -> t. apply addressed_value; try assumption.
    intros j Hj. rewrite Hv.
    exact (loaded_ones_fit _ _ _ _ i j s Hload Hs Hj).
  - intros Hnone. apply fold_unaddressed. intros [i s] Hin. cbn [fst].
    unfold enumerate in Hin. apply in_combine_l in Hin. apply in_seq in Hin.
    destruct (fires num_idx idx i) eqn:Hi; [|reflexivity].
    apply fires_iff in Hi; [|exact Hn | lia | exact Hidx].
    exfalso. apply (Hnone i); [lia | exact Hi].
Qed.

Lemma load_array_looks_up_witness :
  exists v',
    run [Xgate (Idx 0); MCXgate [Idx 0; Idx 1] (Val 0); Xgate (Idx 0);
         Xgate (Idx 0); MCXgate [Idx 0; Idx 1] (Val 1); Xgate (Idx 0);
         MCXgate [Idx 0; Idx 1] (Val 1)]
        (mk_basis [false; true] [false; false])
    = Some (mk_basis [false; true] v')
    /\ List.length v' = 2%nat
    /\ (forall i s,
          ["00"; "11"; "00"; "10"] !! i = Some s ->
          [false; true] = index_bits 2 i ->
          forall t, nth t v' false
                    = xorb (nth t [false; false] false) (entry_bit s t))
    /\ ((forall i, (i < List.length ["00"; "11"; "00"; "10"])%nat ->
                   [false; true] <> index_bits 2 i) ->
        v' = [false; false]).
Proof.
  apply (load_array_looks_up 2 2 ["00"; "11"; "00"; "10"]).
  - vm_compute. reflexivity.
  - lia.
  - cbn. lia.
  - reflexivity.
  - reflexivity.
Defined.

Lemma zeros_of_enumerate_bound (l : list ascii) :
  forallb (fun k => (k <? List.length l)%nat) (zeros_of (enumerate l)) = true.
Proof.
  apply forallb_forall. intros k Hk. apply Nat.ltb_lt.
  unfold zeros_of in Hk. apply in_map_iff in Hk as ([j c] & <- & Hjc).
  apply filter_In in Hjc as [Hjc _]. unfold enumerate in Hjc.
  apply in_combine_l in Hjc. apply in_seq in Hjc. cbn [fst]. lia.
Qed.

Lemma load_items_inv (array : list string) (i j : nat) (c : ascii) :
  In (i, (j, c)) (load_items array) ->
  exists s, array !! i = Some s /\ rev (chars s) !! j = Some c.
Proof.
  intros Hin. unfold load_items in Hin.
  apply in_flat_map in Hin as ([i' s] & Hin1 & Hin2).
  apply in_map_iff in Hin2 as ([j' c'] & Heq & Hin2). cbn [fst snd] in *.
  injection Heq as -> -> ->. exists s.
  apply list_elem_of_In, list_elem_of_lookup_1 in Hin1 as [k Hk].
  apply list_elem_of_In, list_elem_of_lookup_1 in Hin2 as [k' Hk'].
  unfold enumerate in Hk, Hk'.
  apply enumerate_lookup in Hk as [-> Hk].
  apply enumerate_lookup in Hk' as [-> Hk'].
  split; assumption.
Qed.

Lemma Forall2_choose {A B} (P : A -> B -> Prop) (xs : list A) :
  (forall x, In x xs -> exists y, P x y) -> exists ys, Forall2 P xs ys.
Proof.
  induction xs as [|x xs IH]; intros H; [exists []; constructor|].
  destruct (H x (or_introl eq_refl)) as [y Hy].
  destruct IH as [ys Hys]; [intros x' Hx'; apply H; right; exact Hx'|].
  exists (y :: ys). constructor; assumption.
Qed.

Lemma load_blocks_iff (num_idx num_val : nat) (array : list string) :
  (1 <= num_idx)%nat ->
  Z.of_nat (List.length array) <= 2 ^ Z.of_nat num_idx ->
  ((exists gs, Forall2 (fun it g => block num_idx num_val it = Ok g)
                 (load_items array) gs)
   <-> (forall i s t, array !! i = Some s -> entry_bit s t = true ->
                      (t < num_val)%nat)).
Proof.
  intros Hn Hcap. split.
  - intros [gs Hgs] i s t Hs Ht. unfold entry_bit in Ht.
    destruct (Nat.lt_ge_cases t (List.length (rev (chars s)))) as [Hlt|Hge].
    + exact (loaded_bits_fit _ _ _ _ i t s Hgs Hs Hlt Ht).
    + rewrite nth_overflow in Ht by exact Hge. discriminate.
  - intros Hfit. apply Forall2_choose. intros [i [t c]] Hin.
    pose proof Hin as Hin'.
    apply load_items_inv in Hin as (s & Hs & Hc).
    unfold block. cbn [fst snd].
    destruct (Ascii.eqb c "1") eqn:H1; [|eexists; reflexivity].
    unfold index_flip_gates, flip_index_zeros. rewrite idx_flip_loop.
    pose proof (lookup_lt_Some _ _ _ Hs) as Hi.
    assert (String.length (format_0b num_idx (N.of_nat i)) = num_idx)
      as Hfmt by (apply format_0b_length; [exact Hn | rewrite nat_N_Z; lia]).
    pose proof (zeros_of_enumerate_bound
                  (chars (format_0b num_idx (N.of_nat i)))) as Hz.
    rewrite chars_length, Hfmt in Hz. rewrite Hz.
    cbn [Py.bind mbind result_bind app]. unfold reg_item.
    assert (t < num_val)%nat as Ht.
    { apply (Hfit i s t Hs). unfold entry_bit.
      rewrite (nth_lookup_Some _ _ _ _ Hc). exact H1. }
    apply Nat.ltb_lt in Ht. rewrite Ht. eexists. reflexivity.
Qed.

(** X17: when [load_array] completes.  For an array that the index
    register can address, the loader (and with it the unloader)
    completes exactly when every 1 of every entry has its value qubit:
    no entry has a 1 at a position, counted from the right, at or beyond
    the size of the value register.  Zeros may stick out. *)
Theorem load_array_completes_iff (num_idx num_val : nat)
    (array : list string) (qc : circuit qubit) :
  (1 <= num_idx)%nat ->
  Z.of_nat (List.length array) <= 2 ^ Z.of_nat num_idx ->
  ((exists loaded, load_array num_idx num_val array qc = Ok loaded)
   <-> (forall i s t, array !! i = Some s -> entry_bit s t = true ->
                      (t < num_val)%nat))
  /\ ((exists loaded, load_array num_idx num_val array qc = Ok loaded)
      <-> (exists unloaded,
             unload_array num_idx num_val array qc = Ok unloaded)).
Proof.
  intros Hn Hcap. split.
  - rewrite <- (load_blocks_iff num_idx num_val array Hn Hcap).
    rewrite load_array_items. split.
    + intros [loaded H].
      apply (for_each_emitted _ _ (item_body_emits num_idx num_val)) in H.
      destruct H as (gs & Hgs & _). exists gs. exact Hgs.
    + intros [gs Hgs]. eexists.
      apply (for_each_emit _ _ (item_body_emits num_idx num_val) _ _ _ Hgs).
  - rewrite load_array_items, unload_array_items. split.
    + intros [loaded H].
      apply (for_each_emitted _ _ (item_body_emits num_idx num_val)) in H.
      destruct H as (gs & Hgs & _). eexists.
      apply (for_each_emit _ _ (item_body_emits num_idx num_val)).
      apply Forall2_reversed. exact Hgs.
    + intros [unloaded H].
      apply (for_each_emitted _ _ (item_body_emits num_idx num_val)) in H.
      destruct H as (gs & Hgs & _). eexists.
      apply (for_each_emit _ _ (item_body_emits num_idx num_val)).
      apply Forall2_reversed in Hgs. rewrite rev_involutive in Hgs.
      exact Hgs.
Qed.

Lemma load_array_completes_iff_witness :
  ((exists loaded, load_array 2 1 ["01"; "001"; "10"] [] = Ok loaded)
   <-> (forall i s t, ["01"; "001"; "10"] !! i = Some s ->
                      entry_bit s t = true -> (t < 1)%nat))
  /\ ((exists loaded, load_array 2 1 ["01"; "001"; "10"] [] = Ok loaded)
      <-> (exists unloaded,
             unload_array 2 1 ["01"; "001"; "10"] [] = Ok unloaded)).
Proof.
  apply (load_array_completes_iff 2 1 ["01"; "001"; "10"] []).
  - lia.
  - cbn. lia.
Defined.

Lemma fold_left_push {A B} (f : A -> B -> A) (l : list B) (a : A) (x : B) :
  (forall a x y, f (f a x) y = f (f a y) x) ->
  f (fold_left f l a) x = fold_left f l (f a x).
Proof.
  intros Hc. revert a. induction l as [|y l IH]; intros a; [reflexivity|].
  cbn [fold_left]. rewrite IH, Hc. reflexivity.
Qed.

Lemma fold_left_rev_comm {A B} (f : A -> B -> A) (l : list B) (a : A) :
  (forall a x y, f (f a x) y = f (f a y) x) ->
  fold_left f (rev l) a = fold_left f l a.
Proof.
  intros Hc. revert a. induction l as [|x l IH]; intros a; [reflexivity|].
  cbn [rev fold_left]. rewrite fold_left_app, IH. cbn [fold_left].
  apply fold_left_push. exact Hc.
Qed.

Lemma item_action_comm (num_idx : nat) (idx : list bool)
    (a b : nat * (nat * ascii)) (v : list bool) :
  item_action num_idx idx b (item_action num_idx idx a v)
  = item_action num_idx idx a (item_action num_idx idx b v).
Proof.
  unfold item_action.
  destruct (_ && fires num_idx idx (fst a)), (_ && fires num_idx idx (fst b));
    try reflexivity.
  apply alter_negb_comm.
Qed.

(** X18: [unload_array] computes what [load_array] computes.  For an
    array that the index register can address, the gates the unloader
    appends change every basis state exactly as the gates of the loader
    do: the two sequences differ only in the order of blocks that
    commute. *)
Theorem unload_array_same_map (num_idx num_val : nat) (array : list string)
    (loaded unloaded : circuit qubit) (idx v : list bool) :
  load_array num_idx num_val array [] = Ok loaded ->
  unload_array num_idx num_val array [] = Ok unloaded ->
  (1 <= num_idx)%nat ->
  Z.of_nat (List.length array) <= 2 ^ Z.of_nat num_idx ->
  List.length idx = num_idx ->
  run unloaded (mk_basis idx v) = run loaded (mk_basis idx v)
  /\ exists v', run loaded (mk_basis idx v) = Some (mk_basis idx v').
Proof.
  intros Hload Hunload Hn Hcap Hidx.
  rewrite load_array_items in Hload. rewrite unload_array_items in Hunload.
  apply (for_each_emitted _ _ (item_body_emits num_idx num_val)) in Hload.
  apply (for_each_emitted _ _ (item_body_emits num_idx num_val)) in Hunload.
  destruct Hload as (gs & Hgs & ->). destruct Hunload as (gs' & Hgs' & ->).
  cbn [app].
  pose proof (load_items_widths num_idx array Hn Hcap) as Hw.
  rewrite (blocks_run _ _ _ _ _ _ Hgs Hidx Hw).
  rewrite (blocks_run _ _ _ _ _ _ Hgs' Hidx)
    by (apply Forall_rev; exact Hw).
  split; [|eexists; reflexivity].
  rewrite fold_left_rev_comm; [reflexivity|].
  intros a x y. apply item_action_comm.
Qed.

Lemma unload_array_same_map_witness :
  run [MCXgate [Idx 0; Idx 1] (Val 1);
       Xgate (Idx 0); MCXgate [Idx 0; Idx 1] (Val 1); Xgate (Idx 0);
       Xgate (Idx 0); MCXgate [Idx 0; Idx 1] (Val 0); Xgate (Idx 0)]
      (mk_basis [false; true] [false; false])
  = run [Xgate (Idx 0); MCXgate [Idx 0; Idx 1] (Val 0); Xgate (Idx 0);
         Xgate (Idx 0); MCXgate [Idx 0; Idx 1] (Val 1); Xgate (Idx 0);
         MCXgate [Idx 0; Idx 1] (Val 1)]
        (mk_basis [false; true] [false; false])
  /\ exists v',
       run [Xgate (Idx 0); MCXgate [Idx 0; Idx 1] (Val 0); Xgate (Idx 0);
            Xgate (Idx 0); MCXgate [Idx 0; Idx 1] (Val 1); Xgate (Idx 0);
            MCXgate [Idx 0; Idx 1] (Val 1)]
           (mk_basis [false; true] [false; false])
       = Some (mk_basis [false; true] v').
Proof.
  apply (unload_array_same_map 2 2 ["00"; "11"; "00"; "10"]).
  - vm_compute. reflexivity.
  - vm_compute. reflexivity.
  - lia.
  - cbn. lia.
  - reflexivity.
Defined.

(** ** circuits.py on the output of preprocessing.py *)

Lemma bin_pos_testbit (p : positive) (t : nat) :
  Ascii.eqb (nth t (rev (bin_pos p)) "0"%char) "1"
  = Z.testbit (Z.pos p) (Z.of_nat t).
Proof.
  revert t. induction p as [q IH|q IH|]; intros t; cbn [bin_pos].
  - rewrite rev_app_distr. cbn [rev app]. destruct t as [|t].
    + reflexivity.
    + cbn [nth]. rewrite IH, Nat2Z.inj_succ, Pos2Z.inj_xI.
      symmetry. apply Z.testbit_odd_succ. lia.
  - rewrite rev_app_distr. cbn [rev app]. destruct t as [|t].
    + reflexivity.
    + cbn [nth]. rewrite IH, Nat2Z.inj_succ, Pos2Z.inj_xO.
      symmetry. apply Z.testbit_even_succ. lia.
  - destruct t as [|t]; [reflexivity|].
    cbn [rev app nth]. destruct t; reflexivity.
Qed.

(** The character [t] from the right of a formatted number is its binary
    digit of weight [2^t], whatever the width. *)
Lemma entry_bit_format (w : nat) (d : N) (t : nat) :
  entry_bit (format_0b w d) t = Z.testbit (Z.of_N d) (Z.of_nat t).
Proof.
  unfold entry_bit, format_0b, chars.
  rewrite list_ascii_of_string_of_list_ascii, rev_app_distr.
  set (ds := bin_digits d). set (k := (w - List.length ds)%nat).
  assert (Ascii.eqb (nth t (rev ds ++ rev (repeat "0"%char k)) "0"%char) "1"
          = Ascii.eqb (nth t (rev ds) "0"%char) "1") as ->.
  { destruct (Nat.lt_ge_cases t (List.length (rev ds))) as [Hlt|Hge].
    - rewrite app_nth1 by exact Hlt. reflexivity.
    - rewrite app_nth2 by exact Hge. rewrite rev_repeat, nth_repeat.
      rewrite (nth_overflow (rev ds)) by exact Hge. reflexivity. }
  unfold ds. destruct d as [|p]; [|apply bin_pos_testbit].
  cbn [bin_digits rev app Z.of_N]. rewrite Z.testbit_0_l.
  destruct t as [|[|t]]; reflexivity.
Qed.

Lemma testbit_below (d : Z) (hb t : nat) :
  0 <= d < 2 ^ Z.of_nat hb ->
  Z.testbit d (Z.of_nat t) = true -> (t < hb)%nat.
Proof.
  intros Hd Ht. destruct (Nat.lt_ge_cases t hb) as [Hlt|Hge]; [exact Hlt|].
  exfalso. destruct (Z.eq_dec d 0) as [->|Hne].
  - rewrite Z.testbit_0_l in Ht. discriminate.
  - rewrite Z.bits_above_log2 in Ht; [discriminate | lia |].
    assert (Z.log2 d < Z.of_nat hb) by (apply Z.log2_lt_pow2; lia). lia.
Qed.

(** X19: the loader is a lookup table of window digests.  With at least
    two and at most [2^32] windows (where the code's floating-point
    logarithm is the exact one) and at least one hash bit, [load_array]
    completes on the [substrings] the scan returned, with the index
    register the scan sized and a value register as long as the first
    entry (which is [hash_bits]); run on the index bits of window [i],
    the loaded gates add, bit by bit modulo 2, the digest [make_hash]
    gives for window [i] to the value register: value qubit [t] receives
    the digest's bit of weight [2^t]. *)
Theorem loader_looks_up_window_digest (text first : string)
    (rest : list string) (hb : nat) (pi : Z) vs n nq subs tgs :
  classical_preprocessing text (first :: rest) hb pi
  = Ok (vs, n, nq, subs, tgs) ->
  2 <= n <= 2 ^ 32 ->
  (1 <= hb)%nat ->
  exists s0 loaded,
    subs !! 0%nat = Some s0
    /\ String.length s0 = hb
    /\ load_array (Z.to_nat nq) hb subs [] = Ok loaded
    /\ forall (i : nat) (v : list bool),
         Z.of_nat i < n -> List.length v = hb ->
         exists d v',
           make_hash (slice text i (String.length first)) hb pi = Ok d
           /\ run loaded (mk_basis (index_bits (Z.to_nat nq) i) v)
              = Some (mk_basis (index_bits (Z.to_nat nq) i) v')
           /\ forall t, (t < hb)%nat ->
                 nth t v' false
                 = xorb (nth t v false) (Z.testbit d (Z.of_nat t)).
Proof.
  intros H [Hn Hbound] Hhb.
  apply preprocessing_inversion in H
    as (f & r & p & Hsvs & Hp & _ & _ & -> & _ & -> & _).
  injection Hsvs as <- <-.
  set (L := String.length first). set (nq := Z.to_nat (Z.log2_up n)).
  set (subs := map (window_digest text hb p L) (seq 0 (Z.to_nat n))).
  assert (forall i, 0 <= digest p hb (slice text i L) < 2 ^ Z.of_nat hb)
    as Hdig by (intros i; apply Z.mod_pos_bound; lia).
  assert (forall i : nat, Z.of_nat i < n ->
            subs !! i = Some (window_digest text hb p L i)) as Hlk.
  { intros i Hi. unfold subs.
    rewrite list_lookup_fmap, lookup_seq_lt by lia. reflexivity. }
  assert (forall i s, subs !! i = Some s ->
            Z.of_nat i < n /\ s = window_digest text hb p L i) as Hinv.
  { intros i s Hs. pose proof (lookup_lt_Some _ _ _ Hs) as Hlt.
    unfold subs in Hlt. rewrite length_map, length_seq in Hlt.
    assert (Z.of_nat i < n) as Hi by lia.
    rewrite (Hlk i Hi) in Hs. injection Hs as <-. split; [exact Hi|].
    reflexivity. }
  assert (1 <= nq)%nat as Hq.
  { assert (0 < Z.log2_up n) by (apply Z.log2_up_pos; lia). unfold nq. lia. }
  assert (Z.of_nat (List.length subs) = n) as Hlen
    by (unfold subs; rewrite length_map, length_seq; lia).
  assert (Z.of_nat (List.length subs) <= 2 ^ Z.of_nat nq) as Hcap.
  { rewrite Hlen. unfold nq. rewrite Z2Nat.id by apply Z.log2_up_nonneg.
    apply (Z.log2_up_spec n). lia. }
  assert (forall i s t, subs !! i = Some s -> entry_bit s t = true ->
                        (t < hb)%nat) as Hfit.
  { intros i s t Hs Ht. apply Hinv in Hs as [_ ->].
    unfold window_digest in Ht. rewrite entry_bit_format in Ht.
    rewrite Z2N.id in Ht by apply Hdig.
    exact (testbit_below _ _ _ (Hdig i) Ht). }
  apply (load_blocks_iff nq hb subs Hq Hcap) in Hfit as [gs Hgs].
  pose proof (for_each_emit _ _ (item_body_emits nq hb) _ _ [] Hgs) as Hload.
  rewrite <- load_array_items in Hload. cbn [app] in Hload.
  exists (window_digest text hb p L 0), (concat gs).
  split; [apply (Hlk 0%nat); lia|].
  split.
  { unfold window_digest. apply format_0b_length; [exact Hhb|].
    rewrite Z2N.id by apply Hdig. apply Hdig. }
  split; [exact Hload|].
  intros i v Hi Hv.
  assert (Z.of_nat i < 2 ^ Z.of_nat nq) as Hi2.
  { rewrite Hlen in Hcap. lia. }
  exists (digest p hb (slice text i L)),
         (loaded_value nq (index_bits nq i) subs v).
  split; [apply make_hash_digest; exact Hp|].
  split.
  { apply (loaded_gates_run nq hb subs (concat gs) _ v Hload Hq Hcap).
    apply index_bits_length; [exact Hq | exact Hi2]. }
  intros t _.
  rewrite (addressed_value nq subs i _ v t Hq Hcap (Hlk i Hi)).
  - unfold window_digest. rewrite entry_bit_format, Z2N.id by apply Hdig.
    reflexivity.
  - intros j Hj. rewrite Hv.
    exact (loaded_ones_fit _ _ _ _ i j _ Hload (Hlk i Hi) Hj).
Qed.

Lemma loader_looks_up_window_digest_witness :
  exists s0 loaded,
    ["10"; "01"; "10"] !! 0%nat = Some s0
    /\ String.length s0 = 2%nat
    /\ load_array (Z.to_nat 2) 2 ["10"; "01"; "10"] [] = Ok loaded
    /\ forall (i : nat) (v : list bool),
         Z.of_nat i < 3 -> List.length v = 2%nat ->
         exists d v',
           make_hash (slice "abab" i (String.length "ab")) 2 1 = Ok d
           /\ run loaded (mk_basis (index_bits (Z.to_nat 2) i) v)
              = Some (mk_basis (index_bits (Z.to_nat 2) i) v')
           /\ forall t, (t < 2)%nat ->
                 nth t v' false
                 = xorb (nth t v false) (Z.testbit d (Z.of_nat t)).
Proof.
  eapply (loader_looks_up_window_digest "abab" "ab" [] 2 1).
  - vm_compute. reflexivity.
  - lia.
  - lia.
Defined.

(** ** metrics.py: which outcome the estimator reads *)

Lemma fold_max_keep {A} (key : A -> Z) (l : list A) (b : A) :
  (forall y, In y l -> key y <= key b) ->
  fold_left (fun best y => if key best <? key y then y else best) l b = b.
Proof.
  induction l as [|y l IH]; intros H; [reflexivity|].
  cbn [fold_left].
  replace (key b <? key y) with false
    by (symmetry; apply Z.ltb_ge; apply H; left; reflexivity).
  apply IH. intros z Hz. apply H. right. exact Hz.
Qed.

Lemma fold_max_reach {A} (key : A -> Z) (pre post : list A) (m b : A) :
  (forall x, In x pre -> key x < key m) ->
  key b < key m ->
  fold_left (fun best y => if key best <? key y then y else best)
            (pre ++ m :: post) b
  = fold_left (fun best y => if key best <? key y then y else best) post m.
Proof.
  revert b. induction pre as [|x pre IH]; intros b Hpre Hb.
  - cbn [app fold_left]. apply Z.ltb_lt in Hb. rewrite Hb. reflexivity.
  - cbn [app fold_left]. apply IH.
    + intros z Hz. apply Hpre. right. exact Hz.
    + destruct (key b <? key x); [apply Hpre; left; reflexivity | exact Hb].
Qed.

(** [max] returns the first of the elements whose key is maximal. *)
Lemma max_by_first_max {A} (key : A -> Z) (pre post : list A) (m : A) :
  (forall x, In x pre -> key x < key m) ->
  (forall x, In x post -> key x <= key m) ->
  max_by key (pre ++ m :: post) = Ok m.
Proof.
  intros Hpre Hpost. destruct pre as [|x pre]; cbn [app max_by]; f_equal.
  - apply fold_max_keep. exact Hpost.
  - rewrite fold_max_reach.
    + apply fold_max_keep. exact Hpost.
    + intros z Hz. apply Hpre. right. exact Hz.
    + apply Hpre. left. reflexivity.
Qed.

(** X20: ties go to the outcome inserted first.  On a histogram whose
    keys are distinct, the estimator reads the first outcome that no
    other outcome exceeds in count (every earlier outcome has strictly
    fewer shots, no later one has more): its [r] is the base-2 value of
    that outcome, and the phase and the count are computed from that
    [r]. *)
Theorem estimate_reads_first_most_frequent
    (math_sin : float -> result float)
    (float_pow : float -> float -> result float)
    (pre post : counts) (p_count : nat) (n_substr : Z) (k : string) (v : Z) :
  List.NoDup (map fst (pre ++ (k, v) :: post)) ->
  (forall k' v', In (k', v') pre -> v' < v) ->
  (forall k' v', In (k', v') post -> v' <= v) ->
  is_bitstring k = true ->
  estimate_marked_state_count math_sin float_pow (pre ++ (k, v) :: post)
    p_count n_substr
  = (q ← int_truediv (big_endian_value k) (2 ^ Z.of_nat p_count);
     let theta_est := (q * 2 * math_pi)%float in
     s ← math_sin (theta_est / 2)%float;
     sq ← float_pow s 2%float;
     n ← float_of_int n_substr;
     Ok ((n * (1 - sq))%float, theta_est, big_endian_value k)).
Proof.
  intros Hnd Hpre Hpost Hbits. unfold estimate_marked_state_count.
  set (c := pre ++ (k, v) :: post) in *.
  assert (forall k' v', In (k', v') c -> counts_get c k' = v') as Hget
    by (intros k' v'; apply counts_get_item; exact Hnd).
  assert (counts_get c k = v) as Hk
    by (apply Hget; unfold c; apply in_or_app; right; left; reflexivity).
  assert (max_by (counts_get c) (map fst c) = Ok k) as ->.
  { unfold c at 2. rewrite map_app. cbn [map fst].
    apply max_by_first_max.
    - intros k' Hin. apply in_map_iff in Hin as ([k'' v'] & <- & Hin).
      cbn [fst]. rewrite Hk, (Hget k'' v').
      + apply (Hpre k'' v' Hin).
      + unfold c. apply in_or_app. left. exact Hin.
    - intros k' Hin. apply in_map_iff in Hin as ([k'' v'] & <- & Hin).
      cbn [fst]. rewrite Hk, (Hget k'' v').
      + apply (Hpost k'' v' Hin).
      + unfold c. apply in_or_app. right. right. exact Hin. }
  step_bind. rewrite (int_base2_bitstring k Hbits). reflexivity.
Qed.

Lemma estimate_reads_first_most_frequent_witness :
  estimate_marked_state_count (fun a => Ok a) (fun a _ => Ok a)
    ([("0001", 3)] ++ ("0110", 7) :: [("1000", 7); ("0010", 1)]) 4 8
  = (q ← int_truediv (big_endian_value "0110") (2 ^ Z.of_nat 4);
     let theta_est := (q * 2 * math_pi)%float in
     s ← Ok (theta_est / 2)%float;
     sq ← Ok s;
     n ← float_of_int 8;
     Ok ((n * (1 - sq))%float, theta_est, big_endian_value "0110")).
Proof.
  apply (estimate_reads_first_most_frequent (fun a => Ok a) (fun a _ => Ok a)
           [("0001", 3)] [("1000", 7); ("0010", 1)] 4 8 "0110" 7).
  - cbn. repeat constructor; cbn; intuition discriminate.
  - intros k' v' [H|[]]. injection H as _ <-. lia.
  - intros k' v' [H|[H|[]]]; injection H as _ <-; lia.
  - reflexivity.
Defined.

(** ** metrics.py: the error measures *)

Lemma float_sub_zero (x : float) : (x - 0)%float = x.
Proof.
  apply Prim2SF_inj. rewrite sub_spec, Prim2SF_zero.
  destruct (Prim2SF x) as [sx|sx| |sx mx ex]; try reflexivity.
  destruct sx; reflexivity.
Qed.

Lemma float_abs_nonneg (x : float) : sf_nonneg (Prim2SF (abs x)) = true.
Proof. rewrite abs_spec. destruct (Prim2SF x); reflexivity. Qed.

Lemma float_of_int_zero : float_of_int 0 = Ok 0%float.
Proof. vm_compute. reflexivity. Qed.

(** X21: the error measures.  With no true marked state ([true_M = 0])
    [compute_errors] never raises and never divides: it returns
    [|M_est|] and 0.  For any [true_M >= 0], whatever it returns is not
    below zero: both errors have a clear sign bit or are NaN. *)
Theorem compute_errors_not_below_zero (M_est : float) :
  compute_errors M_est 0 = Ok (abs M_est, 0%float)
  /\ forall true_M abs_error rel_error,
       0 <= true_M ->
       compute_errors M_est true_M = Ok (abs_error, rel_error) ->
       sf_nonneg (Prim2SF abs_error) = true
       /\ sf_nonneg (Prim2SF rel_error) = true.
Proof.
  split.
  - unfold compute_errors. rewrite float_of_int_zero. step_bind.
    rewrite float_sub_zero. reflexivity.
  - intros true_M a r Ht H. unfold compute_errors in H.
    destruct (float_of_int true_M) as [t|e] eqn:Hf; [|discriminate].
    cbn [Py.bind mbind result_bind] in H.
    pose proof (float_of_int_nonneg true_M t Ht Hf) as Htn.
    destruct (true_M =? 0); cbn [negb] in H.
    + injection H as <- <-. split; [apply float_abs_nonneg|].
      rewrite Prim2SF_zero. reflexivity.
    + unfold float_truediv in H. destruct (t =? 0)%float; [discriminate|].
      cbn [Py.bind mbind result_bind] in H. injection H as <- <-.
      split; [apply float_abs_nonneg|].
      rewrite div_spec. apply SFdiv_nonneg; [apply float_abs_nonneg | exact Htn].
Qed.

Lemma compute_errors_not_below_zero_witness :
  sf_nonneg (Prim2SF 1%float) = true
  /\ sf_nonneg (Prim2SF 0.5%float) = true.
Proof.
  apply (proj2 (compute_errors_not_below_zero 1%float) 2 1%float 0.5%float).
  - lia.
  - vm_compute. reflexivity.
Defined.

(** ** adaptive_search.py: the iteration count is a count *)

Lemma Prim2SF_quarter_pi :
  Prim2SF (math_pi / 4)%float = S754_finite false 7074237752028440 (-53).
Proof. vm_compute. reflexivity. Qed.

Lemma round_half_even_nonneg (m : positive) (e : Z) :
  0 <= round_half_even (Z.pos m) e.
Proof.
  unfold round_half_even. destruct (0 <=? e) eqn:He.
  - apply Z.leb_le in He. apply Z.mul_nonneg_nonneg; [lia|].
    apply Z.pow_nonneg. lia.
  - assert (0 < 2 ^ (- e)) as Hd
      by (apply Z.pow_pos_nonneg; [lia | apply Z.leb_gt in He; lia]).
    pose proof (Z.div_pos (Z.pos m) (2 ^ (- e)) ltac:(lia) Hd) as Hq.
    cbv zeta.
    destruct (2 * (Z.pos m mod 2 ^ (- e)) ?= 2 ^ (- e)); [|lia|lia].
    destruct (Z.even _); lia.
Qed.

Lemma py_round_nonneg (a : float) (k : Z) :
  sf_nonneg (Prim2SF a) = true \/ Prim2SF a = S754_zero true ->
  py_round a = Ok k -> 0 <= k.
Proof.
  unfold py_round. intros Ha H.
  destruct (Prim2SF a) as [s|s| |s m e].
  - injection H as <-. lia.
  - discriminate.
  - discriminate.
  - destruct Ha as [Ha|Ha]; [|discriminate]. cbn [sf_nonneg] in Ha.
    destruct s; [discriminate|]. injection H as <-.
    apply round_half_even_nonneg.
Qed.

Lemma SFsqrt_sign (x : spec_float) :
  sf_nonneg (SFsqrt prec emax x) = true
  \/ SFsqrt prec emax x = S754_zero true.
Proof.
  destruct x as [s|s| |s m e]; cbn [SFsqrt].
  - destruct s; [right | left]; reflexivity.
  - destruct s; left; reflexivity.
  - left. reflexivity.
  - destruct s; [left; reflexivity|].
    destruct (SFsqrt_core_binary prec emax (Z.pos m) e) as [[mz ez] lz].
    left. apply binary_round_aux_nonneg.
Qed.

Lemma SFmul_positive_sign (m : positive) (e : Z) (y : spec_float) :
  sf_nonneg y = true \/ y = S754_zero true ->
  sf_nonneg (SFmul prec emax (S754_finite false m e) y) = true
  \/ SFmul prec emax (S754_finite false m e) y = S754_zero true.
Proof.
  intros [Hy| ->]; [|right; reflexivity]. left.
  destruct y as [s|s| |s my ey]; cbn [SFmul sf_nonneg] in *;
    try reflexivity; try (destruct s; [discriminate|]); try reflexivity.
  apply binary_round_aux_nonneg.
Qed.

(** X22: the iteration count is never negative.  Whatever the number of
    windows and the estimate, when the derivation returns, it returns a
    count of at least 0. *)
Theorem derive_iterations_never_negative (n_substr : Z) (M_est : float)
    (k : Z) :
  derive_iterations n_substr M_est = Ok k -> 0 <= k.
Proof.
  unfold derive_iterations. destruct (M_est <? lit_1e_6)%float.
  - intros H. injection H as <-. lia.
  - destruct (float_of_int n_substr) as [n|e]; [|discriminate].
    cbn [Py.bind mbind result_bind].
    destruct (float_truediv n M_est) as [q|e]; [|discriminate].
    cbn [Py.bind mbind result_bind]. unfold math_sqrt.
    destruct (q <? 0)%float; [discriminate|].
    cbn [Py.bind mbind result_bind]. apply py_round_nonneg.
    rewrite mul_spec, sqrt_spec, Prim2SF_quarter_pi.
    apply SFmul_positive_sign, SFsqrt_sign.
Qed.

Lemma derive_iterations_never_negative_witness : 0 <= 2.
Proof.
  apply (derive_iterations_never_negative 4 1%float 2).
  vm_compute. reflexivity.
Defined.

(** ** adaptive_search.py: the valid shots are some of the shots *)

Lemma valid_shots_of_bounds (vs : list string) (c : counts) :
  forallb (fun kv => 0 <=? snd kv) c = true ->
  0 <= valid_shots_of vs c <= sum_values c.
Proof.
  unfold sum_values. rewrite sum_values_from. unfold valid_shots_of.
  induction c as [|[k v] c IH]; intros H; [cbn; lia|].
  cbn [forallb snd] in H. apply andb_true_iff in H as [Hv Hc].
  apply Z.leb_le in Hv. specialize (IH Hc).
  cbn [List.filter fst]. destruct (hits_valid_index vs k);
    cbn [map snd fold_right]; lia.
Qed.

(** X23: the valid shots are some of the shots.  For bit-string valid
    states and outcomes and counts that are not negative, the two
    summations of the validation stage return, and the number of valid
    shots lies between 0 and the total number of shots. *)
Theorem valid_shots_within_total (valid_states : list string) (c : counts) :
  forallb is_bitstring valid_states = true ->
  forallb (fun kv => is_bitstring (fst kv)) c = true ->
  forallb (fun kv => 0 <=? snd kv) c = true ->
  exists (S : gset Z) (valid_shots : Z),
    valid_index_set valid_states = Ok S
    /\ count_valid_shots S c = Ok valid_shots
    /\ 0 <= valid_shots <= sum_values c.
Proof.
  intros Hvs Hkeys Hpos.
  destruct (valid_index_set_members valid_states ∅ Hvs) as (S & HS & Hmem).
  exists S, (valid_shots_of valid_states c).
  split; [exact HS|]. split; [|apply valid_shots_of_bounds; exact Hpos].
  unfold count_valid_shots.
  rewrite (count_valid_shots_sum valid_states S c 0).
  - rewrite Z.add_0_l. reflexivity.
  - intros k. rewrite Hmem. split; [intros [H|H]|intros H].
    + exfalso. revert H. apply not_elem_of_empty.
    + exact H.
    + right. exact H.
  - exact Hkeys.
Qed.

Lemma valid_shots_within_total_witness :
  exists (S : gset Z) (valid_shots : Z),
    valid_index_set ["100"; "011"] = Ok S
    /\ count_valid_shots S [("001", 5); ("100", 3); ("110", 2)]
       = Ok valid_shots
    /\ 0 <= valid_shots <= sum_values [("001", 5); ("100", 3); ("110", 2)].
Proof.
  apply (valid_shots_within_total ["100"; "011"]
           [("001", 5); ("100", 3); ("110", 2)]); reflexivity.
Defined.

(** ** metrics.py: the mean of the measured values *)

Lemma weighted_values_closed (c : counts) (acc : list Z) :
  forallb (fun kv => is_bitstring (fst kv)) c = true ->
  for_each c (fun '(k, v) acc => r ← int_base2 k; Ok (acc ++ [r * v])) acc
  = Ok (acc ++ map (fun kv => big_endian_value (fst kv) * snd kv) c).
Proof.
  revert acc. induction c as [|[k v] c IH]; intros acc H.
  - cbn. rewrite app_nil_r. reflexivity.
  - cbn [forallb fst] in H. apply andb_true_iff in H as [Hk Hc].
    cbn [for_each]. rewrite (int_base2_bitstring k Hk). step_bind.
    rewrite (IH _ Hc), <- app_assoc. reflexivity.
Qed.

Lemma SF2Prim_nonneg (sf : spec_float) :
  sf_nonneg sf = true -> sf_nonneg (Prim2SF (SF2Prim sf)) = true.
Proof.
  destruct sf as [s|s| |s m e]; cbn [sf_nonneg]; intros Hs;
    try (destruct s; [discriminate|]); try reflexivity.
  cbn [SF2Prim]. unfold Z.ldexp. rewrite ldshiftexp_spec.
  apply SFldexp_nonneg. rewrite of_uint63_spec.
  apply binary_normalize_nonneg. apply Uint63.to_Z_bounded.
Qed.

(** The quotient of a count that is not negative by a positive one is
    not below zero. *)
Lemma int_truediv_nonneg (a b : Z) (q : float) :
  0 <= a -> 0 < b -> int_truediv a b = Ok q ->
  sf_nonneg (Prim2SF q) = true.
Proof.
  intros Ha Hb. unfold int_truediv.
  replace (b =? 0) with false by (symmetry; apply Z.eqb_neq; lia).
  replace (b <? 0) with false by (symmetry; apply Z.ltb_ge; lia).
  replace (a <? 0) with false by (symmetry; apply Z.ltb_ge; lia).
  destruct a as [|pa|pa]; [| |lia].
  - intros H. injection H as <-. reflexivity.
  - pose proof (SFdiv_nonneg (S754_finite false (Z.to_pos (Z.abs (Z.pos pa))) 0)
                  (S754_finite false (Z.to_pos (Z.abs b)) 0) eq_refl eq_refl)
      as Hq.
    destruct (SFdiv prec emax _ _) as [s|s| |s m e] eqn:Hd;
      [|discriminate| |]; intros H; injection H as <-.
    + exact (SF2Prim_nonneg (S754_zero s) Hq).
    + exact (SF2Prim_nonneg S754_nan Hq).
    + exact (SF2Prim_nonneg (S754_finite s m e) Hq).
Qed.

Lemma weighted_sum_nonneg (c : counts) :
  forallb (fun kv => 0 <=? snd kv) c = true ->
  forallb (fun kv => is_bitstring (fst kv)) c = true ->
  0 <= fold_left Z.add
         (map (fun kv => big_endian_value (fst kv) * snd kv) c) 0.
Proof.
  intros Hpos _.
  assert (forall l a, 0 <= a -> Forall (fun x => 0 <= x) l ->
                      0 <= fold_left Z.add l a) as Hfold.
  { induction l as [|x l IH]; intros a Ha Hl; [exact Ha|].
    apply Forall_cons in Hl as [Hx Hl]. cbn [fold_left].
    apply IH; [lia | exact Hl]. }
  apply Hfold; [lia|]. apply List.Forall_forall. intros x Hx.
  apply in_map_iff in Hx as ([k v] & <- & Hin). cbn [fst snd].
  rewrite forallb_forall in Hpos. specialize (Hpos (k, v) Hin).
  cbn [snd] in Hpos. apply Z.leb_le in Hpos.
  apply Z.mul_nonneg_nonneg; [|exact Hpos].
  unfold big_endian_value.
  assert (forall l a, 0 <= a ->
            0 <= fold_left (fun acc c => 2 * acc + bit_val c) l a) as Hv.
  { induction l as [|ch l IH]; intros a Ha; [exact Ha|].
    cbn [fold_left]. apply IH. unfold bit_val.
    destruct (Ascii.eqb ch "1"); lia. }
  apply Hv. lia.
Qed.

(** X24: the mean of the measured values.  On a histogram of bit-string
    outcomes with counts that are not negative, [compute_statistics]
    raises [ZeroDivisionError] whenever the counts sum to 0 (not only on
    an empty histogram); whenever it returns, there was at least one
    shot, the mean is the quotient of the sum of [value * count] by the
    number of shots (each outcome read with its first character most
    significant), and the mean is not below zero. *)
Theorem compute_statistics_mean
    (float_pow : float -> float -> result float)
    (float_sum : list float -> float) (c : counts) :
  forallb (fun kv => is_bitstring (fst kv)) c = true ->
  forallb (fun kv => 0 <=? snd kv) c = true ->
  (sum_values c = 0 ->
   compute_statistics float_pow float_sum c = Err ZeroDivisionError)
  /\ (forall mean_r var_r,
        compute_statistics float_pow float_sum c = Ok (mean_r, var_r) ->
        0 < sum_values c
        /\ int_truediv
             (fold_left Z.add
                (map (fun kv => big_endian_value (fst kv) * snd kv) c) 0)
             (sum_values c)
           = Ok mean_r
        /\ sf_nonneg (Prim2SF mean_r) = true).
Proof.
  intros Hkeys Hpos. unfold compute_statistics, weighted_values. cbv zeta.
  rewrite (weighted_values_closed c [] Hkeys). cbn [app]. step_bind.
  split.
  - intros ->. reflexivity.
  - intros m var H.
    destruct (int_truediv _ (sum_values c)) as [m'|e] eqn:Hm; [|discriminate].
    cbn [Py.bind mbind result_bind] in H.
    destruct (weighted_squares _ _ _) as [sqs|e]; [|discriminate].
    cbn [Py.bind mbind result_bind] in H.
    destruct (float_of_int _) as [t|e]; [|discriminate].
    cbn [Py.bind mbind result_bind] in H.
    destruct (float_truediv _ _) as [var'|e]; [|discriminate].
    cbn [Py.bind mbind result_bind] in H. injection H as <- <-.
    pose proof (sum_values_nonneg c Hpos) as Hsum.
    assert (0 < sum_values c) as Hlt.
    { destruct (Z.eq_dec (sum_values c) 0) as [Hz|Hnz]; [|lia].
      rewrite Hz in Hm. discriminate. }
    split; [exact Hlt|]. split; [reflexivity|].
    apply (int_truediv_nonneg _ _ _ (weighted_sum_nonneg c Hpos Hkeys) Hlt Hm).
Qed.

Lemma compute_statistics_mean_witness :
  compute_statistics (fun a b => Ok (a * a)%float)
    (fun l => fold_left PrimFloat.add l 0%float) [("01", 1); ("11", 3)]
  = Ok (2.5%float, 0.75%float)
  /\ 0 < sum_values [("01", 1); ("11", 3)]
  /\ int_truediv
       (fold_left Z.add
          (map (fun kv => big_endian_value (fst kv) * snd kv)
               [("01", 1); ("11", 3)]) 0)
       (sum_values [("01", 1); ("11", 3)])
     = Ok 2.5%float
  /\ sf_nonneg (Prim2SF 2.5%float) = true.
Proof.
  assert (compute_statistics (fun a b => Ok (a * a)%float)
            (fun l => fold_left PrimFloat.add l 0%float)
            [("01", 1); ("11", 3)]
          = Ok (2.5%float, 0.75%float)) as Hrun by (vm_compute; reflexivity).
  split; [exact Hrun|].
  exact (proj2 (compute_statistics_mean
                  (fun a b => Ok (a * a)%float)
                  (fun l => fold_left PrimFloat.add l 0%float)
                  [("01", 1); ("11", 3)] eq_refl eq_refl)
           2.5%float 0.75%float Hrun).
Defined.

(** ** setup.py: the text of a sweep cell and the register it gives *)

Lemma generated_text_length (il : Z) (first : string) (rest : list string)
    (sel : list Z) (text : string) :
  1 <= len first <= 3 ->
  Forall (fun s => len s = len first) rest ->
  sample_outcome (range_step (il - len first + 1) (len first))
                 (List.length (first :: rest)) sel = true ->
  generate_input_text_fixed il (first :: rest) sel = Ok text ->
  len text = il.
Proof.
  set (svs := first :: rest). set (L := len first).
  set (slots := range_step (il - L + 1) L).
  intros HL Hrest Hsel Hgen. unfold generate_input_text_fixed in Hgen.
  change (getitem svs 0) with (Ok first) in Hgen.
  cbn [Py.bind mbind result_bind] in Hgen. fold L in Hgen.
  unfold floordiv in Hgen.
  replace (L =? 0) with false in Hgen by (symmetry; apply Z.eqb_neq; lia).
  cbn [Py.bind mbind result_bind] in Hgen. fold slots in Hgen.
  destruct (List.length slots <? List.length svs)%nat eqn:Hlt; [discriminate|].
  apply Nat.ltb_ge in Hlt.
  set (base := slice_to _ il) in *.
  fold (write_loop sel L (enumerate svs) base) in Hgen.
  destruct (write_loop sel L (enumerate svs) base) as [base'|e] eqn:Hrun;
    [|discriminate].
  cbn [Py.bind mbind result_bind] in Hgen. injection Hgen as <-.
  apply sample_outcome_unpack in Hsel as (Hlen & _ & Hin).
  assert (0 <= il) as Hil.
  { assert (0 < il / L) as Hq.
    { unfold slots in Hlt. rewrite range_step_length in Hlt by lia.
      cbn [svs List.length] in Hlt. lia. }
    destruct (Z.lt_ge_cases il 0) as [Hneg|]; [|assumption].
    pose proof (Z.div_lt_upper_bound il L 0 ltac:(lia) ltac:(lia)). lia. }
  pose proof (base_text_length il L HL Hil) as Hbase. fold base in Hbase.
  assert (Forall (item_fits sel L (List.length base)) (enumerate svs))
    as Hfits.
  { apply Forall_forall. intros [i sv] Hx.
    apply list_elem_of_lookup in Hx as [k Hk].
    apply enumerate_lookup in Hk as [-> Hk]. cbn [Nat.add] in *.
    pose proof (lookup_lt_Some _ _ _ Hk) as Hklt.
    destruct (lookup_lt_is_Some_2 sel k) as [q Hq]; [lia|].
    assert (In q slots) as Hslot
      by (apply Hin, list_elem_of_In; eapply list_elem_of_lookup_2; exact Hq).
    exists q. cbn [fst snd].
    split; [apply getitem_lookup; exact Hq|].
    destruct (slot_fits il L q ltac:(lia) Hslot) as [Hq0 Hql].
    split; [exact Hq0|]. split; [lia|].
    rewrite chars_length.
    apply list_elem_of_lookup_2, list_elem_of_In in Hk.
    destruct Hk as [<-|Hk]; [reflexivity|].
    rewrite Forall_forall in Hrest. apply Hrest, list_elem_of_In, Hk. }
  destruct (write_loop_runs sel L (enumerate svs) base Hfits)
    as (base'' & Hrun' & Hlen' & _).
  rewrite Hrun in Hrun'. injection Hrun' as <-.
  unfold len. rewrite string_of_chars_length. lia.
Qed.

(** X25: a sweep cell gets the register it asks for.  A cell of
    [run_tests] with targets of one common length of at most three
    characters asks for a text of [2^t + L - 1] characters; whichever
    slots are drawn, the text the generator returns is scanned, for an
    accepted prime index, into exactly [2^t] windows and an index
    register of [t] qubits. *)
Theorem sweep_cell_register_size (search_values : list string)
    (num_correct : Z) (t : nat) (first : string) (rest : list string)
    (input_length : Z) (sel : list Z) (text : string) (hb : nat) (pi p : Z) :
  cell_inputs search_values num_correct t = Ok (first :: rest, input_length) ->
  1 <= len first <= 3 ->
  Forall (fun s => len s = len first) rest ->
  sample_outcome (range_step (input_length - len first + 1) (len first))
                 (List.length (first :: rest)) sel = true ->
  generate_input_text_fixed input_length (first :: rest) sel = Ok text ->
  get_prime pi = Ok p ->
  exists vs subs tgs,
    classical_preprocessing text (first :: rest) hb pi
    = Ok (vs, 2 ^ Z.of_nat t, Z.of_nat t, subs, tgs).
Proof.
  intros Hcell HL Hrest Hsel Hgen Hp.
  pose proof (generated_text_length _ _ _ _ _ HL Hrest Hsel Hgen) as Hlen.
  unfold cell_inputs in Hcell. cbv zeta in Hcell.
  destruct (getitem (slice_to search_values num_correct) 0) as [f|e] eqn:Hf;
    [|discriminate].
  cbn [Py.bind mbind result_bind] in Hcell. injection Hcell as Hts Hil.
  rewrite Hts in Hf. change (getitem (first :: rest) 0) with (Ok first) in Hf.
  injection Hf as <-.
  assert (0 < 2 ^ Z.of_nat t) as Hpow by (apply Z.pow_pos_nonneg; lia).
  rewrite classical_preprocessing_closed_form. cbv zeta.
  replace (String.length text <? String.length first)%nat with false
    by (symmetry; apply Nat.ltb_ge; unfold len in *; lia).
  rewrite Hp.
  replace (len text - Z.of_nat (String.length first) + 1)
    with (2 ^ Z.of_nat t) by (unfold len in *; lia).
  rewrite Z.log2_up_pow2 by lia.
  do 3 eexists. reflexivity.
Qed.

Lemma sweep_cell_register_size_witness :
  exists vs subs tgs,
    classical_preprocessing "xxxpatxxxingxxxxxxxxxxxxxxxxxxxxxx" ["ing"; "pat"]
      4 6
    = Ok (vs, 2 ^ Z.of_nat 5, Z.of_nat 5, subs, tgs).
Proof.
  apply (sweep_cell_register_size ["ing"; "pat"; "abc"] 2 5 "ing" ["pat"]
           34 [9; 3] "xxxpatxxxingxxxxxxxxxxxxxxxxxxxxxx" 4 6 37).
  - reflexivity.
  - unfold len. simpl. lia.
  - repeat constructor.
  - vm_compute. reflexivity.
  - vm_compute. reflexivity.
  - reflexivity.
Defined.

(** ** circuits.py: the bit order of the oracle *)

Lemma zeros_of_enumerate_In (l : list ascii) (t : nat) :
  In t (zeros_of (enumerate l))
  <-> exists c, l !! t = Some c /\ Ascii.eqb c "0" = true.
Proof.
  unfold zeros_of, enumerate. rewrite in_map_iff. split.
  - intros ([j c] & <- & Hjc). apply filter_In in Hjc as [Hjc Hc].
    apply list_elem_of_In, list_elem_of_lookup_1 in Hjc as [k Hk].
    apply enumerate_lookup in Hk as [-> Hk]. exists c. split; assumption.
  - intros (c & Hc & H0). exists (t, c). split; [reflexivity|].
    apply filter_In. split; [|exact H0].
    apply list_elem_of_In. apply (list_elem_of_lookup_2 _ t).
    apply (lookup_enumerate l 0 t c Hc).
Qed.

(** The X gates of one block: qubit [t] is inverted exactly when the
    digit of weight [2^t] of the formatted number is 0. *)
Lemma oracle_block_flips (n i t : nat) :
  (1 <= n)%nat ->
  Z.of_nat i < 2 ^ Z.of_nat n ->
  (In (Xgate t) (oracle_block n (format_0b n (N.of_nat i)))
   <-> (t < n)%nat /\ Z.testbit (Z.of_nat i) (Z.of_nat t) = false).
Proof.
  intros Hn Hi. set (s := format_0b n (N.of_nat i)).
  assert (String.length s = n) as Hlen
    by (apply format_0b_length; [exact Hn | rewrite nat_N_Z; exact Hi]).
  assert (forallb is_bit (chars s) = true) as Hbits.
  { pose proof (format_0b_is_bitstring n (N.of_nat i)) as Hb.
    unfold is_bitstring in Hb. apply andb_true_iff in Hb as [_ Hb]. exact Hb. }
  assert (In (Xgate t) (oracle_block n s) <-> In t (zero_positions s)) as ->.
  { unfold oracle_block, flip_all_ones. rewrite !in_app_iff, !in_map_iff.
    split.
    - intros [(x & Hx & Hin)|[[H|[H|[H|[]]]]|(x & Hx & Hin)]];
        try discriminate; injection Hx as <-; exact Hin.
    - intros Hin. left. exists t. split; [reflexivity | exact Hin]. }
  unfold zero_positions. rewrite zeros_of_enumerate_In.
  pose proof (entry_bit_format n (N.of_nat i) t) as Hbit.
  fold s in Hbit. rewrite nat_N_Z in Hbit. unfold entry_bit in Hbit.
  split.
  - intros (c & Hc & H0). pose proof (lookup_lt_Some _ _ _ Hc) as Hlt.
    rewrite length_rev, chars_length, Hlen in Hlt. split; [exact Hlt|].
    rewrite <- Hbit, (nth_lookup_Some _ _ _ _ Hc).
    apply Ascii.eqb_eq in H0. subst c. reflexivity.
  - intros [Hlt Hz].
    destruct (lookup_lt_is_Some_2 (rev (chars s)) t) as [c Hc];
      [rewrite length_rev, chars_length, Hlen; exact Hlt|].
    exists c. split; [exact Hc|].
    rewrite (nth_lookup_Some _ _ _ _ Hc), Hz in Hbit.
    rewrite forallb_forall in Hbits.
    assert (is_bit c = true) as Hc'.
    { apply Hbits. apply in_rev. apply list_elem_of_In.
      eapply list_elem_of_lookup_2. exact Hc. }
    unfold is_bit in Hc'. rewrite Hbit, orb_false_r in Hc'. exact Hc'.
Qed.

(** X26: the oracle reads a valid state with its last character on qubit
    0.  Given the valid states of the windows [idxs] (each index
    formatted on the [n >= 2] qubits of the register, as the scan does),
    [create_hashed_oracle] returns, and the gates it returns hold an X on
    qubit [t] exactly when [t] is a qubit of the register and some window
    index in [idxs] has a 0 as its binary digit of weight [2^t]: the
    marked basis state carries the least significant bit of the index on
    qubit 0. *)
Theorem oracle_flips_zero_bits (n : nat) (idxs : list nat) (t : nat) :
  (2 <= n)%nat ->
  Forall (fun i => Z.of_nat i < 2 ^ Z.of_nat n) idxs ->
  exists gates,
    create_hashed_oracle n (map (fun i => format_0b n (N.of_nat i)) idxs)
    = Ok gates
    /\ (In (Xgate t) gates
        <-> exists i, In i idxs /\ (t < n)%nat
                      /\ Z.testbit (Z.of_nat i) (Z.of_nat t) = false).
Proof.
  intros Hn Hidx. set (vs := map _ idxs).
  assert (oracle_fits n vs = true) as Hfits.
  { apply forallb_forall. intros b Hb.
    apply in_map_iff in Hb as (i & <- & Hi).
    rewrite List.Forall_forall in Hidx. specialize (Hidx i Hi).
    apply andb_true_iff. split; [apply Nat.leb_le; lia|].
    pose proof (zero_positions_bound (format_0b n (N.of_nat i))) as Hz.
    rewrite format_0b_length in Hz; [exact Hz | lia |].
    rewrite nat_N_Z. exact Hidx. }
  exists (flat_map (oracle_block n) vs). split.
  - unfold create_hashed_oracle. rewrite (oracle_loop n vs []), Hfits.
    reflexivity.
  - rewrite in_flat_map. rewrite List.Forall_forall in Hidx. split.
    + intros (b & Hb & Hin). apply in_map_iff in Hb as (i & <- & Hi).
      exists i. split; [exact Hi|].
      apply (oracle_block_flips n i t ltac:(lia) (Hidx i Hi)). exact Hin.
    + intros (i & Hi & Hbit). exists (format_0b n (N.of_nat i)).
      split; [apply in_map_iff; exists i; split; [reflexivity | exact Hi]|].
      apply (oracle_block_flips n i t ltac:(lia) (Hidx i Hi)). exact Hbit.
Qed.

Lemma oracle_flips_zero_bits_witness :
  exists gates,
    create_hashed_oracle 3 (map (fun i => format_0b 3 (N.of_nat i)) [6; 3]%nat)
    = Ok gates
    /\ (In (Xgate 0%nat) gates
        <-> exists i, In i [6; 3]%nat /\ (0 < 3)%nat
                      /\ Z.testbit (Z.of_nat i) (Z.of_nat 0) = false).
Proof.
  apply (oracle_flips_zero_bits 3 [6; 3]%nat 0).
  - lia.
  - repeat constructor.
Defined.

(** ** preprocessing.py: the order of the valid states *)

Lemma flat_map_seq_ordered {A} (f : nat -> list A) (val : A -> Z)
    (s N : nat) :
  (forall i x, In x (f i) -> val x = Z.of_nat i) ->
  forall j k a b,
    (j <= k)%nat ->
    flat_map f (seq s N) !! j = Some a ->
    flat_map f (seq s N) !! k = Some b ->
    val a <= val b.
Proof.
  intros Hval. revert s. induction N as [|N IH]; intros s j k a b Hjk Ha Hb.
  - destruct j; discriminate.
  - cbn [seq flat_map] in Ha, Hb.
    assert (forall m x, flat_map f (seq (S s) N) !! m = Some x ->
                        Z.of_nat s < val x) as Hrest.
    { intros m x Hx. apply list_elem_of_lookup_2, list_elem_of_In in Hx.
      apply in_flat_map in Hx as (i & Hi & Hx). apply in_seq in Hi.
      rewrite (Hval i x Hx). lia. }
    destruct (Nat.lt_ge_cases j (List.length (f s))) as [Hj|Hj];
      destruct (Nat.lt_ge_cases k (List.length (f s))) as [Hk|Hk].
    + rewrite lookup_app_l in Ha, Hb by assumption.
      apply list_elem_of_lookup_2, list_elem_of_In in Ha, Hb.
      rewrite (Hval s a Ha), (Hval s b Hb). lia.
    + rewrite lookup_app_l in Ha by assumption.
      rewrite lookup_app_r in Hb by assumption.
      apply list_elem_of_lookup_2, list_elem_of_In in Ha.
      rewrite (Hval s a Ha). apply Hrest in Hb. lia.
    + lia.
    + rewrite lookup_app_r in Ha, Hb by assumption.
      apply (IH (S s) (j - List.length (f s))%nat (k - List.length (f s))%nat
               a b ltac:(lia) Ha Hb).
Qed.

(** X27: the valid states come out in window order.  Read as numbers,
    the entries of [valid_states] never decrease along the list. *)
Theorem valid_states_in_window_order (text : string) (svs : list string)
    (hb : nat) (pi : Z) vs n nq subs tgs (j k : nat) (a b : string) :
  classical_preprocessing text svs hb pi = Ok (vs, n, nq, subs, tgs) ->
  (j <= k)%nat ->
  vs !! j = Some a ->
  vs !! k = Some b ->
  big_endian_value a <= big_endian_value b.
Proof.
  intros H Hjk Ha Hb.
  apply preprocessing_inversion in H
    as (f & r & p & _ & _ & _ & _ & _ & -> & _ & _).
  refine (flat_map_seq_ordered _ big_endian_value 0 _ _ j k a b Hjk Ha Hb).
  intros i x Hx. unfold window_marks in Hx.
  apply in_map_iff in Hx as (t & <- & _).
  rewrite format_0b_value, nat_N_Z. reflexivity.
Qed.

Lemma valid_states_in_window_order_witness :
  big_endian_value "00" <= big_endian_value "11".
Proof.
  eapply (valid_states_in_window_order "abcab" ["ab"; "zb"] 8 1
            _ _ _ _ _ 1 2 "00" "11").
  - vm_compute. reflexivity.
  - lia.
  - reflexivity.
  - reflexivity.
Defined.

(** ** utils.py: every way the generator can end *)

(** X28: how [generate_input_text_fixed] ends, for any drawn positions
    (one per target): [IndexError] on an empty target list,
    [ZeroDivisionError] when the first target is the empty string,
    [ValueError] when the targets outnumber the slots, and a text in
    every other case, whatever the lengths of the targets after the
    first and whatever the sign of [input_length]. *)
Theorem generate_input_text_fixed_outcome (input_length : Z)
    (search_values : list string) (sel : list Z) :
  List.length sel = List.length search_values ->
  match search_values with
  | [] =>
      generate_input_text_fixed input_length search_values sel
      = Err IndexError
  | first :: _ =>
      if len first =? 0
      then generate_input_text_fixed input_length search_values sel
           = Err ZeroDivisionError
      else if (List.length (range_step (input_length - len first + 1)
                              (len first))
               <? List.length search_values)%nat
      then generate_input_text_fixed input_length search_values sel
           = Err ValueError
      else exists text,
             generate_input_text_fixed input_length search_values sel
             = Ok text
  end.
Proof.
  intros Hsel. destruct search_values as [|first rest]; [reflexivity|].
  set (svs := first :: rest) in *.
  unfold generate_input_text_fixed.
  change (getitem svs 0) with (Ok first). step_bind. unfold floordiv.
  destruct (len first =? 0); [reflexivity|]. step_bind.
  destruct (_ <? List.length svs)%nat; [reflexivity|].
  set (base := slice_to _ input_length).
  destruct (write_loop_completes sel (len first) (enumerate svs) base)
    as (base' & Hrun).
  { apply Forall_forall. intros [i sv] Hx.
    apply list_elem_of_lookup in Hx as [k Hk].
    apply enumerate_lookup in Hk as [-> Hk]. cbn [Nat.add fst].
    pose proof (lookup_lt_Some _ _ _ Hk) as Hlt.
    destruct (lookup_lt_is_Some_2 sel k) as [q Hq]; [lia|].
    exists q. apply getitem_lookup. exact Hq. }
  unfold write_loop in Hrun. rewrite Hrun. step_bind.
  eexists. reflexivity.
Qed.

Lemma generate_input_text_fixed_outcome_witness :
  exists text, generate_input_text_fixed 9 ["abcd"; "x"] [4; 0] = Ok text.
Proof.
  apply (generate_input_text_fixed_outcome 9 ["abcd"; "x"] [4; 0]).
  reflexivity.
Defined.
